(** * Cohomological risk scoring: a shallow embedding of [sheaf.py] and [scorer.py]

    The development follows the two classes of the package:
    [FinancialSheaf] (complex construction, coboundary matrices, cohomology,
    persistence set-up, per-vertex scores, risk classes) and [PCRScorer]
    (fit, normalised scores).

    Conventions.
    - Python floats are idealised as rationals [Q]; [float('inf')] is the
      constructor [Inf] of [ext].
    - Vertex identifiers are integers ([Z]); they must be orderable because
      the source calls [sorted] on cliques.
    - Python dictionaries whose iteration order is never observed are
      [gmap]s; the adjacency structure of a networkx graph, whose iteration
      order decides how edges are reported, is an insertion-ordered
      association list.
    - Exceptions are values of [exn]; a method that can raise returns
      [result]. *)

From Stdlib Require Import ZArith QArith Qabs String List Lia Lqa.
From stdpp Require Import base list gmap strings sorting.

Open Scope Z_scope.

#[global] Set Warnings "-clear-no-such-hyp".

(** ** Python exceptions and the error monad *)

Module Py.

Inductive exn : Type :=
| ValueError (msg : string)
| AttributeError (attr : string)
| KeyError
| TypeError
| NetworkXError.

Inductive result (A : Type) : Type :=
| Ok (a : A)
| Err (e : exn).
Arguments Ok {A} a.
Arguments Err {A} e.

Definition bind {A B} (r : result A) (k : A → result B) : result B :=
  match r with
  | Ok a => k a
  | Err e => Err e
  end.

Definition is_ok {A} (r : result A) : bool :=
  match r with Ok _ => true | Err _ => false end.

(** [for x in l: acc = f acc x], stopping at the first exception. *)
Fixpoint for_each {A S} (f : S → A → result S) (l : list A) (acc : S) : result S :=
  match l with
  | [] => Ok acc
  | x :: l' => bind (f acc x) (for_each f l')
  end.

(** [getattr]: an attribute that was never assigned raises [AttributeError]. *)
Definition getattr {A} (name : string) (field : option A) : result A :=
  match field with
  | Some a => Ok a
  | None => Err (AttributeError name)
  end.

(** [float('inf')] next to the finite floats. *)
Inductive ext : Type :=
| Fin (q : Q)
| Inf.

End Py.
Export Py.

(** [result] is used with stdpp's monadic notation [x ← r; k]. *)
#[global] Instance result_bind : MBind Py.result := λ A B k r, Py.bind r k.
#[global] Instance result_ret : MRet Py.result := λ A a, Py.Ok a.
#[global] Instance result_fmap : FMap Py.result := λ A B f r, Py.bind r (λ a, Py.Ok (f a)).

(** Leibniz equality on rationals is decidable (numerator and denominator). *)
#[global] Instance Q_eq_dec : EqDecision Q.
Proof. solve_decision. Defined.

(** ** The part of [networkx.Graph] the package relies on

    A graph is the dictionary-of-dictionaries [G._adj]: every node maps to
    its neighbours and each neighbour to the edge's attribute dictionary.
    Both levels keep insertion order, which is the order in which
    [G.nodes()], [G.neighbors(v)] and [G.edges()] report. *)

Module NX.

Definition Attrs : Type := gmap string Q.
Definition Graph : Type := list (Z * list (Z * Attrs)).

(** Insertion or update of a key of an ordered dictionary. *)
Fixpoint dict_set {V} (k : Z) (v : V) (d : list (Z * V)) : list (Z * V) :=
  match d with
  | [] => [(k, v)]
  | (k', v') :: d' => if decide (k' = k) then (k, v) :: d' else (k', v') :: dict_set k v d'
  end.

Fixpoint dict_get {V} (k : Z) (d : list (Z * V)) : option V :=
  match d with
  | [] => None
  | (k', v') :: d' => if decide (k' = k) then Some v' else dict_get k d'
  end.

Definition nodes (g : Graph) : list Z := g.*1.

Definition has_node (g : Graph) (v : Z) : bool := bool_decide (v ∈ nodes g).

(** [G[u][v]]; [None] stands for the [KeyError]. *)
Definition edge_data (g : Graph) (u v : Z) : option Attrs :=
  nb ← dict_get u g; dict_get v nb.

Definition has_edge (g : Graph) (u v : Z) : bool :=
  match edge_data g u v with Some _ => true | None => false end.

(** [G.neighbors(v)] raises [NetworkXError] for a node that is not in [G]. *)
Definition neighbors (g : Graph) (v : Z) : result (list Z) :=
  match dict_get v g with
  | Some nb => Ok nb.*1
  | None => Err NetworkXError
  end.

(** [G.edges(data=True)]: nodes in order, for each its neighbours in order,
    skipping the neighbours that were already visited as a node, so that an
    undirected edge is reported once, from its endpoint that comes first. *)
Fixpoint edges_from (seen : list Z) (g : Graph) : list (Z * Z * Attrs) :=
  match g with
  | [] => []
  | (n, nb) :: g' =>
      ((λ e : Z * Attrs, (n, e.1, e.2)) <$> filter (λ e : Z * Attrs, e.1 ∉ seen) nb)
      ++ edges_from (n :: seen) g'
  end.

Definition edges (g : Graph) : list (Z * Z * Attrs) := edges_from [] g.

Definition add_node (v : Z) (g : Graph) : Graph :=
  match dict_get v g with
  | Some _ => g
  | None => g ++ [(v, [])]
  end.

(** [G.add_edge(u, v, **attr)]: both endpoints become nodes, the attributes
    update the edge's dictionary, which both directions share. *)
Definition add_edge (u v : Z) (attr : Attrs) (g : Graph) : Graph :=
  let g1 := add_node v (add_node u g) in
  let dd := attr ∪ default ∅ (edge_data g1 u v) in
  let g2 := dict_set u (dict_set v dd (default [] (dict_get u g1))) g1 in
  dict_set v (dict_set u dd (default [] (dict_get v g2))) g2.

Definition dict_del {V} (k : Z) (d : list (Z * V)) : list (Z * V) :=
  filter (λ e : Z * V, e.1 ≠ k) d.

(** [G.remove_edge(u, v)], which raises [NetworkXError] when there is no
    such edge. *)
Definition remove_edge (u v : Z) (g : Graph) : result Graph :=
  if has_edge g u v
  then
    let g1 := dict_set u (dict_del v (default [] (dict_get u g))) g in
    Ok (if decide (u = v) then g1
        else dict_set v (dict_del u (default [] (dict_get v g1))) g1)
  else Err NetworkXError.

(** The invariants networkx maintains: node keys are distinct, neighbour
    keys are distinct, and [G[u][v]] and [G[v][u]] are the same dictionary. *)
Definition wf_graph (g : Graph) : bool :=
  bool_decide (NoDup (nodes g))
  && forallb (λ '(u, nb),
       bool_decide (NoDup nb.*1)
       && forallb (λ '(v, dd), bool_decide (edge_data g v u = Some dd)) nb) g.

End NX.

(** ** Helpers from the Python standard library *)

Definition simplex : Type := list Z.

(** [itertools.combinations(l, k)], in the order Python yields them. *)
Fixpoint combinations {A} (k : nat) (l : list A) {struct l} : list (list A) :=
  match k with
  | O => [[]]
  | S k' =>
      match l with
      | [] => []
      | x :: l' => (cons x <$> combinations k' l') ++ combinations (S k') l'
      end
  end.

(** [itertools.combinations(l, 2)] as tuples. *)
Fixpoint pairs {A} (l : list A) : list (A * A) :=
  match l with
  | [] => []
  | x :: l' => (pair x <$> l') ++ pairs l'
  end.

(** [sorted] on integers: every correct sort returns the same list. *)
Definition sorted (l : list Z) : list Z := merge_sort Z.le l.

(** [range(a, b)]. *)
Definition py_range (a b : Z) : list Z := (λ i : nat, a + Z.of_nat i) <$> seq 0 (Z.to_nat (b - a)).

(** [enumerate(l)]. *)
Definition enumerate {A} (l : list A) : list (nat * A) := zip (seq 0 (length l)) l.

(** [l.index(x)], which raises [ValueError] when [x] is not in [l]. *)
Fixpoint index (x : Z) (l : list Z) : result nat :=
  match l with
  | [] => Err (ValueError "x not in list")
  | y :: l' => if decide (y = x) then Ok O else S <$> index x l'
  end.

Definition sumZ (l : list Z) : Z := foldr Z.add 0 l.
Definition sumQ (l : list Q) : Q := foldr Qplus 0%Q l.

(** [max] of a non-empty list of floats: the first of the largest ones. *)
Definition maxQ (x : Q) (l : list Q) : Q :=
  foldl (λ m y, if Qlt_le_dec m y then y else m) x l.

(** [np.mean] of a non-empty list. *)
Definition mean (l : list Q) : Q := (sumQ l / inject_Z (Z.of_nat (length l)))%Q.

(** ** [networkx.enumerate_all_cliques]

    The generator yields every clique once, as a list of pairwise adjacent
    nodes in the iteration order of the graph, smaller cliques first
    (single nodes, then edges, then triangles, ...). *)
Definition is_clique (g : NX.Graph) (c : list Z) : bool :=
  forallb (λ e : Z * Z, NX.has_edge g e.1 e.2) (pairs c).

Definition cliques_of_size (g : NX.Graph) (k : nat) : list (list Z) :=
  filter (λ c, is_clique g c) (combinations k (NX.nodes g)).

Definition enumerate_all_cliques (g : NX.Graph) : list (list Z) :=
  k ← seq 1 (length (NX.nodes g)); cliques_of_size g k.

(** ** [FinancialSheaf] *)

Module Sheaf.

(** A vertex stalk: a Python number, a numpy array, or any other object. *)
Inductive vfeat : Type :=
| VNum (x : Q)
| VArray (xs : list Q)
| VOther.

Record Intervals : Type := {
  H0 : list (Q * ext);
  H1 : list (Q * ext)
}.

(** The attributes of an instance. [graph], the features, the restriction
    function and [persistence_intervals] do not exist until the method that
    assigns them has run; [None] is the missing attribute. The dictionary
    [filtration_values] is created empty and never touched again, and
    [sheaf_data] only repeats the two feature dictionaries; both are left
    out. Edge stalks are Python numbers. *)
Record FinancialSheaf : Type := {
  max_dim : Z;
  complex : gmap Z (list simplex);
  graph : option NX.Graph;
  vertex_features : option (gmap Z vfeat);
  edge_features : option (gmap (Z * Z) Q);
  restriction_func : option (vfeat → Q → result Q);
  persistence_intervals : option Intervals
}.

(** [__init__]. *)
Definition init (max_simplex_dim : Z) : FinancialSheaf :=
  {| max_dim := max_simplex_dim; complex := ∅; graph := None;
     vertex_features := None; edge_features := None;
     restriction_func := None; persistence_intervals := None |}.

Definition DEFAULT_MAX_DIM : Z := 2.

(** [d.get('weight', 1) >= threshold]. *)
Definition weight_ok (threshold : Q) (d : NX.Attrs) : bool :=
  Qle_bool threshold (default 1%Q (d !! "weight"%string)).

(** [all(graph.has_edge(u, v) and graph[u][v].get('weight', 1) >= threshold
         for u, v in combinations(clique, 2))]. *)
Definition edges_ok (g : NX.Graph) (threshold : Q) (clique : list Z) : bool :=
  forallb (λ e : Z * Z,
    NX.has_edge g e.1 e.2
    && match NX.edge_data g e.1 e.2 with
       | Some d => weight_ok threshold d
       | None => false
       end) (pairs clique).

(** The pairwise condition [edges_ok] checks, as a relation on vertices. *)
Definition edge_meets (g : NX.Graph) (thr : Q) (u v : Z) : Prop :=
  ∃ d, NX.edge_data g u v = Some d ∧ weight_ok thr d = true.

Definition filtered_edges (g : NX.Graph) (threshold : Q) : list (Z * Z) :=
  (λ e : Z * Z * NX.Attrs, e.1) <$> filter (λ e : Z * Z * NX.Attrs, weight_ok threshold e.2) (NX.edges g).

(** The body of the loop over [dim]: the list stored at [self.complex[dim]].
    [graph.subgraph(vertices)] with all the vertices is the graph itself. *)
Definition clique_simplices (g : NX.Graph) (threshold : Q) (dim : Z) : list simplex :=
  sorted <$> filter (λ c, edges_ok g threshold c)
               (filter (λ c, Z.of_nat (length c) = dim + 1) (enumerate_all_cliques g)).

Definition build_complex (max_dim : Z) (g : NX.Graph) (threshold : Q)
    (c : gmap Z (list simplex)) : gmap Z (list simplex) :=
  let c0 := <[0 := (λ v, [v]) <$> NX.nodes g]> c in
  let c1 := <[1 := (λ e : Z * Z, [e.1; e.2]) <$> filtered_edges g threshold]> c0 in
  foldl (λ c dim, <[dim := clique_simplices g threshold dim]> c) c1 (py_range 2 (max_dim + 1)).

(** [build_complex_from_graph]: the new state; the method returns its
    [complex]. *)
Definition build_complex_from_graph (s : FinancialSheaf) (g : NX.Graph) (threshold : Q)
    : FinancialSheaf :=
  {| max_dim := max_dim s;
     complex := build_complex (max_dim s) g threshold (complex s);
     graph := Some g;
     vertex_features := vertex_features s; edge_features := edge_features s;
     restriction_func := restriction_func s;
     persistence_intervals := persistence_intervals s |}.

Definition DEFAULT_THRESHOLD : Q := 0.

(** [self.graph = graph] stores a reference to the caller's graph object:
    when the caller mutates that object afterwards, the sheaf sees the
    mutated graph. *)
Definition graph_mutated_by_caller (s : FinancialSheaf) (g' : NX.Graph) : FinancialSheaf :=
  {| max_dim := max_dim s; complex := complex s;
     graph := match graph s with Some _ => Some g' | None => None end;
     vertex_features := vertex_features s; edge_features := edge_features s;
     restriction_func := restriction_func s;
     persistence_intervals := persistence_intervals s |}.

(** Two states that differ at most in the restriction function they hold. *)
Definition same_data (s1 s2 : FinancialSheaf) : Prop :=
  graph s1 = graph s2
  ∧ vertex_features s1 = vertex_features s2
  ∧ edge_features s1 = edge_features s2
  ∧ persistence_intervals s1 = persistence_intervals s2.

(** *** Coboundary matrices *)

(** [scipy.sparse.csr_matrix((data, (rows, cols)), shape)]: the triples and
    the shape; entries given twice add up. *)
Record csr_matrix : Type := {
  shape : nat * nat;
  triples : list (nat * nat * Z)
}.

Definition entry (m : csr_matrix) (r c : nat) : Z :=
  sumZ ((λ t : nat * nat * Z, t.2) <$>
        filter (λ t : nat * nat * Z, t.1.1 = r ∧ t.1.2 = c) (triples m)).

Definition todense (m : csr_matrix) : list (list Z) :=
  (λ r, (λ c, entry m r c) <$> seq 0 (shape m).2) <$> seq 0 (shape m).1.

(** The matrix product [a @ b] of two sparse matrices, dense. *)
Definition matmul (a b : csr_matrix) : list (list Z) :=
  (λ r, (λ c, sumZ ((λ k, entry a r k * entry b k c) <$> seq 0 (shape a).2))
          <$> seq 0 (shape b).2) <$> seq 0 (shape a).1.

Definition is_zero_matrix (m : list (list Z)) : bool :=
  forallb (forallb (λ x, bool_decide (x = 0))) m.

(** [(-1) ** sum(sigma.index(v) for v in tau)]. *)
Definition _orientation_sign (sigma tau : simplex) : result Z :=
  indices ← mapM (λ v, index v sigma) tau;
  Ok ((-1) ^ Z.of_nat (sum_list indices)).

(** [set(tau).issubset(set(sigma))]. *)
Definition issubset (tau sigma : simplex) : bool :=
  forallb (λ v, bool_decide (v ∈ sigma)) tau.

Definition coboundary_triples (p_simplices p1_simplices : list simplex)
    : result (list (nat * nat * Z)) :=
  rows ← mapM (λ js : nat * simplex,
            mapM (λ it : nat * simplex,
              if issubset it.2 js.2
              then sign ← _orientation_sign js.2 it.2; Ok [(js.1, it.1, sign)]
              else Ok []) (enumerate p_simplices))
          (enumerate p1_simplices);
  Ok (mjoin (mjoin <$> rows)).

Definition compute_coboundary_matrix (s : FinancialSheaf) (dim : Z) : result csr_matrix :=
  match complex s !! dim, complex s !! (dim + 1) with
  | Some p_simplices, Some p1_simplices =>
      data ← coboundary_triples p_simplices p1_simplices;
      Ok {| shape := (length p1_simplices, length p_simplices); triples := data |}
  | _, _ => Ok {| shape := (O, O); triples := [] |}
  end.

(** *** Dense arrays for [compute_cohomology] *)

Record ndarray : Type := {
  nd_shape : nat * nat;
  nd_rows : list (list Q)
}.

Definition nd_size (a : ndarray) : nat := ((nd_shape a).1 * (nd_shape a).2)%nat.

(** [np.eye(n)]. *)
Definition eye (n : nat) : ndarray :=
  {| nd_shape := (n, n);
     nd_rows := (λ r, (λ c, if decide (r = c) then 1%Q else 0%Q) <$> seq 0 n) <$> seq 0 n |}.

Definition nd_get (a : ndarray) (r c : nat) : Q := default 0%Q (row ← nd_rows a !! r; row !! c).

Definition nd_of (rows cols : nat) (f : nat → nat → Q) : ndarray :=
  {| nd_shape := (rows, cols); nd_rows := (λ r, f r <$> seq 0 cols) <$> seq 0 rows |}.

(** [m.todense()]. *)
Definition csr_todense (m : csr_matrix) : ndarray :=
  nd_of (shape m).1 (shape m).2 (λ r c, inject_Z (entry m r c)).

(** [a.T]. *)
Definition transpose (a : ndarray) : ndarray :=
  nd_of (nd_shape a).2 (nd_shape a).1 (λ r c, nd_get a c r).

(** [a @ b]; numpy raises [ValueError] when the inner dimensions differ. *)
Definition nd_matmul (a b : ndarray) : result ndarray :=
  if decide ((nd_shape a).2 = (nd_shape b).1)
  then Ok (nd_of (nd_shape a).1 (nd_shape b).2
             (λ r c, sumQ ((λ k, nd_get a r k * nd_get b k c)%Q <$> seq 0 (nd_shape a).2)))
  else Err (ValueError "matmul: dimension mismatch").

(** [a - b] on arrays of one shape. *)
Definition nd_sub (a b : ndarray) : result ndarray :=
  if decide (nd_shape a = nd_shape b)
  then Ok (nd_of (nd_shape a).1 (nd_shape a).2 (λ r c, nd_get a r c - nd_get b r c)%Q)
  else Err (ValueError "operands could not be broadcast together").

(** [np.where(s < 1e-10)[0]]: the positions of the small singular values. *)
Definition small_positions (sv : list Q) : list nat :=
  (enumerate sv ≫= λ p : nat * Q, if Qlt_le_dec p.2 (1 # 10000000000) then [p.1] else []).

(** [a[:, cols]]. *)
Definition select_columns (a : ndarray) (cols : list nat) : ndarray :=
  {| nd_shape := ((nd_shape a).1, length cols);
     nd_rows := (λ r, (λ c, nd_get a r c) <$> cols) <$> seq 0 (nd_shape a).1 |}.

(** The dictionary [compute_cohomology] returns. *)
Record Cohomology : Type := {
  dimension : Z;
  basis : ndarray;
  kernel_dim : nat;
  image_dim : nat;
  cohomology_dim : nat
}.

(** A Cohomological Risk Class, one dictionary of [get_risk_classes]. *)
Record CRC : Type := {
  crc_id : nat;
  crc_birth : Q;
  crc_death : ext;
  crc_persistence : Q;
  crc_vertices : list Z;
  crc_risk_level : Q
}.

(** [lst.sort(key=score, reverse=True)]: largest score first, and stable,
    entries with equal scores keeping their order. *)
Fixpoint insert_desc (x : Z * Q) (l : list (Z * Q)) : list (Z * Q) :=
  match l with
  | [] => [x]
  | y :: l' => if Qlt_le_dec x.2 y.2 then y :: insert_desc x l' else x :: y :: l'
  end.

Definition sort_desc (l : list (Z * Q)) : list (Z * Q) := foldr insert_desc [] l.

(** [e.get(param, 1.0)]. *)
Definition attr_or_one (param : string) (d : NX.Attrs) : Q := default 1%Q (d !! param).

(** The simplex tree before [st.persistence] is called, as the sequence of
    [st.insert(simplex, filtration=f)] calls that built it. *)
Definition SimplexTree : Type := list (simplex * Q).

(** The filtrations of those pairwise edges of [simplex] that the graph has. *)
Definition edge_filtrations (g : NX.Graph) (filtration_param : string) (sigma : simplex) : list Q :=
  omap (λ e : Z * Z,
    if NX.has_edge g e.1 e.2
    then attr_or_one filtration_param <$> NX.edge_data g e.1 e.2
    else None) (pairs sigma).

Definition higher_inserts (s : FinancialSheaf) (g : NX.Graph) (filtration_param : string)
    : SimplexTree :=
  dim ← py_range 2 (max_dim s + 1);
  sigma ← default [] (complex s !! dim);
  match edge_filtrations g filtration_param sigma with
  | [] => []
  | f :: fs => [(sigma, maxQ f fs)]
  end.

Definition build_simplex_tree (s : FinancialSheaf) (g : NX.Graph) (filtration_param : string)
    : SimplexTree :=
  ((λ v, ([v], 0%Q)) <$> NX.nodes g)
  ++ ((λ e : Z * Z * NX.Attrs, ([e.1.1; e.1.2], attr_or_one filtration_param e.2)) <$> NX.edges g)
  ++ higher_inserts s g filtration_param.

Definition set_persistence_intervals (s : FinancialSheaf) (iv : Intervals) : FinancialSheaf :=
  {| max_dim := max_dim s; complex := complex s; graph := graph s;
     vertex_features := vertex_features s; edge_features := edge_features s;
     restriction_func := restriction_func s;
     persistence_intervals := Some iv |}.

(** [birth <= f <= (death if death != inf else birth * 2)]. *)
Definition in_interval (birth : Q) (death : ext) (f : Q) : bool :=
  Qle_bool birth f && Qle_bool f (match death with Fin d => d | Inf => birth * 2 end)%Q.

(** [death - birth if death != inf else birth]. *)
Definition persistence_length (birth : Q) (death : ext) : Q :=
  match death with Fin d => (d - birth)%Q | Inf => birth end.

Section Backend.

(** The numerical libraries the module calls into. Their results are
    floating-point approximations and stay abstract:
    - [np.linalg.norm] of a vector;
    - the factors [scipy.sparse.linalg.svds] computes when its argument [k]
      is admissible;
    - what the name [linalg.qr] of the module resolves to, and [np.linalg.qr];
    - [SimplexTree.persistence] of gudhi, on the inserted simplices. *)
Context (np_linalg_norm : list Q → Q)
        (svds_factors : csr_matrix → Z → ndarray * list Q * ndarray)
        (linalg_qr : ndarray → result (ndarray * ndarray))
        (np_linalg_qr : ndarray → ndarray * ndarray)
        (gd_persistence : SimplexTree → list (Z * (Q * ext))).

(** The restriction [define_sheaf_data] installs when none is given. *)
Definition default_restriction (v_feat : vfeat) (e_feat : Q) : result Q :=
  match v_feat with
  | VArray xs => Ok (np_linalg_norm ((λ x, x - e_feat)%Q <$> xs))
  | VNum x => Ok (x - e_feat)%Q
  | VOther => Err TypeError
  end.

Definition define_sheaf_data (s : FinancialSheaf)
    (vf : gmap Z vfeat) (ef : gmap (Z * Z) Q)
    (rf : option (vfeat → Q → result Q)) : FinancialSheaf :=
  {| max_dim := max_dim s; complex := complex s; graph := graph s;
     vertex_features := Some vf; edge_features := Some ef;
     restriction_func := Some (default default_restriction rf);
     persistence_intervals := persistence_intervals s |}.

(** [scipy.sparse.linalg.svds(A, k=k)] checks [0 < k < min(A.shape)] before
    anything else and raises [ValueError] otherwise. *)
Definition svds (a : csr_matrix) (k : Z) : result (ndarray * list Q * ndarray) :=
  if bool_decide (0 < k < Z.of_nat (Nat.min (shape a).1 (shape a).2))
  then Ok (svds_factors a k)
  else Err (ValueError "`k` must be an integer satisfying `0 < k < min(A.shape)`.").

Definition compute_cohomology (s : FinancialSheaf) (dim : Z) : result Cohomology :=
  delta_prev ← (if decide (dim = 0) then Ok None
                else Some <$> compute_coboundary_matrix s (dim - 1));
  delta ← compute_coboundary_matrix s dim;
  im_delta_prev ← match delta_prev with
                  | Some dp => qr ← linalg_qr (csr_todense dp); Ok (Some qr.1)
                  | None => Ok None
                  end;
  kernel_basis ← (if decide (0 < (shape delta).2)%nat
                  then usv ← svds delta (Z.of_nat (Nat.min (shape delta).1 (shape delta).2) - 1);
                       Ok (select_columns (transpose usv.2) (small_positions usv.1.2))
                  else Ok (eye (shape delta).2));
  cohomology_basis ← match im_delta_prev with
                     | Some im =>
                         if decide (0 < nd_size kernel_basis)%nat
                         then inner ← nd_matmul (transpose im) kernel_basis;
                              proj ← nd_matmul im inner;
                              diff ← nd_sub kernel_basis proj;
                              Ok (np_linalg_qr diff).1
                         else Ok kernel_basis
                     | None => Ok kernel_basis
                     end;
  Ok {| dimension := dim;
        basis := cohomology_basis;
        kernel_dim := (nd_shape kernel_basis).2;
        image_dim := match im_delta_prev with Some im => (nd_shape im).2 | None => O end;
        cohomology_dim := (nd_shape cohomology_basis).2 |}.

(** [compute_persistent_cohomology(filtration_param)]; the second parameter
    of the method, [max_filtration], is never read. *)
Definition compute_persistent_cohomology (s : FinancialSheaf) (filtration_param : string)
    : result FinancialSheaf :=
  match graph s with
  | None => Err (ValueError "Build complex first using build_complex_from_graph()")
  | Some g =>
      let persistence := gd_persistence (build_simplex_tree s g filtration_param) in
      let h1_persistence := snd <$> filter (λ p : Z * (Q * ext), p.1 = 1) persistence in
      Ok (set_persistence_intervals s
            {| H0 := snd <$> filter (λ p : Z * (Q * ext), p.1 = 0) persistence;
               H1 := h1_persistence |})
  end.

(** The discrepancy [_estimate_cocycle_norm] computes for one edge. *)
Definition inconsistency_of (v_feat : vfeat) (e_feat : Q) : Q :=
  match v_feat with
  | VArray xs => (np_linalg_norm xs - Qabs e_feat)%Q
  | VNum x => Qabs (x - e_feat)
  | VOther => 1%Q
  end.

Definition _estimate_cocycle_norm (s : FinancialSheaf) (vertex : Z) (birth : Q) (death : ext)
    : result Q :=
  g ← getattr "graph" (graph s);
  nbrs ← NX.neighbors g vertex;
  inconsistencies ← for_each (λ acc neighbor,
      match NX.edge_data g vertex neighbor with
      | None => Err KeyError
      | Some edge_data =>
          vf ← getattr "vertex_features" (vertex_features s);
          match vf !! vertex with
          | None => Ok acc
          | Some v_feat =>
              ef ← getattr "edge_features" (edge_features s);
              match ef !! (vertex, neighbor) with
              | None => Ok acc
              | Some e_feat =>
                  let inconsistency := inconsistency_of v_feat e_feat in
                  let edge_filtration := attr_or_one "weight" edge_data in
                  let inconsistency :=
                    if in_interval birth death edge_filtration
                    then (inconsistency * 2)%Q else inconsistency in
                  Ok (acc ++ [inconsistency])
              end
          end
      end) nbrs [];
  Ok (match inconsistencies with [] => 0%Q | _ => mean inconsistencies end).

Definition compute_pcr_score (s : FinancialSheaf) (vertex : Z)
    (persistence_weight norm_weight : Q) : result Q :=
  match persistence_intervals s with
  | None => Err (ValueError "Compute persistent cohomology first")
  | Some iv =>
      for_each (λ vertex_pcr bd,
          let persistence := persistence_length bd.1 bd.2 in
          cocycle_norm ← _estimate_cocycle_norm s vertex bd.1 bd.2;
          let contribution := (persistence_weight * persistence + norm_weight * cocycle_norm)%Q in
          Ok (vertex_pcr + contribution)%Q) (H1 iv) 0%Q
  end.

Definition DEFAULT_PERSISTENCE_WEIGHT : Q := 1.
Definition DEFAULT_NORM_WEIGHT : Q := 1 # 2.

Definition _find_vertices_in_cycle (s : FinancialSheaf) (cycle_idx : nat) : result (list Z) :=
  g ← getattr "graph" (graph s);
  vertices ← for_each (λ acc v,
      pcr ← compute_pcr_score s v DEFAULT_PERSISTENCE_WEIGHT DEFAULT_NORM_WEIGHT;
      Ok (if Qlt_le_dec (1 # 2) pcr then acc ++ [(v, pcr)] else acc)) (NX.nodes g) [];
  Ok (fst <$> take 10 (sort_desc vertices)).

Definition get_risk_classes (s : FinancialSheaf) (threshold : Q) : result (list CRC) :=
  iv ← getattr "persistence_intervals" (persistence_intervals s);
  for_each (λ crcs ibd,
      let i := ibd.1 in
      let birth := ibd.2.1 in
      let death := ibd.2.2 in
      let persistence := persistence_length birth death in
      if Qle_bool threshold persistence
      then involved_vertices ← _find_vertices_in_cycle s i;
           Ok (crcs ++ [ {| crc_id := i; crc_birth := birth; crc_death := death;
                            crc_persistence := persistence;
                            crc_vertices := involved_vertices;
                            crc_risk_level := if Qlt_le_dec 1 (persistence * 10) then 1%Q
                                              else (persistence * 10)%Q |} ])
      else Ok crcs) (enumerate (H1 iv)) [].

End Backend.

End Sheaf.

(** ** [PCRScorer] *)

Module Scorer.

(** The attributes of a scorer. [persistence], [graph] and the features
    exist once [fit] has run, [scores] once [compute_all_scores] has; the
    dictionary [results] is created empty and never used. The score
    dictionary is keyed by the nodes of the graph, which are distinct, and
    is kept in their order. *)
Record PCRScorer : Type := {
  sheaf : Sheaf.FinancialSheaf;
  filtration_param : string;
  persistence : option Sheaf.Intervals;
  graph : option NX.Graph;
  vertex_features : option (gmap Z Sheaf.vfeat);
  edge_features : option (gmap (Z * Z) Q);
  scores : option (list (Z * Q))
}.

(** [__init__(max_dim=2, filtration_param='weight')]. *)
Definition init (max_dim : Z) (filtration_param : string) : PCRScorer :=
  {| sheaf := Sheaf.init max_dim; filtration_param := filtration_param;
     persistence := None; graph := None; vertex_features := None;
     edge_features := None; scores := None |}.

Section Backend.

Context (np_linalg_norm : list Q → Q)
        (gd_persistence : Sheaf.SimplexTree → list (Z * (Q * ext))).

Definition fit (sc : PCRScorer) (g : NX.Graph)
    (vf : gmap Z Sheaf.vfeat) (ef : gmap (Z * Z) Q)
    (rf : option (Sheaf.vfeat → Q → result Q)) : result PCRScorer :=
  let s1 := Sheaf.build_complex_from_graph (sheaf sc) g Sheaf.DEFAULT_THRESHOLD in
  let s2 := Sheaf.define_sheaf_data np_linalg_norm s1 vf ef rf in
  s3 ← Sheaf.compute_persistent_cohomology gd_persistence s2 (filtration_param sc);
  Ok {| sheaf := s3; filtration_param := filtration_param sc;
        persistence := Sheaf.persistence_intervals s3;
        graph := Some g; vertex_features := Some vf; edge_features := Some ef;
        scores := scores sc |}.

(** The normalisation step of [compute_all_scores]. *)
Definition normalize (raw : list (Z * Q)) : list (Z * Q) :=
  let max_score := match raw.*2 with [] => 1%Q | s0 :: rest => maxQ s0 rest end in
  if Qlt_le_dec 0 max_score
  then (λ vs : Z * Q, (vs.1, vs.2 / max_score)%Q) <$> raw
  else raw.

Definition raw_scores (sc : PCRScorer) (persistence_weight norm_weight : Q)
    : result (list (Z * Q)) :=
  g ← getattr "graph" (graph sc);
  mapM (λ vertex,
      score ← Sheaf.compute_pcr_score np_linalg_norm (sheaf sc) vertex
                persistence_weight norm_weight;
      Ok (vertex, score)) (NX.nodes g).

(** [compute_all_scores]: the scores it returns; it also stores them in
    [self.scores]. *)
Definition compute_all_scores (sc : PCRScorer) (persistence_weight norm_weight : Q)
    : result (list (Z * Q)) :=
  normalize <$> raw_scores sc persistence_weight norm_weight.

Definition get_risk_classes (sc : PCRScorer) (threshold : Q) : result (list Sheaf.CRC) :=
  Sheaf.get_risk_classes np_linalg_norm (sheaf sc) threshold.

End Backend.

End Scorer.

(** ** The estimate as the specification words it

    Used only to compare [Sheaf._estimate_cocycle_norm] with: the mean, over
    the edges incident to the vertex whose feature is available (the edge
    being an unordered pair), of the attached restriction function applied
    to the vertex's feature and the edge's feature, doubled when the edge's
    filtration value lies in [birth, death] (or [birth, 2 * birth] when
    death is infinite); 0 when there is no such edge. *)

Definition edge_feature_unordered (ef : gmap (Z * Z) Q) (u v : Z) : option Q :=
  match ef !! (u, v) with
  | Some x => Some x
  | None => ef !! (v, u)
  end.

Definition cocycle_norm_estimate_spec (s : Sheaf.FinancialSheaf) (filtration_param : string)
    (vertex : Z) (birth : Q) (death : ext) : result Q :=
  g ← getattr "graph" (Sheaf.graph s);
  nbrs ← NX.neighbors g vertex;
  vf ← getattr "vertex_features" (Sheaf.vertex_features s);
  ef ← getattr "edge_features" (Sheaf.edge_features s);
  rho ← getattr "restriction_func" (Sheaf.restriction_func s);
  discrepancies ← for_each (λ acc neighbor,
      match vf !! vertex, edge_feature_unordered ef vertex neighbor,
            NX.edge_data g vertex neighbor with
      | Some v_feat, Some e_feat, Some data =>
          r ← rho v_feat e_feat;
          Ok (acc ++ [if Sheaf.in_interval birth death (Sheaf.attr_or_one filtration_param data)
                      then (r * 2)%Q else r])
      | _, _, _ => Ok acc
      end) nbrs [];
  Ok (match discrepancies with [] => 0%Q | _ => mean discrepancies end).

(** ** Positions, faces and signs

    The quantities [compute_coboundary_matrix] and [_orientation_sign]
    compute, as total functions, and two conditions on a graph. *)

(** Position of a vertex in a simplex, the value [index] returns. *)
Fixpoint position (x : Z) (l : list Z) : nat :=
  match l with
  | [] => O
  | y :: l' => if decide (y = x) then O else S (position x l')
  end.

(** The list without the vertex [x]. *)
Definition del (x : Z) (l : list Z) : list Z := filter (λ y, y ≠ x) l.

(** The exponent of [_orientation_sign]. *)
Definition sign_exp (sigma tau : list Z) : nat := sum_list ((λ v, position v sigma) <$> tau).

Definition sign (sigma tau : list Z) : Z := (-1) ^ Z.of_nat (sign_exp sigma tau).

(** The entry the coboundary matrix holds for a pair of simplices. *)
Definition cob_entry (sigma tau : list Z) : Z :=
  if Sheaf.issubset tau sigma then sign sigma tau else 0.

(** 0 + 1 + ... + (n - 1). *)
Fixpoint triangular (n : nat) : nat :=
  match n with O => O | S m => (m + triangular m)%nat end.

(** The triples one row of the nested loop appends. *)
Definition cell (js it : nat * simplex) : list (nat * nat * Z) :=
  if Sheaf.issubset it.2 js.2 then [(js.1, it.1, sign js.2 it.2)] else [].

(** The sum of the data stored at position ([r], [c]). *)
Definition at_position (r c : nat) (ts : list (nat * nat * Z)) : Z :=
  sumZ ((λ t : nat * nat * Z, t.2) <$>
        filter (λ t : nat * nat * Z, t.1.1 = r ∧ t.1.2 = c) ts).

(** No node is its own neighbour. *)
Definition no_self_loops (g : NX.Graph) : bool :=
  forallb (λ e : Z * list (Z * NX.Attrs), negb (bool_decide (e.1 ∈ e.2.*1))) g.

(** networkx reports every edge with its smaller endpoint first. *)
Definition edges_ascending (g : NX.Graph) : bool :=
  forallb (λ e : Z * Z * NX.Attrs, bool_decide (e.1.1 < e.1.2)) (NX.edges g).

(** ** Concrete inputs *)

Definition weight_attr (w : Q) : NX.Attrs := {[ "weight"%string := w ]}.
Definition weight1 : NX.Attrs := weight_attr 1.

(** The triangle of the test fixture, edges entered as (0,1), (1,2), (2,0). *)
Definition triangle_graph : NX.Graph :=
  NX.add_edge 2 0 weight1 (NX.add_edge 1 2 weight1 (NX.add_edge 0 1 weight1 [])).

(** The same triangle with the edge (2,0) entered first. *)
Definition triangle_from_2 : NX.Graph :=
  NX.add_edge 1 2 weight1 (NX.add_edge 0 1 weight1 (NX.add_edge 2 0 weight1 [])).

(** One edge, entered as (2,0). *)
Definition edge_2_0 : NX.Graph := NX.add_edge 2 0 weight1 [].

(** One vertex and no edge. *)
Definition isolated_vertex : NX.Graph := NX.add_node 0 [].

(** The 4-cycle 0-1-2-3-0 with unit weights. *)
Definition square_graph : NX.Graph :=
  NX.add_edge 3 0 weight1 (NX.add_edge 2 3 weight1
    (NX.add_edge 1 2 weight1 (NX.add_edge 0 1 weight1 []))).

(** A triangle with weights 1, 2 and 3 on (0,1), (1,2) and (0,2). *)
Definition weighted_triangle : NX.Graph :=
  NX.add_edge 0 2 (weight_attr 3) (NX.add_edge 1 2 (weight_attr 2)
    (NX.add_edge 0 1 (weight_attr 1) [])).

(** The same graph object after the caller's [G.remove_edge(0, 2)]. *)
Definition weighted_triangle_cut : NX.Graph :=
  match NX.remove_edge 0 2 weighted_triangle with
  | Ok g => g
  | Err _ => weighted_triangle
  end.

(** The one-dimensional class of the unfilled 4-cycle: born when the last
    edge closes the cycle at filtration 1, never dying; and its single
    connected component. *)
Definition square_intervals : Sheaf.Intervals :=
  {| Sheaf.H0 := [(0%Q, Inf)]; Sheaf.H1 := [(1%Q, Inf)] |}.

(** A sheaf fitted on the 4-cycle with the given features and restriction. *)
Definition square_sheaf (np_linalg_norm : list Q → Q)
    (vf : gmap Z Sheaf.vfeat) (ef : gmap (Z * Z) Q)
    (rf : option (Sheaf.vfeat → Q → result Q)) : Sheaf.FinancialSheaf :=
  Sheaf.set_persistence_intervals
    (Sheaf.define_sheaf_data np_linalg_norm
       (Sheaf.build_complex_from_graph (Sheaf.init 2) square_graph 0) vf ef rf)
    square_intervals.

(** The scorer around it, as [fit] leaves it. *)
Definition square_scorer (np_linalg_norm : list Q → Q)
    (vf : gmap Z Sheaf.vfeat) (ef : gmap (Z * Z) Q)
    (rf : option (Sheaf.vfeat → Q → result Q)) : Scorer.PCRScorer :=
  {| Scorer.sheaf := square_sheaf np_linalg_norm vf ef rf;
     Scorer.filtration_param := "weight";
     Scorer.persistence := Some square_intervals;
     Scorer.graph := Some square_graph;
     Scorer.vertex_features := Some vf;
     Scorer.edge_features := Some ef;
     Scorer.scores := None |}.

(** Scalar stalks on the vertices 0 and 1 and one edge feature, keyed (0,1). *)
Definition scalar_features : gmap Z Sheaf.vfeat := {[ 0 := Sheaf.VNum 1; 1 := Sheaf.VNum 1 ]}.
Definition one_edge_feature (x : Q) : gmap (Z * Z) Q := {[ (0, 1) := x ]}.

(** The array [np.array([0.0])] on vertex 0. *)
Definition zero_array_feature : gmap Z Sheaf.vfeat := {[ 0 := Sheaf.VArray [0%Q] ]}.

(** A restriction function that finds no discrepancy anywhere. *)
Definition zero_restriction : Sheaf.vfeat → Q → result Q := λ _ _, Ok 0%Q.

(** The sum of absolute values; it agrees with the Euclidean norm on
    vectors of length at most one. *)
Definition norm_l1 (xs : list Q) : Q := sumQ (Qabs <$> xs).


(** A persistence engine that reports the intervals of the 4-cycle: one
    connected component and one cycle born at 1. *)
Definition square_persistence : Sheaf.SimplexTree → list (Z * (Q * ext)) :=
  λ _, [(0, (0%Q, Inf)); (1, (1%Q, Inf))].

(** A persistence engine that reports one connected component and no cycle. *)
Definition one_component : Sheaf.SimplexTree → list (Z * (Q * ext)) :=
  λ _, [(0, (0%Q, Inf))].

(** The scorer [fit] leaves on the single edge (2,0) with that engine. *)
Definition edge_scorer : Scorer.PCRScorer :=
  {| Scorer.sheaf :=
       Sheaf.set_persistence_intervals
         (Sheaf.define_sheaf_data norm_l1
            (Sheaf.build_complex_from_graph (Sheaf.init 2) edge_2_0 0)
            scalar_features (one_edge_feature 3) None)
         {| Sheaf.H0 := [(0%Q, Inf)]; Sheaf.H1 := [] |};
     Scorer.filtration_param := "weight";
     Scorer.persistence := Some {| Sheaf.H0 := [(0%Q, Inf)]; Sheaf.H1 := [] |};
     Scorer.graph := Some edge_2_0;
     Scorer.vertex_features := Some scalar_features;
     Scorer.edge_features := Some (one_edge_feature 3);
     Scorer.scores := None |}.


(** * Properties *)

(** ** Combinations, pairs and ordered dictionaries *)

Section ListFacts.
Context {A : Type}.
Implicit Types l c : list A.

Lemma elem_of_combinations (k : nat) l c :
  c ∈ combinations k l ↔ c `sublist_of` l ∧ length c = k.
Proof.
  revert k c. induction l as [|x l IH]; intros k c.
  - destruct k; simpl.
    + rewrite list_elem_of_singleton. split.
      * intros ->. split; [constructor | done].
      * intros [_ Hlen]. by apply nil_length_inv.
    + rewrite elem_of_nil. split; [done|].
      intros [Hsub Hlen]. apply sublist_nil_r in Hsub. by subst.
  - destruct k; simpl.
    + rewrite list_elem_of_singleton. split.
      * intros ->. split; [apply sublist_nil_l | done].
      * intros [_ Hlen]. by apply nil_length_inv.
    + rewrite elem_of_app, list_elem_of_fmap. split.
      * intros [(c' & -> & Hc') | Hc].
        -- apply IH in Hc' as [Hsub Hlen]. split; [by constructor | simpl; lia].
        -- apply IH in Hc as [Hsub Hlen]. split; [by constructor | done].
      * intros [Hsub Hlen]. inversion Hsub as [| y c' l' Hsub' | y c' l' Hsub']; subst.
        -- left. exists c'. split; [done|]. apply IH. split; [done | simpl in Hlen; lia].
        -- right. apply IH. done.
Qed.

Lemma elem_of_pairs l (u v : A) :
  (u, v) ∈ pairs l ↔ [u; v] `sublist_of` l.
Proof.
  induction l as [|x l IH]; simpl.
  - rewrite elem_of_nil. split; [done|]. intros H. by apply sublist_nil_r in H.
  - rewrite elem_of_app, list_elem_of_fmap, IH. split.
    + intros [(w & [= -> ->] & Hw) | Hsub].
      * constructor. by apply singleton_sublist_l.
      * by constructor.
    + intros Hsub. inversion Hsub as [| y c' l' Hsub' | y c' l' Hsub']; subst.
      * left. exists v. split; [done|]. by apply singleton_sublist_l.
      * by right.
Qed.

Lemma pairs_elem_of l (u v : A) : (u, v) ∈ pairs l → u ∈ l ∧ v ∈ l.
Proof.
  rewrite elem_of_pairs. intros Hsub.
  split; eapply elem_of_sublist; try exact Hsub; set_solver.
Qed.

Lemma pairs_distinct l (u v : A) : NoDup l → (u, v) ∈ pairs l → u ≠ v.
Proof.
  rewrite elem_of_pairs. intros Hnd Hsub Heq. subst.
  eapply sublist_NoDup in Hsub; [|done].
  apply NoDup_cons in Hsub as [Hn _]. set_solver.
Qed.

Lemma pairs_total l (u v : A) :
  u ∈ l → v ∈ l → u ≠ v → (u, v) ∈ pairs l ∨ (v, u) ∈ pairs l.
Proof.
  induction l as [|x l IH]; [by rewrite elem_of_nil|].
  rewrite !elem_of_cons. simpl. setoid_rewrite elem_of_app.
  setoid_rewrite list_elem_of_fmap.
  intros [->|Hu] [->|Hv] Hne; try done.
  - left. left. by exists v.
  - right. left. by exists u.
  - destruct (IH Hu Hv Hne); [left | right]; by right.
Qed.

Lemma pairs_sublist l1 l2 (e : A * A) :
  l1 `sublist_of` l2 → e ∈ pairs l1 → e ∈ pairs l2.
Proof.
  destruct e as [u v]. rewrite !elem_of_pairs. intros H1 H2. by etrans.
Qed.

End ListFacts.

Section DictFacts.
Context {V : Type}.
Implicit Types d : list (Z * V).

Lemma dict_get_Some_elem_of d k v : NX.dict_get k d = Some v → (k, v) ∈ d.
Proof.
  induction d as [|[k' v'] d IH]; simpl; [done|].
  case_decide; intros Hget; simplify_eq; [left | right; auto].
Qed.

Lemma dict_get_elem_of_NoDup d k v :
  NoDup d.*1 → (k, v) ∈ d → NX.dict_get k d = Some v.
Proof.
  induction d as [|[k' v'] d IH]; simpl; [by rewrite elem_of_nil|].
  rewrite NoDup_cons, elem_of_cons. intros [Hk Hnd] [Heq|Hin].
  - simplify_eq. by rewrite decide_True.
  - rewrite decide_False; [auto|].
    intros ->. apply Hk. apply list_elem_of_fmap. by exists (k, v).
Qed.

Lemma dict_get_is_Some d k : is_Some (NX.dict_get k d) ↔ k ∈ d.*1.
Proof.
  induction d as [|[k' v'] d IH]; simpl.
  - rewrite elem_of_nil. split; [by intros [? ?] | done].
  - rewrite elem_of_cons. case_decide; subst.
    + split; [by left | by eexists].
    + rewrite IH. split; [by right | by intros [?|?]].
Qed.

End DictFacts.

(** ** Graphs *)

Section GraphFacts.
Implicit Types g : NX.Graph.

Lemma wf_graph_nodes g : NX.wf_graph g = true → NoDup (NX.nodes g).
Proof.
  unfold NX.wf_graph. rewrite andb_true_iff, bool_decide_eq_true. tauto.
Qed.

Lemma wf_graph_adj g u nb :
  NX.wf_graph g = true → (u, nb) ∈ g →
  NoDup nb.*1 ∧ ∀ v dd, (v, dd) ∈ nb → NX.edge_data g v u = Some dd.
Proof.
  unfold NX.wf_graph. rewrite andb_true_iff, forallb_forall.
  intros [_ Hall] Hin. apply list_elem_of_In, Hall in Hin.
  apply andb_true_iff in Hin as [Hnd Hsym].
  apply bool_decide_eq_true in Hnd. split; [done|].
  intros v dd Hv. rewrite forallb_forall in Hsym.
  apply list_elem_of_In, Hsym in Hv. by apply bool_decide_eq_true in Hv.
Qed.

Lemma edge_data_Some g u v d :
  NX.edge_data g u v = Some d ↔ ∃ nb, NX.dict_get u g = Some nb ∧ NX.dict_get v nb = Some d.
Proof.
  unfold NX.edge_data. destruct (NX.dict_get u g) as [nb|]; simpl.
  - split; [by exists nb | by intros (? & [= <-] & ?)].
  - split; [done | by intros (? & ? & ?)].
Qed.

Lemma edge_data_sym g u v d :
  NX.wf_graph g = true → NX.edge_data g u v = Some d → NX.edge_data g v u = Some d.
Proof.
  intros Hwf (nb & Hu & Hv)%edge_data_Some.
  apply dict_get_Some_elem_of in Hu, Hv.
  destruct (wf_graph_adj g u nb Hwf Hu) as [_ Hsym]. by apply Hsym.
Qed.

Lemma has_edge_true g u v : NX.has_edge g u v = true ↔ is_Some (NX.edge_data g u v).
Proof.
  unfold NX.has_edge. destruct (NX.edge_data g u v).
  - split; [by eexists | done].
  - split; [done | by intros [? ?]].
Qed.

Lemma has_edge_sym g u v :
  NX.wf_graph g = true → NX.has_edge g u v = true → NX.has_edge g v u = true.
Proof.
  rewrite !has_edge_true. intros Hwf [d Hd]. exists d. by apply edge_data_sym.
Qed.

Lemma edge_data_node_l g u v d : NX.edge_data g u v = Some d → u ∈ NX.nodes g.
Proof.
  intros (nb & Hu & _)%edge_data_Some. apply dict_get_is_Some. by eexists.
Qed.

Lemma edge_data_node_r g u v d :
  NX.wf_graph g = true → NX.edge_data g u v = Some d → v ∈ NX.nodes g.
Proof. intros Hwf Hd. eapply edge_data_node_l, edge_data_sym; eauto. Qed.

(** An edge is reported from the endpoint whose neighbourhood is visited
    while the other endpoint has not been visited yet. *)
Lemma elem_of_edges_from seen g u v d :
  (u, v, d) ∈ NX.edges_from seen g ↔
  ∃ g1 nb g2, g = g1 ++ (u, nb) :: g2 ∧ (v, d) ∈ nb ∧ (v ∉ seen) ∧ v ∉ g1.*1.
Proof.
  revert seen. induction g as [|[n nb] g IH]; intros seen; simpl.
  - rewrite elem_of_nil. split; [done|].
    intros (g1 & ? & ? & Heq & _). by destruct g1.
  - rewrite elem_of_app, list_elem_of_fmap, IH. split.
    + intros [([v' d'] & [= -> -> ->] & Hin) | (g1 & nb' & g2 & -> & Hin & Hseen & Hg1)].
      * apply list_elem_of_filter in Hin as [Hseen Hin]. simpl in *.
        exists [], nb, g. repeat split; [done.. | set_solver].
      * exists ((n, nb) :: g1), nb', g2. repeat split; [done | set_solver..].
    + intros (g1 & nb' & g2 & Heq & Hin & Hseen & Hg1).
      destruct g1 as [|[n' nb''] g1]; simpl in *; simplify_eq.
      * left. exists (v, d). split; [done|]. by apply list_elem_of_filter.
      * right. exists g1, nb', g2. repeat split; [done | set_solver..].
Qed.

Lemma elem_of_edges g u v d :
  (u, v, d) ∈ NX.edges g ↔
  ∃ g1 nb g2, g = g1 ++ (u, nb) :: g2 ∧ (v, d) ∈ nb ∧ v ∉ g1.*1.
Proof.
  unfold NX.edges. rewrite elem_of_edges_from.
  split; intros (g1 & nb & g2 & ?); exists g1, nb, g2; set_solver.
Qed.

Lemma edges_sound g u v d :
  NX.wf_graph g = true → (u, v, d) ∈ NX.edges g → NX.edge_data g u v = Some d.
Proof.
  intros Hwf (g1 & nb & g2 & -> & Hin & _)%elem_of_edges.
  set (g := g1 ++ (u, nb) :: g2) in *.
  assert ((u, nb) ∈ g) as Hu by (subst g; set_solver).
  apply edge_data_Some. exists nb. split.
  - apply dict_get_elem_of_NoDup; [by apply wf_graph_nodes | done].
  - apply dict_get_elem_of_NoDup; [|done]. by apply (wf_graph_adj g u nb).
Qed.

Lemma dict_values_agree {V} (d : list (Z * V)) k v1 v2 :
  NoDup d.*1 → (k, v1) ∈ d → (k, v2) ∈ d → v1 = v2.
Proof.
  intros Hnd H1 H2.
  apply (dict_get_elem_of_NoDup _ _ _ Hnd) in H1, H2. congruence.
Qed.

(** Every edge of the graph is reported, in one of its two directions. *)
Lemma edges_complete g u v d :
  NX.wf_graph g = true → NX.edge_data g u v = Some d →
  (u, v, d) ∈ NX.edges g ∨ (v, u, d) ∈ NX.edges g.
Proof.
  intros Hwf Huv. pose proof (edge_data_sym _ _ _ _ Hwf Huv) as Hvu.
  pose proof (wf_graph_nodes g Hwf) as Hnd. unfold NX.nodes in Hnd.
  apply edge_data_Some in Huv as (nbu & Hu & Hvd).
  apply edge_data_Some in Hvu as (nbv & Hv & Hud).
  apply dict_get_Some_elem_of in Hu, Hv, Hvd, Hud.
  apply list_elem_of_split in Hu as (g1 & g2 & ->).
  destruct (decide (v ∈ g1.*1)) as [Hin|Hnin].
  - right. apply list_elem_of_fmap in Hin as ([v' nbv'] & Heq & Hin). simpl in Heq. subst v'.
    apply list_elem_of_split in Hin as (h1 & h2 & ->).
    assert (nbv' = nbv) as ->.
    { eapply dict_values_agree; [exact Hnd | | exact Hv]. set_solver. }
    apply elem_of_edges. exists h1, nbv, (h2 ++ (u, nbu) :: g2).
    split; [by rewrite <-app_assoc | split; [done|]].
    intros Hu1. rewrite <-app_assoc, fmap_app in Hnd.
    apply NoDup_app in Hnd as (_ & Hdisj & _).
    apply (Hdisj u Hu1). apply list_elem_of_fmap. exists (u, nbu). set_solver.
  - left. apply elem_of_edges. by exists g1, nbu, g2.
Qed.

End GraphFacts.

(** ** The complex [build_complex_from_graph] stores *)

Section ComplexFacts.
Import Sheaf.
Implicit Types (g : NX.Graph) (sigma tau : simplex).

Lemma elem_of_py_range a b k : k ∈ py_range a b ↔ a ≤ k < b.
Proof.
  unfold py_range. rewrite list_elem_of_fmap. setoid_rewrite elem_of_seq. split.
  - intros (i & -> & Hi). lia.
  - intros Hk. exists (Z.to_nat (k - a)). lia.
Qed.

Lemma foldl_insert_lookup (F : Z → list simplex) (ds : list Z) (c : gmap Z (list simplex)) k :
  foldl (λ c dim, <[dim := F dim]> c) c ds !! k
  = if decide (k ∈ ds) then Some (F k) else c !! k.
Proof.
  revert c. induction ds as [|d ds IH]; intros c.
  - destruct (decide (k ∈ [])) as [Hin|_]; [by apply elem_of_nil in Hin | done].
  - change (foldl (λ c dim, <[dim := F dim]> c) c (d :: ds))
      with (foldl (λ c dim, <[dim := F dim]> c) (<[d := F d]> c) ds).
    rewrite IH. destruct (decide (k ∈ ds)) as [Hin|Hnin].
    + destruct (decide (k ∈ d :: ds)) as [_|Hn]; [done | set_solver].
    + destruct (decide (d = k)) as [->|Hne].
      * rewrite lookup_insert_eq.
        destruct (decide (k ∈ k :: ds)) as [_|Hn]; [done | set_solver].
      * rewrite lookup_insert_ne by done.
        destruct (decide (k ∈ d :: ds)) as [Hn|_]; [set_solver | done].
Qed.

Lemma build_complex_lookup md g thr (c : gmap Z (list simplex)) k :
  build_complex md g thr c !! k =
  if decide (2 ≤ k ≤ md) then Some (clique_simplices g thr k)
  else if decide (k = 1) then Some ((λ e : Z * Z, [e.1; e.2]) <$> filtered_edges g thr)
  else if decide (k = 0) then Some ((λ v, [v]) <$> NX.nodes g)
  else c !! k.
Proof.
  unfold build_complex. rewrite foldl_insert_lookup.
  destruct (decide (2 ≤ k ≤ md)) as [Hk|Hk].
  - rewrite decide_True; [done|]. apply elem_of_py_range. lia.
  - rewrite decide_False; [|rewrite elem_of_py_range; lia].
    destruct (decide (k = 1)) as [->|H1]; [by rewrite lookup_insert_eq|].
    rewrite lookup_insert_ne by done.
    destruct (decide (k = 0)) as [->|H0]; [by rewrite lookup_insert_eq|].
    by rewrite lookup_insert_ne.
Qed.

Lemma elem_of_filtered_edges g thr u v :
  (u, v) ∈ filtered_edges g thr ↔
  ∃ d, (u, v, d) ∈ NX.edges g ∧ weight_ok thr d = true.
Proof.
  unfold filtered_edges. rewrite list_elem_of_fmap. split.
  - intros ([[u' v'] d] & [= -> ->] & Hin). apply list_elem_of_filter in Hin as [Hw Hin].
    exists d. split; [done|]. by apply Is_true_true.
  - intros (d & Hin & Hw). exists (u, v, d). split; [done|].
    apply list_elem_of_filter. split; [by apply Is_true_true | done].
Qed.

Lemma elem_of_enumerate_all_cliques g c :
  c ∈ enumerate_all_cliques g ↔
  c `sublist_of` NX.nodes g ∧ c ≠ [] ∧ is_clique g c = true.
Proof.
  unfold enumerate_all_cliques, cliques_of_size. rewrite list_elem_of_bind. split.
  - intros (k & Hc & Hk). apply elem_of_seq in Hk.
    apply list_elem_of_filter in Hc as [Hcl Hc]. apply elem_of_combinations in Hc as [Hsub Hlen].
    repeat split; [done | | by apply Is_true_true].
    intros ->. simpl in Hlen. lia.
  - intros (Hsub & Hne & Hcl). exists (length c). split.
    + apply list_elem_of_filter. split; [by apply Is_true_true|].
      by apply elem_of_combinations.
    + apply elem_of_seq. apply sublist_length in Hsub. destruct c; [done | simpl in *; lia].
Qed.

Lemma elem_of_clique_simplices g thr dim sigma :
  sigma ∈ clique_simplices g thr dim ↔
  ∃ c, sigma = sorted c ∧ c `sublist_of` NX.nodes g ∧ Z.of_nat (length c) = dim + 1
       ∧ c ≠ [] ∧ is_clique g c = true ∧ edges_ok g thr c = true.
Proof.
  unfold clique_simplices. rewrite list_elem_of_fmap. split.
  - intros (c & -> & Hc). exists c.
    apply list_elem_of_filter in Hc as [Hok Hc]. apply list_elem_of_filter in Hc as [Hlen Hc].
    apply elem_of_enumerate_all_cliques in Hc as (Hsub & Hne & Hcl).
    apply Is_true_true in Hok. done.
  - intros (c & -> & Hsub & Hlen & Hne & Hcl & Hok). exists c. split; [done|].
    apply list_elem_of_filter. split; [by apply Is_true_true|].
    apply list_elem_of_filter. split; [done|].
    by apply elem_of_enumerate_all_cliques.
Qed.

Lemma sorted_Permutation l : sorted l ≡ₚ l.
Proof. apply merge_sort_Permutation. Qed.

Lemma sorted_StronglySorted l : StronglySorted Z.le (sorted l).
Proof. apply (StronglySorted_merge_sort Z.le). Qed.

Lemma edge_meets_sym g thr u v :
  NX.wf_graph g = true → edge_meets g thr u v → edge_meets g thr v u.
Proof. intros Hwf (d & Hd & Hw). exists d. split; [by apply edge_data_sym | done]. Qed.

Lemma edges_ok_spec g thr c :
  edges_ok g thr c = true ↔ ∀ u v, (u, v) ∈ pairs c → edge_meets g thr u v.
Proof.
  unfold edges_ok. rewrite forallb_forall. split.
  - intros Hall u v Hin. apply list_elem_of_In, Hall in Hin. simpl in Hin.
    apply andb_true_iff in Hin as [_ Hin]. unfold edge_meets.
    destruct (NX.edge_data g u v) as [d|]; [by exists d | done].
  - intros Hall [u v] Hin. apply list_elem_of_In, Hall in Hin as (d & Hd & Hw). simpl.
    unfold NX.has_edge. by rewrite Hd.
Qed.

Lemma is_clique_spec g c :
  is_clique g c = true ↔ ∀ u v, (u, v) ∈ pairs c → NX.has_edge g u v = true.
Proof.
  unfold is_clique. rewrite forallb_forall. split.
  - intros Hall u v Hin. by apply list_elem_of_In, Hall in Hin.
  - intros Hall [u v] Hin. by apply list_elem_of_In, Hall in Hin.
Qed.

End ComplexFacts.

Section FaceClosure.
Import Sheaf.
Implicit Types (g : NX.Graph) (sigma tau : simplex).

(** The vertices of a clique that belong to [tau], listed in node order,
    form a clique again, and one that meets the threshold if the larger
    one does. *)
Lemma clique_restrict g thr c tau :
  NX.wf_graph g = true →
  c `sublist_of` NX.nodes g → is_clique g c = true → edges_ok g thr c = true →
  NoDup tau → tau ⊆ c →
  let c' := filter (λ v, v ∈ tau) (NX.nodes g) in
  c' `sublist_of` NX.nodes g ∧ c' ≡ₚ tau ∧ is_clique g c' = true ∧ edges_ok g thr c' = true.
Proof.
  intros Hwf Hsub Hcl Hok Hnd Hincl c'.
  pose proof (wf_graph_nodes g Hwf) as Hnodes.
  assert (c' `sublist_of` NX.nodes g) as Hsub' by apply sublist_filter.
  assert (NoDup c') as Hnd' by (by eapply sublist_NoDup).
  assert (∀ x, x ∈ c' ↔ x ∈ tau) as Hiff.
  { intros x. subst c'. rewrite list_elem_of_filter. split; [tauto|].
    intros Hx. split; [done|]. eapply elem_of_sublist; [|exact Hsub]. by apply Hincl. }
  assert (∀ u v, (u, v) ∈ pairs c' → (u, v) ∈ pairs c ∨ (v, u) ∈ pairs c) as Hpairs.
  { intros u v Huv. pose proof (pairs_distinct _ _ _ Hnd' Huv) as Hne.
    apply pairs_elem_of in Huv as [Hu Hv]. apply Hiff in Hu, Hv.
    apply pairs_total; [by apply Hincl | by apply Hincl | done]. }
  repeat split; [done | by apply NoDup_Permutation | |].
  - apply is_clique_spec. intros u v Huv. rewrite is_clique_spec in Hcl.
    destruct (Hpairs u v Huv) as [H|H]; [by apply Hcl|].
    apply has_edge_sym; [done|]. by apply Hcl.
  - apply edges_ok_spec. intros u v Huv. rewrite edges_ok_spec in Hok.
    destruct (Hpairs u v Huv) as [H|H]; [by apply Hok|].
    apply edge_meets_sym; [done|]. by apply Hok.
Qed.

(** The faces of a clique simplex of dimension three or more are clique
    simplices of the dimension below. *)
Lemma clique_faces_stored g thr (k : Z) sigma tau :
  NX.wf_graph g = true → 3 ≤ k →
  sigma ∈ clique_simplices g thr k →
  NoDup tau → tau ⊆ sigma → Z.of_nat (length tau) = k →
  ∃ tau', tau' ∈ clique_simplices g thr (k - 1) ∧ tau' ≡ₚ tau.
Proof.
  intros Hwf Hk (c & -> & Hsub & Hlc & Hne & Hcl & Hok)%elem_of_clique_simplices
    Hnd Hincl Hlen.
  assert (tau ⊆ c) as Hincl'.
  { intros x Hx. apply Hincl in Hx. by rewrite sorted_Permutation in Hx. }
  destruct (clique_restrict g thr c tau Hwf Hsub Hcl Hok Hnd Hincl')
    as (Hsub' & Hperm & Hcl' & Hok').
  exists (sorted (filter (λ v, v ∈ tau) (NX.nodes g))).
  split; [|by rewrite sorted_Permutation].
  apply elem_of_clique_simplices. eexists. split; [done|].
  split; [done|]. split; [rewrite Hperm; lia|].
  split; [|done]. intros Hnil. rewrite Hnil in Hperm.
  apply Permutation_nil_l in Hperm. rewrite <-Hperm in Hlen. simpl in Hlen. lia.
Qed.

(** The faces of a 2-simplex are edges that met the threshold, stored in
    the direction in which networkx reports them. *)
Lemma triangle_faces_stored g thr sigma tau :
  NX.wf_graph g = true →
  sigma ∈ clique_simplices g thr 2 →
  NoDup tau → tau ⊆ sigma → length tau = 2%nat →
  ∃ tau', tau' ∈ (λ e : Z * Z, [e.1; e.2]) <$> filtered_edges g thr ∧ tau' ≡ₚ tau.
Proof.
  intros Hwf (c & -> & Hsub & Hlc & Hne & Hcl & Hok)%elem_of_clique_simplices
    Hnd Hincl Hlen.
  assert (tau ⊆ c) as Hincl'.
  { intros x Hx. apply Hincl in Hx. by rewrite sorted_Permutation in Hx. }
  destruct tau as [|a [|b [|? ?]]]; simpl in Hlen; try lia.
  apply NoDup_cons in Hnd as [Hab _]. rewrite list_elem_of_singleton in Hab.
  assert (edge_meets g thr a b) as (d & Hd & Hw).
  { rewrite edges_ok_spec in Hok.
    destruct (pairs_total c a b) as [H|H]; [set_solver.. | done | by apply Hok |].
    apply edge_meets_sym; [done|]. by apply Hok. }
  destruct (edges_complete g a b d Hwf Hd) as [He|He].
  - exists [a; b]. split; [|done].
    apply list_elem_of_fmap. exists (a, b). split; [done|].
    apply elem_of_filtered_edges. by exists d.
  - exists [b; a]. split; [|apply perm_swap].
    apply list_elem_of_fmap. exists (b, a). split; [done|].
    apply elem_of_filtered_edges. by exists d.
Qed.

(** The faces of a stored edge are its endpoints, which are nodes. *)
Lemma edge_faces_stored g thr sigma tau :
  NX.wf_graph g = true →
  sigma ∈ (λ e : Z * Z, [e.1; e.2]) <$> filtered_edges g thr →
  tau ⊆ sigma → length tau = 1%nat →
  tau ∈ (λ v, [v]) <$> NX.nodes g.
Proof.
  intros Hwf ([u v] & -> & Huv)%list_elem_of_fmap Hincl Hlen. simpl in *.
  apply elem_of_filtered_edges in Huv as (d & Hin & _).
  apply edges_sound in Hin; [|done].
  destruct tau as [|a [|? ?]]; simpl in Hlen; try lia.
  apply list_elem_of_fmap. exists a. split; [done|].
  assert (a ∈ [u; v]) as Ha by set_solver.
  rewrite !elem_of_cons, elem_of_nil in Ha. destruct Ha as [->|[->|[]]].
  - by eapply edge_data_node_l.
  - by eapply edge_data_node_r.
Qed.

(** C8. The complex [build_complex_from_graph] returns on a fresh sheaf is
    closed under faces: for a simplex [sigma] stored in dimension [k > 0],
    every set [tau] of [k] distinct vertices of [sigma] (a face of dimension
    [k - 1]) is the vertex set of a simplex [tau'] stored in dimension
    [k - 1]. *)
Theorem build_complex_face_closed (max_dim : Z) g (threshold : Q) (k : Z)
    (l : list simplex) sigma tau :
  NX.wf_graph g = true →
  complex (build_complex_from_graph (init max_dim) g threshold) !! k = Some l →
  sigma ∈ l →
  0 < k →
  NoDup tau → tau ⊆ sigma → Z.of_nat (length tau) = k →
  ∃ l' tau',
    complex (build_complex_from_graph (init max_dim) g threshold) !! (k - 1) = Some l'
    ∧ tau' ∈ l' ∧ tau' ≡ₚ tau.
Proof.
  intros Hwf Hl Hsigma Hk Hnd Hincl Hlen. simpl in *.
  rewrite build_complex_lookup in Hl. rewrite build_complex_lookup.
  destruct (decide (2 ≤ k ≤ max_dim)) as [Hhigh|Hlow].
  - (* a clique simplex *)
    injection Hl as <-. destruct (decide (k = 2)) as [->|Hk3].
    + (* its faces are edges *)
      rewrite decide_False by lia. rewrite decide_True by lia.
      destruct (triangle_faces_stored g threshold sigma tau) as (tau' & Hin & Hperm);
        [done.. | lia |].
      by exists ((λ e : Z * Z, [e.1; e.2]) <$> filtered_edges g threshold), tau'.
    + (* its faces are clique simplices of the dimension below *)
      rewrite decide_True by lia.
      destruct (clique_faces_stored g threshold k sigma tau) as (tau' & Hin & Hperm);
        [done | lia | done..|].
      by exists (clique_simplices g threshold (k - 1)), tau'.
  - destruct (decide (k = 1)) as [->|Hk1]; [|destruct (decide (k = 0)); [lia | done]].
    (* an edge: its faces are its endpoints *)
    rewrite decide_False by lia. rewrite decide_False by lia. rewrite decide_True by lia.
    injection Hl as <-. exists ((λ v, [v]) <$> NX.nodes g), tau. split; [done|].
    split; [|done]. eapply edge_faces_stored; [done.. | lia].
Qed.

Lemma build_complex_face_closed_witness :
  ∃ l' tau',
    complex (build_complex_from_graph (init 2) triangle_graph 0) !! (2 - 1) = Some l'
    ∧ tau' ∈ l' ∧ tau' ≡ₚ [2; 0].
Proof.
  apply (build_complex_face_closed 2 triangle_graph 0 2 [[0; 1; 2]] [0; 1; 2] [2; 0]).
  - vm_compute. reflexivity.
  - vm_compute. reflexivity.
  - set_solver.
  - lia.
  - repeat constructor; set_solver.
  - set_solver.
  - reflexivity.
Defined.

End FaceClosure.

(** ** Concrete graphs behave as networkx reports them *)

Example triangle_graph_edges :
  fst <$> NX.edges triangle_graph = [(0, 1); (0, 2); (1, 2)].
Proof. vm_compute. reflexivity. Qed.

Example triangle_from_2_edges :
  fst <$> NX.edges triangle_from_2 = [(2, 0); (2, 1); (0, 1)].
Proof. vm_compute. reflexivity. Qed.

Example square_graph_edges :
  fst <$> NX.edges square_graph = [(0, 1); (0, 3); (1, 2); (2, 3)].
Proof. vm_compute. reflexivity. Qed.

Example concrete_graphs_wf :
  forallb NX.wf_graph
    [triangle_graph; triangle_from_2; edge_2_0; isolated_vertex; square_graph;
     weighted_triangle; weighted_triangle_cut] = true.
Proof. vm_compute. reflexivity. Qed.

Example weighted_triangle_cut_edges :
  fst <$> NX.edges weighted_triangle_cut = [(0, 1); (1, 2)].
Proof. vm_compute. reflexivity. Qed.

(** ** Stored order of simplices and the coboundary composition *)

Section StoredOrder.
Import Sheaf.

(** Simplices of dimension two and more are stored sorted: the clique branch
    of the builder calls [sorted] on each of them. *)
Lemma clique_simplex_sorted (max_dim : Z) (g : NX.Graph) (threshold : Q) (k : Z)
    (l : list simplex) (sigma : simplex) :
  2 ≤ k →
  complex (build_complex_from_graph (init max_dim) g threshold) !! k = Some l →
  sigma ∈ l →
  StronglySorted Z.le sigma ∧ sorted sigma = sigma.
Proof.
  intros Hk Hl Hsigma. simpl in Hl. rewrite build_complex_lookup in Hl.
  destruct (decide (2 ≤ k ≤ max_dim)) as [_|_].
  - injection Hl as <-. apply list_elem_of_fmap in Hsigma as (c & -> & _).
    split; [apply sorted_StronglySorted|].
    apply (StronglySorted_unique Z.le).
    + apply sorted_StronglySorted.
    + apply sorted_StronglySorted.
    + apply sorted_Permutation.
  - rewrite decide_False in Hl by lia. rewrite decide_False in Hl by lia. done.
Qed.

(** C7. The graph with the single edge entered as (2,0): its 1-simplex is
    stored as [2; 0], the order in which networkx reports the edge, and not
    in the sorted order [0; 2] that the clique branch would store. *)
Theorem edge_simplex_stored_unsorted :
  complex (build_complex_from_graph (init 2) edge_2_0 0) !! 1 = Some [[2; 0]]
  ∧ sorted [2; 0] = [0; 2]
  ∧ NX.wf_graph edge_2_0 = true.
Proof. repeat split; vm_compute; reflexivity. Qed.

(** C1. The triangle whose edge (2,0) was entered first, with [max_dim = 2]:
    the product of the coboundary matrices of dimensions 1 and 0 has the
    row [0; -2; 2]; it is not the zero matrix. *)
Theorem coboundary_composition_nonzero :
  (d0 ← compute_coboundary_matrix (build_complex_from_graph (init 2) triangle_from_2 0) 0;
   d1 ← compute_coboundary_matrix (build_complex_from_graph (init 2) triangle_from_2 0) 1;
   Ok (todense d0, todense d1, matmul d1 d0, is_zero_matrix (matmul d1 d0)))
  = Ok ([[1; -1; 0]; [1; 0; -1]; [0; 1; -1]], [[1; -1; -1]], [[0; -2; 2]], false).
Proof. vm_compute. reflexivity. Qed.

(** On the test fixture, where networkx happens to report every edge in
    ascending order, the composition vanishes. *)
Example coboundary_composition_fixture :
  (d0 ← compute_coboundary_matrix (build_complex_from_graph (init 2) triangle_graph 0) 0;
   d1 ← compute_coboundary_matrix (build_complex_from_graph (init 2) triangle_graph 0) 1;
   Ok (matmul d1 d0))
  = Ok [[0; 0; 0]].
Proof. vm_compute. reflexivity. Qed.

End StoredOrder.

(** ** Queries on a sheaf that was not fitted *)

Section NotFitted.
Import Sheaf.
Context (np_linalg_norm : list Q → Q)
        (gd_persistence : SimplexTree → list (Z * (Q * ext))).

(** C9. On a sheaf on which nothing was computed, [compute_persistent_cohomology]
    and [compute_pcr_score] raise their [ValueError], while
    [get_risk_classes] has no such guard and fails with the
    [AttributeError] of the missing attribute [persistence_intervals]. *)
Theorem unfitted_queries (max_simplex_dim : Z) (param : string) (vertex : Z)
    (persistence_weight norm_weight threshold : Q) :
  compute_persistent_cohomology gd_persistence (init max_simplex_dim) param
    = Err (ValueError "Build complex first using build_complex_from_graph()")
  ∧ compute_pcr_score np_linalg_norm (init max_simplex_dim) vertex
      persistence_weight norm_weight
    = Err (ValueError "Compute persistent cohomology first")
  ∧ get_risk_classes np_linalg_norm (init max_simplex_dim) threshold
    = Err (AttributeError "persistence_intervals").
Proof. done. Qed.

(** The same holds in every state without persistence intervals, for
    instance after the complex was built and the sheaf data attached. *)
Lemma get_risk_classes_without_intervals (s : FinancialSheaf) (threshold : Q) :
  persistence_intervals s = None →
  get_risk_classes np_linalg_norm s threshold = Err (AttributeError "persistence_intervals").
Proof. intros Hnone. unfold get_risk_classes. by rewrite Hnone. Qed.

End NotFitted.

(** ** Degenerate coboundary shapes in [compute_cohomology] *)

Section Degenerate.
Import Sheaf.
Context (svds_factors : csr_matrix → Z → ndarray * list Q * ndarray)
        (linalg_qr : ndarray → result (ndarray * ndarray))
        (np_linalg_qr : ndarray → ndarray * ndarray).

(** C6. On the graph with one vertex and no edge the coboundary matrix of
    dimension 0 has shape (0, 1): no row and one column. The kernel is then
    the whole cochain space, but [compute_cohomology(0)] takes the SVD branch
    with [k = min(0, 1) - 1 = -1] and [svds] raises [ValueError]. *)
Theorem compute_cohomology_zero_rows :
  (shape <$> compute_coboundary_matrix (build_complex_from_graph (init 2) isolated_vertex 0) 0)
    = Ok (0%nat, 1%nat)
  ∧ compute_cohomology svds_factors linalg_qr np_linalg_qr
      (build_complex_from_graph (init 2) isolated_vertex 0) 0
    = Err (ValueError "`k` must be an integer satisfying `0 < k < min(A.shape)`.").
Proof. split; vm_compute; reflexivity. Qed.

(** Whatever the dimension and the complex: a coboundary matrix with no row
    and at least one column never yields a result. *)
Lemma compute_cohomology_zero_rows_fails (s : FinancialSheaf) (dim : Z) (delta : csr_matrix) :
  compute_coboundary_matrix s dim = Ok delta →
  (shape delta).1 = 0%nat → (0 < (shape delta).2)%nat →
  is_ok (compute_cohomology svds_factors linalg_qr np_linalg_qr s dim) = false.
Proof.
  intros Hdelta Hrows Hcols. unfold compute_cohomology.
  destruct (if decide (dim = 0) then Ok None
            else Some <$> compute_coboundary_matrix s (dim - 1)) as [dp|e]; [|done].
  cbn. rewrite Hdelta. cbn.
  destruct (match dp with
            | Some dp0 => qr ← linalg_qr (csr_todense dp0); Ok (Some qr.1)
            | None => Ok None
            end) as [im|e]; [|done].
  cbn. rewrite decide_True by done. unfold svds.
  rewrite bool_decide_eq_false_2; [done|]. rewrite Hrows. simpl. lia.
Qed.

(** The zero-column case is handled: on the empty graph [compute_cohomology(0)]
    returns the identity basis of dimension zero. *)
Example compute_cohomology_zero_columns :
  compute_cohomology svds_factors linalg_qr np_linalg_qr
    (build_complex_from_graph (init 2) [] 0) 0
  = Ok {| dimension := 0; basis := eye 0; kernel_dim := 0; image_dim := 0;
          cohomology_dim := 0 |}.
Proof. vm_compute. reflexivity. Qed.

End Degenerate.

(** ** Maximum and loops *)

Section LoopFacts.

Lemma maxQ_elem_of (x : Q) (l : list Q) : maxQ x l ∈ x :: l.
Proof.
  revert x. induction l as [|y l IH]; intros x; simpl; [set_solver|].
  unfold maxQ in *. simpl. destruct (Qlt_le_dec x y).
  - right. apply IH.
  - specialize (IH x). set_solver.
Qed.

Lemma maxQ_ge_init (x : Q) (l : list Q) : (x <= maxQ x l)%Q.
Proof.
  revert x. induction l as [|y l IH]; intros x; unfold maxQ in *; simpl.
  - apply Qle_refl.
  - destruct (Qlt_le_dec x y) as [Hlt|Hle]; [|apply IH].
    eapply Qle_trans; [apply Qlt_le_weak, Hlt | apply IH].
Qed.

Lemma maxQ_upper_bound (x : Q) (l : list Q) (y : Q) :
  y ∈ x :: l → (y <= maxQ x l)%Q.
Proof.
  revert x. induction l as [|z l IH]; intros x Hy.
  - apply list_elem_of_singleton in Hy as ->. apply Qle_refl.
  - unfold maxQ in *. simpl. apply elem_of_cons in Hy as [->|Hy].
    + destruct (Qlt_le_dec x z) as [Hlt|Hle]; [|apply maxQ_ge_init].
      eapply Qle_trans; [apply Qlt_le_weak, Hlt | apply maxQ_ge_init].
    + destruct (Qlt_le_dec x z) as [Hlt|Hle].
      * by apply IH.
      * apply elem_of_cons in Hy as [->|Hy].
        -- eapply Qle_trans; [exact Hle | apply maxQ_ge_init].
        -- apply IH. by right.
Qed.

(** A loop whose body leaves the accumulator alone returns it. *)
Lemma for_each_skip {A S} (f : S → A → result S) (l : list A) (acc : S) :
  (∀ x, x ∈ l → f acc x = Ok acc) → for_each f l acc = Ok acc.
Proof.
  induction l as [|x l IH]; intros Hskip; simpl; [done|].
  rewrite Hskip by set_solver. simpl. apply IH. intros y Hy. apply Hskip. by right.
Qed.

Lemma for_each_ext {A S} (f h : S → A → result S) (l : list A) (acc : S) :
  (∀ a x, x ∈ l → f a x = h a x) → for_each f l acc = for_each h l acc.
Proof.
  revert acc. induction l as [|x l IH]; intros acc Hext; simpl; [done|].
  rewrite Hext by set_solver. destruct (h acc x) as [acc'|e]; simpl; [|done].
  apply IH. intros a y Hy. apply Hext. by right.
Qed.

Lemma mapM_result_ext {A B} (f h : A → result B) (l : list A) :
  (∀ x, x ∈ l → f x = h x) → mapM f l = mapM h l.
Proof.
  induction l as [|x l IH]; intros Hext; simpl; [done|].
  rewrite Hext by set_solver. rewrite IH; [done|]. intros y Hy. apply Hext. by right.
Qed.

End LoopFacts.

(** ** Filtration values handed to the persistence engine *)

Section Filtration.
Import Sheaf.
Implicit Types (s : FinancialSheaf) (g : NX.Graph) (sigma : simplex).

Lemma elem_of_edge_filtrations g (param : string) sigma (f : Q) :
  f ∈ edge_filtrations g param sigma ↔
  ∃ u v d, (u, v) ∈ pairs sigma ∧ NX.edge_data g u v = Some d ∧ f = attr_or_one param d.
Proof.
  unfold edge_filtrations. rewrite list_elem_of_omap. split.
  - intros ([u v] & Hin & Hf). simpl in Hf. exists u, v.
    unfold NX.has_edge in Hf. destruct (NX.edge_data g u v) as [d|]; [|done].
    exists d. simpl in Hf. by simplify_eq.
  - intros (u & v & d & Hin & Hd & ->). exists (u, v). split; [done|]. simpl.
    unfold NX.has_edge. by rewrite Hd.
Qed.

Lemma elem_of_higher_inserts s g (param : string) sigma (f : Q) :
  (sigma, f) ∈ higher_inserts s g param ↔
  ∃ dim l f0 fs, 2 ≤ dim ≤ max_dim s ∧ complex s !! dim = Some l ∧ sigma ∈ l
    ∧ edge_filtrations g param sigma = f0 :: fs ∧ f = maxQ f0 fs.
Proof.
  unfold higher_inserts. rewrite list_elem_of_bind. split.
  - intros (dim & Hin & Hdim). apply elem_of_py_range in Hdim.
    apply list_elem_of_bind in Hin as (sigma' & Hin & Hsigma).
    destruct (complex s !! dim) as [l|] eqn:Hl; simpl in Hsigma; [|by apply elem_of_nil in Hsigma].
    destruct (edge_filtrations g param sigma') as [|f0 fs] eqn:Hf; [by apply elem_of_nil in Hin|].
    apply list_elem_of_singleton in Hin. simplify_eq.
    exists dim, l, f0, fs. repeat split; [lia.. | done | done | done].
  - intros (dim & l & f0 & fs & Hdim & Hl & Hsigma & Hf & ->).
    exists dim. split; [|apply elem_of_py_range; lia].
    apply list_elem_of_bind. exists sigma. rewrite Hl. split; [|done].
    rewrite Hf. by apply list_elem_of_singleton.
Qed.

(** C4, as the code has it. A simplex of dimension 2 to [max_dim] of the
    stored complex is inserted with the maximum of the filtration values of
    those of its pairwise edges that the graph has; edges the graph lacks
    are skipped, and the simplex is left out only when the graph has none
    of its pairwise edges. *)
Theorem higher_simplex_filtration s g (param : string) (dim : Z)
    (l : list simplex) sigma :
  2 ≤ dim ≤ max_dim s → complex s !! dim = Some l → sigma ∈ l →
  match edge_filtrations g param sigma with
  | [] => ∀ f, (sigma, f) ∉ higher_inserts s g param
  | f0 :: fs =>
      (sigma, maxQ f0 fs) ∈ higher_inserts s g param
      ∧ (∀ f, (sigma, f) ∈ higher_inserts s g param → f = maxQ f0 fs)
      ∧ (∃ u v d, (u, v) ∈ pairs sigma ∧ NX.edge_data g u v = Some d
                  ∧ maxQ f0 fs = attr_or_one param d)
      ∧ (∀ u v d, (u, v) ∈ pairs sigma → NX.edge_data g u v = Some d →
                  (attr_or_one param d <= maxQ f0 fs)%Q)
  end.
Proof.
  intros Hdim Hl Hsigma.
  destruct (edge_filtrations g param sigma) as [|f0 fs] eqn:Hf.
  - intros f (? & ? & ? & ? & _ & _ & _ & Hf' & _)%elem_of_higher_inserts. congruence.
  - split; [|split; [|split]].
    + apply elem_of_higher_inserts. by exists dim, l, f0, fs.
    + intros f (? & ? & ? & ? & _ & _ & _ & Hf' & ->)%elem_of_higher_inserts. congruence.
    + apply elem_of_edge_filtrations. rewrite Hf. apply maxQ_elem_of.
    + intros u v d Hin Hd. apply maxQ_upper_bound. rewrite <-Hf.
      apply elem_of_edge_filtrations. by exists u, v, d.
Qed.

Lemma higher_simplex_filtration_witness :
  match edge_filtrations weighted_triangle "weight" [0; 1; 2] with
  | [] => ∀ f, ([0; 1; 2], f) ∉
        higher_inserts (build_complex_from_graph (init 2) weighted_triangle 0)
          weighted_triangle "weight"
  | f0 :: fs =>
      ([0; 1; 2], maxQ f0 fs) ∈
        higher_inserts (build_complex_from_graph (init 2) weighted_triangle 0)
          weighted_triangle "weight"
      ∧ (∀ f, ([0; 1; 2], f) ∈
           higher_inserts (build_complex_from_graph (init 2) weighted_triangle 0)
             weighted_triangle "weight" → f = maxQ f0 fs)
      ∧ (∃ u v d, (u, v) ∈ pairs [0; 1; 2] ∧ NX.edge_data weighted_triangle u v = Some d
                  ∧ maxQ f0 fs = attr_or_one "weight" d)
      ∧ (∀ u v d, (u, v) ∈ pairs [0; 1; 2] → NX.edge_data weighted_triangle u v = Some d →
                  (attr_or_one "weight" d <= maxQ f0 fs)%Q)
  end.
Proof.
  apply (higher_simplex_filtration
           (build_complex_from_graph (init 2) weighted_triangle 0)
           weighted_triangle "weight" 2 [[0; 1; 2]] [0; 1; 2]).
  - simpl. lia.
  - vm_compute. reflexivity.
  - set_solver.
Defined.

(** The triangle with weights 1, 2, 3, built with all three edges, after the
    caller removed the edge (0,2) from the graph object the sheaf refers to:
    the 2-simplex [0; 1; 2] has a pairwise edge missing from the graph and
    is inserted all the same, with the maximum 2 of the two edges left. *)
Lemma simplex_with_missing_edge_inserted :
  complex (graph_mutated_by_caller
             (build_complex_from_graph (init 2) weighted_triangle 0)
             weighted_triangle_cut) !! 2 = Some [[0; 1; 2]]
  ∧ graph (graph_mutated_by_caller
             (build_complex_from_graph (init 2) weighted_triangle 0)
             weighted_triangle_cut) = Some weighted_triangle_cut
  ∧ NX.has_edge weighted_triangle_cut 0 2 = false
  ∧ higher_inserts
      (graph_mutated_by_caller
         (build_complex_from_graph (init 2) weighted_triangle 0) weighted_triangle_cut)
      weighted_triangle_cut "weight" = [([0; 1; 2], 2%Q)].
Proof. repeat split; vm_compute; reflexivity. Qed.

(** For a complex built from the graph the sheaf still holds, every pairwise
    edge of a clique simplex is in the graph, so none is skipped. *)
Lemma built_simplex_edges_present (md : Z) g (thr : Q) (param : string) (dim : Z)
    (l : list simplex) sigma :
  NX.wf_graph g = true →
  2 ≤ dim →
  complex (build_complex_from_graph (init md) g thr) !! dim = Some l → sigma ∈ l →
  (∀ u v, (u, v) ∈ pairs sigma → NX.has_edge g u v = true)
  ∧ length (edge_filtrations g param sigma) = length (pairs sigma).
Proof.
  intros Hwf Hdim Hl Hsigma. simpl in Hl. rewrite build_complex_lookup in Hl.
  destruct (decide (2 ≤ dim ≤ md)) as [_|_];
    [|rewrite !decide_False in Hl by lia; done].
  injection Hl as <-.
  apply elem_of_clique_simplices in Hsigma as (c & -> & Hsub & _ & _ & Hcl & _).
  assert (NoDup (sorted c)) as Hnd.
  { rewrite sorted_Permutation. eapply sublist_NoDup; [|exact Hsub]. by apply wf_graph_nodes. }
  assert (∀ u v, (u, v) ∈ pairs (sorted c) → NX.has_edge g u v = true) as Hall.
  { intros u v Huv. pose proof (pairs_distinct _ _ _ Hnd Huv) as Hne.
    apply pairs_elem_of in Huv as [Hu Hv]. rewrite sorted_Permutation in Hu, Hv.
    rewrite is_clique_spec in Hcl.
    destruct (pairs_total c u v Hu Hv Hne) as [H|H]; [by apply Hcl|].
    apply has_edge_sym; [done|]. by apply Hcl. }
  split; [done|]. unfold edge_filtrations.
  induction (pairs (sorted c)) as [|[u v] ps IH]; simpl; [done|].
  assert (NX.has_edge g u v = true) as He by (apply Hall; set_solver).
  rewrite He. apply has_edge_true in He as [d Hd]. rewrite Hd. simpl.
  f_equal. apply IH. intros u' v' Hin. apply Hall. by right.
Qed.

End Filtration.

(** ** Missing attributes and missing features *)

Section MissingData.
Import Sheaf.
Context (np_linalg_norm : list Q → Q)
        (gd_persistence : SimplexTree → list (Z * (Q * ext))).
Implicit Types (s : FinancialSheaf) (g : NX.Graph).

Lemma neighbors_of_node g vertex :
  vertex ∈ NX.nodes g →
  ∃ nb, NX.dict_get vertex g = Some nb ∧ NX.neighbors g vertex = Ok nb.*1
        ∧ ∀ n, n ∈ nb.*1 → is_Some (NX.edge_data g vertex n).
Proof.
  intros [nb Hnb]%dict_get_is_Some. exists nb. unfold NX.neighbors, NX.edge_data.
  rewrite Hnb. repeat split. intros n Hn. simpl. by apply dict_get_is_Some.
Qed.


End MissingData.



(** ** [PCRScorer.fit] *)

Section Fit.
Import Sheaf.
Context (np_linalg_norm : list Q → Q)
        (gd_persistence : SimplexTree → list (Z * (Q * ext))).

Lemma fit_complex (sc : Scorer.PCRScorer) (g : NX.Graph)
    (vf : gmap Z vfeat) (ef : gmap (Z * Z) Q) (rf : option (vfeat → Q → result Q)) :
  ∃ sc', Scorer.fit np_linalg_norm gd_persistence sc g vf ef rf = Ok sc'
    ∧ complex (Scorer.sheaf sc')
      = complex (build_complex_from_graph (Scorer.sheaf sc) g 0).
Proof. eexists. split; [reflexivity | done]. Qed.


End Fit.


(** ** The cocycle-norm estimate and the normalised scores *)

Section Scores.
Import Sheaf.
Context (np_linalg_norm : list Q → Q).

(** The estimate never calls the restriction function: attaching another one
    changes nothing. *)
Lemma estimate_ignores_restriction (s : FinancialSheaf)
    (vf : gmap Z vfeat) (ef : gmap (Z * Z) Q) (rf1 rf2 : option (vfeat → Q → result Q))
    (vertex : Z) (birth : Q) (death : ext) :
  _estimate_cocycle_norm np_linalg_norm (define_sheaf_data np_linalg_norm s vf ef rf1)
    vertex birth death
  = _estimate_cocycle_norm np_linalg_norm (define_sheaf_data np_linalg_norm s vf ef rf2)
    vertex birth death.
Proof. reflexivity. Qed.

(** The scores read the norm only at the arrays stored as vertex features,
    and never read the restriction function. *)
Lemma estimate_ext (norm1 norm2 : list Q → Q) (s1 s2 : FinancialSheaf)
    (vertex : Z) (birth : Q) (death : ext) :
  same_data s1 s2 →
  (∀ vf xs, vertex_features s1 = Some vf → vf !! vertex = Some (VArray xs) →
            norm1 xs = norm2 xs) →
  _estimate_cocycle_norm norm1 s1 vertex birth death
  = _estimate_cocycle_norm norm2 s2 vertex birth death.
Proof.
  intros (Hg & Hvf & Hef & _) Hnorm. unfold _estimate_cocycle_norm.
  rewrite <-Hg, <-Hvf, <-Hef.
  destruct (graph s1) as [g|]; [|reflexivity]. cbn.
  destruct (NX.neighbors g vertex) as [nbrs|e]; [|reflexivity]. cbn.
  erewrite for_each_ext; [reflexivity|].
  intros acc n _. cbv beta.
  destruct (NX.edge_data g vertex n); [|reflexivity].
  destruct (vertex_features s1) as [vf|]; [|reflexivity]. cbn.
  destruct (vf !! vertex) as [v_feat|] eqn:Hv; [|reflexivity].
  destruct (edge_features s1) as [ef|]; [|reflexivity]. cbn.
  destruct (ef !! (vertex, n)); [|reflexivity].
  destruct v_feat as [x|xs|]; try reflexivity.
  unfold inconsistency_of. by rewrite (Hnorm vf xs).
Qed.

Lemma compute_pcr_score_ext (norm1 norm2 : list Q → Q) (s1 s2 : FinancialSheaf)
    (vertex : Z) (pw nw : Q) :
  same_data s1 s2 →
  (∀ vf xs, vertex_features s1 = Some vf → vf !! vertex = Some (VArray xs) →
            norm1 xs = norm2 xs) →
  compute_pcr_score norm1 s1 vertex pw nw = compute_pcr_score norm2 s2 vertex pw nw.
Proof.
  intros Hsame Hnorm. unfold compute_pcr_score.
  pose proof Hsame as (_ & _ & _ & <-).
  destruct (persistence_intervals s1) as [iv|]; [|done].
  apply for_each_ext. intros acc bd _.
  by rewrite (estimate_ext norm1 norm2 s1 s2 vertex bd.1 bd.2 Hsame Hnorm).
Qed.

Lemma compute_all_scores_ext (norm1 norm2 : list Q → Q) (sc1 sc2 : Scorer.PCRScorer)
    (pw nw : Q) :
  Scorer.graph sc1 = Scorer.graph sc2 →
  same_data (Scorer.sheaf sc1) (Scorer.sheaf sc2) →
  (∀ vertex vf xs, vertex_features (Scorer.sheaf sc1) = Some vf →
     vf !! vertex = Some (VArray xs) → norm1 xs = norm2 xs) →
  Scorer.compute_all_scores norm1 sc1 pw nw = Scorer.compute_all_scores norm2 sc2 pw nw.
Proof.
  intros Hg Hsame Hnorm. unfold Scorer.compute_all_scores, Scorer.raw_scores.
  rewrite <-Hg. destruct (Scorer.graph sc1) as [g|]; simpl; [|done].
  f_equal. apply mapM_result_ext. intros v _.
  rewrite (compute_pcr_score_ext norm1 norm2 _ (Scorer.sheaf sc2)); [done | done |].
  intros vf xs. apply Hnorm.
Qed.

(** C2. The 4-cycle with unit weights, whose one-dimensional class is
    (1, inf); vertex features 1.0 on the vertices 0 and 1, the edge feature
    3.0 under the key (0,1).
    - With a restriction function that is 0 everywhere the code's estimate
      for vertex 0 is 4 (|1 - 3| doubled), where the mean of the restriction
      function's values is 0.
    - With the default restriction the code's estimate is again 4, where the
      default restriction gives 1 - 3 = -2, doubled -4.
    - For vertex 1 the code looks the edge up under the key (1,0) only, skips
      it and returns 0, although the edge {0,1} is incident to vertex 1 and
      has a feature. *)
Theorem estimate_differs_from_restriction :
  _estimate_cocycle_norm np_linalg_norm
    (square_sheaf np_linalg_norm scalar_features (one_edge_feature 3) (Some zero_restriction))
    0 1 Inf = Ok 4%Q
  ∧ cocycle_norm_estimate_spec
      (square_sheaf np_linalg_norm scalar_features (one_edge_feature 3) (Some zero_restriction))
      "weight" 0 1 Inf = Ok 0%Q
  ∧ _estimate_cocycle_norm np_linalg_norm
      (square_sheaf np_linalg_norm scalar_features (one_edge_feature 3) None)
      0 1 Inf = Ok 4%Q
  ∧ cocycle_norm_estimate_spec
      (square_sheaf np_linalg_norm scalar_features (one_edge_feature 3) None)
      "weight" 0 1 Inf = Ok (-4)%Q
  ∧ _estimate_cocycle_norm np_linalg_norm
      (square_sheaf np_linalg_norm scalar_features (one_edge_feature 3) None)
      1 1 Inf = Ok 0%Q
  ∧ cocycle_norm_estimate_spec
      (square_sheaf np_linalg_norm scalar_features (one_edge_feature 3) None)
      "weight" 1 1 Inf = Ok (-4)%Q.
Proof. repeat split; vm_compute; reflexivity. Qed.

(** C3. The 4-cycle with unit weights fitted with the array [0.0] on vertex
    0 and the edge feature 10.0 under the key (0,1), scored with the default
    weights 1.0 and 0.5. The estimate for vertex 0 is (0 - 10) doubled, its
    raw score 1 + 0.5 * (-20) = -9, the other raw scores are 1; the maximum
    is 1, and the normalised score of vertex 0 is -9, below 0. *)
Theorem scores_leave_unit_interval :
  np_linalg_norm [0%Q] = 0%Q →
  Scorer.compute_all_scores np_linalg_norm
    (square_scorer np_linalg_norm zero_array_feature (one_edge_feature 10) None)
    DEFAULT_PERSISTENCE_WEIGHT DEFAULT_NORM_WEIGHT
  = Ok [(0, (-36 # 4)%Q); (1, (4 # 4)%Q); (2, (4 # 4)%Q); (3, (4 # 4)%Q)].
Proof.
  intros Hnorm.
  rewrite (compute_all_scores_ext np_linalg_norm norm_l1 _
             (square_scorer norm_l1 zero_array_feature (one_edge_feature 10) None)).
  - vm_compute. reflexivity.
  - reflexivity.
  - repeat split.
  - intros vertex vf xs [= <-] Hlook. unfold zero_array_feature in Hlook.
    apply lookup_singleton_Some in Hlook as [_ [= <-]]. by rewrite Hnorm.
Qed.

(** With a negative persistence weight every raw score is negative, the
    maximum is not positive, and the scores are returned as they are. *)
Lemma scores_negative_weight :
  Scorer.compute_all_scores np_linalg_norm
    (square_scorer np_linalg_norm scalar_features (one_edge_feature 3) None) (-1) 0
  = Ok [(0, (-1)%Q); (1, (-1)%Q); (2, (-1)%Q); (3, (-1)%Q)].
Proof. vm_compute. reflexivity. Qed.

End Scores.

Lemma scores_leave_unit_interval_witness :
  Scorer.compute_all_scores norm_l1
    (square_scorer norm_l1 zero_array_feature (one_edge_feature 10) None)
    Sheaf.DEFAULT_PERSISTENCE_WEIGHT Sheaf.DEFAULT_NORM_WEIGHT
  = Ok [(0, (-36 # 4)%Q); (1, (4 # 4)%Q); (2, (4 # 4)%Q); (3, (4 # 4)%Q)].
Proof. apply (scores_leave_unit_interval norm_l1). reflexivity. Defined.

(** ** Normalisation of scores that are not negative *)

Section Normalisation.
Import Sheaf.





End Normalisation.

(** ** No simplex is stored twice *)

Section Dedup.
Import Sheaf.
Implicit Types (g : NX.Graph).

Lemma sublist_same_elements {A} (l c1 c2 : list A) :
  NoDup l → c1 `sublist_of` l → c2 `sublist_of` l →
  (∀ x, x ∈ c1 ↔ x ∈ c2) → c1 = c2.
Proof.
  intros Hnd. revert c1 c2. induction Hnd as [|x l Hx Hnd IH]; intros c1 c2 H1 H2 Hiff.
  - apply sublist_nil_r in H1, H2. by subst.
  - apply sublist_cons_r in H1 as [H1|(c1' & -> & H1)];
      apply sublist_cons_r in H2 as [H2|(c2' & -> & H2)].
    + by apply IH.
    + exfalso. apply Hx. eapply elem_of_sublist; [|exact H1]. apply Hiff. by left.
    + exfalso. apply Hx. eapply elem_of_sublist; [|exact H2]. apply Hiff. by left.
    + f_equal. apply IH; [done..|]. intros y.
      assert (∀ c, c `sublist_of` l → y ∈ c → y ≠ x) as Hne.
      { intros c Hc Hy ->. apply Hx. by eapply elem_of_sublist. }
      split; intros Hy.
      * assert (y ∈ x :: c2') as Hy' by (apply Hiff; by right).
        apply elem_of_cons in Hy' as [->|Hy']; [|done]. by destruct (Hne c1' H1 Hy).
      * assert (y ∈ x :: c1') as Hy' by (apply Hiff; by right).
        apply elem_of_cons in Hy' as [->|Hy']; [|done]. by destruct (Hne c2' H2 Hy).
Qed.

Lemma combinations_NoDup {A} (k : nat) (l : list A) :
  NoDup l → NoDup (combinations k l).
Proof.
  intros Hnd. revert k. induction Hnd as [|x l Hx Hnd IH]; intros k.
  - destruct k; simpl; [apply NoDup_singleton | apply NoDup_nil_2].
  - destruct k; simpl; [apply NoDup_singleton|].
    apply NoDup_app. split; [|split].
    + apply NoDup_fmap_2; [|apply IH]. by intros ?? [= ->].
    + intros c (c' & -> & _)%list_elem_of_fmap [Hsub _]%elem_of_combinations.
      apply Hx. eapply elem_of_sublist; [|exact Hsub]. by left.
    + apply IH.
Qed.

Lemma enumerate_all_cliques_NoDup g :
  NoDup (NX.nodes g) → NoDup (enumerate_all_cliques g).
Proof.
  intros Hnd. unfold enumerate_all_cliques.
  apply NoDup_bind.
  - intros k1 k2 c _ _ [_ Hc1%elem_of_combinations]%list_elem_of_filter
      [_ Hc2%elem_of_combinations]%list_elem_of_filter. lia.
  - intros k _. apply NoDup_filter. by apply combinations_NoDup.
  - apply NoDup_seq.
Qed.

Lemma clique_simplices_NoDup g thr dim :
  NoDup (NX.nodes g) → NoDup (sorted <$> clique_simplices g thr dim).
Proof.
  intros Hnd. unfold clique_simplices.
  assert (∀ l, sorted (sorted l) = sorted l) as Hidem.
  { intros l. apply (StronglySorted_unique Z.le); try apply sorted_StronglySorted.
    apply sorted_Permutation. }
  rewrite <-list_fmap_compose. erewrite list_fmap_ext; [|intros ? c _; apply Hidem].
  apply NoDup_fmap_2_strong.
  - intros c1 c2 Hc1 Hc2 Heq.
    apply list_elem_of_filter in Hc1 as [_ Hc1]. apply list_elem_of_filter in Hc1 as [_ Hc1].
    apply list_elem_of_filter in Hc2 as [_ Hc2]. apply list_elem_of_filter in Hc2 as [_ Hc2].
    apply elem_of_enumerate_all_cliques in Hc1 as [Hc1 _], Hc2 as [Hc2 _].
    apply (sublist_same_elements (NX.nodes g)); [done..|].
    intros x. rewrite <-(sorted_Permutation c1), <-(sorted_Permutation c2). by rewrite Heq.
  - do 2 apply NoDup_filter. by apply enumerate_all_cliques_NoDup.
Qed.

Lemma sorted_pair_inv (a b c d : Z) :
  sorted [a; b] = sorted [c; d] → (a = c ∧ b = d) ∨ (a = d ∧ b = c).
Proof.
  intros Heq. assert ([a; b] ≡ₚ [c; d]) as Hperm.
  { by rewrite <-(sorted_Permutation [a; b]), Heq, sorted_Permutation. }
  by apply Permutation_length_2 in Hperm.
Qed.

Lemma edges_from_distinct seen g :
  NoDup g.*1 → (∀ u nb, (u, nb) ∈ g → NoDup nb.*1) →
  NoDup ((λ e : Z * Z * NX.Attrs, sorted [e.1.1; e.1.2]) <$> NX.edges_from seen g).
Proof.
  revert seen. induction g as [|[n nb] g IH]; intros seen Hnd Hnb; simpl; [constructor|].
  apply NoDup_cons in Hnd as [Hn Hnd]. rewrite fmap_app. apply NoDup_app. split; [|split].
  - rewrite <-list_fmap_compose. apply NoDup_fmap_2_strong.
    + intros [v d] [v' d'] [_ Hv]%list_elem_of_filter [_ Hv']%list_elem_of_filter Heq.
      simpl in Heq. assert (v = v') as <-.
      { apply sorted_pair_inv in Heq as [[_ ?]|[<- <-]]; done. }
      f_equal. eapply (dict_values_agree nb); [|done..]. apply (Hnb n). by left.
    + apply NoDup_filter. eapply NoDup_fmap_1. apply (Hnb n nb). by left.
  - intros x Hx1 Hx2.
    apply list_elem_of_fmap in Hx1 as (e1 & -> & Hin1).
    apply list_elem_of_fmap in Hin1 as ([v d] & -> & _).
    apply list_elem_of_fmap in Hx2 as ([[n2 v2] d2] & Heq & Hin2). simpl in Heq.
    apply elem_of_edges_from in Hin2 as (g1 & nb2 & g2 & -> & _ & Hseen & _).
    assert (n2 ≠ n) as Hne1.
    { intros ->. apply Hn. apply list_elem_of_fmap. exists (n, nb2). set_solver. }
    assert (v2 ≠ n) as Hne2 by set_solver.
    apply sorted_pair_inv in Heq as [[? _]|[? _]]; congruence.
  - apply IH; [done|]. intros u nb' Hin. apply (Hnb u). by right.
Qed.

Lemma edge_simplices_distinct g thr :
  NX.wf_graph g = true →
  NoDup (sorted <$> ((λ e : Z * Z, [e.1; e.2]) <$> filtered_edges g thr)).
Proof.
  intros Hwf. unfold filtered_edges. rewrite <-!list_fmap_compose.
  eapply sublist_NoDup; [|apply fmap_sublist, sublist_filter].
  apply (edges_from_distinct [] g); [by apply wf_graph_nodes|].
  intros u nb Hin. by apply (wf_graph_adj g u nb).
Qed.

(** The simplices stored in one dimension have pairwise distinct sorted
    vertex lists: nodes are distinct, networkx reports an edge once, and
    every clique is enumerated once. *)
Theorem stored_simplices_distinct (max_dim : Z) g (threshold : Q) (k : Z) (l : list simplex) :
  NX.wf_graph g = true →
  complex (build_complex_from_graph (init max_dim) g threshold) !! k = Some l →
  NoDup (sorted <$> l).
Proof.
  intros Hwf Hl. pose proof (wf_graph_nodes g Hwf) as Hnd.
  simpl in Hl. rewrite build_complex_lookup in Hl.
  destruct (decide (2 ≤ k ≤ max_dim)) as [_|_]; [|destruct (decide (k = 1)) as [_|_];
    [|destruct (decide (k = 0)) as [_|_]; [|done]]]; injection Hl as <-.
  - by apply clique_simplices_NoDup.
  - by apply edge_simplices_distinct.
  - rewrite <-list_fmap_compose. apply NoDup_fmap_2; [|done].
    intros u v Heq. simpl in Heq.
    assert ([u] ≡ₚ [v]) as Hperm by (by rewrite <-(sorted_Permutation [u]), Heq, sorted_Permutation).
    by apply Permutation_singleton_inj in Hperm.
Qed.

Lemma stored_simplices_distinct_witness :
  NoDup (sorted <$> [[2; 0]; [2; 1]; [0; 1]]).
Proof.
  apply (stored_simplices_distinct 2 triangle_from_2 0 1 [[2; 0]; [2; 1]; [0; 1]]).
  - vm_compute. reflexivity.
  - vm_compute. reflexivity.
Defined.

End Dedup.

(** ** The composition of consecutive coboundary matrices

    [delta ∘ delta = 0] holds for the complexes the builder stores sorted;
    the proof follows the textbook argument: an entry of the product sums
    over the two faces between a simplex and a face of codimension two, and
    the two signs are opposite. *)

Section Positions.
Import Sheaf.
Implicit Types (l sigma tau rho : list Z) (x a b : Z).

Lemma index_pos x l : x ∈ l → index x l = Ok (position x l).
Proof.
  induction l as [|y l IH]; [by rewrite elem_of_nil|].
  rewrite elem_of_cons. intros Hx. simpl. destruct (decide (y = x)) as [|Hne]; [done|].
  rewrite IH; [done|]. by destruct Hx.
Qed.

Lemma sum_list_Permutation (l1 l2 : list nat) : l1 ≡ₚ l2 → sum_list l1 = sum_list l2.
Proof. induction 1; simpl; lia. Qed.

Lemma sign_exp_Permutation sigma tau1 tau2 :
  tau1 ≡ₚ tau2 → sign_exp sigma tau1 = sign_exp sigma tau2.
Proof. intros Hp. unfold sign_exp. apply sum_list_Permutation. by rewrite Hp. Qed.

Lemma del_notin x l : x ∉ l → del x l = l.
Proof.
  intros Hx. unfold del. induction l as [|y l IH]; [done|].
  rewrite filter_cons_True by set_solver. f_equal. apply IH. set_solver.
Qed.

Lemma del_cons_eq x l : del x (x :: l) = del x l.
Proof. unfold del. by rewrite filter_cons_False by (intros H; by apply H). Qed.

Lemma del_cons_ne x y l : y ≠ x → del x (y :: l) = y :: del x l.
Proof. intros Hne. unfold del. by rewrite filter_cons_True. Qed.

Lemma elem_of_del x y l : y ∈ del x l ↔ y ∈ l ∧ y ≠ x.
Proof. unfold del. rewrite list_elem_of_filter. tauto. Qed.

Lemma del_Permutation x l : NoDup l → x ∈ l → l ≡ₚ x :: del x l.
Proof.
  induction l as [|y l IH]; [by rewrite elem_of_nil|].
  rewrite NoDup_cons, elem_of_cons. intros [Hy Hnd] Hx.
  destruct (decide (y = x)) as [->|Hne].
  - by rewrite del_cons_eq, del_notin.
  - rewrite del_cons_ne by done. destruct Hx as [->|Hx]; [done|].
    rewrite (IH Hnd Hx) at 1. apply perm_swap.
Qed.

Lemma del_length x l : NoDup l → x ∈ l → S (length (del x l)) = length l.
Proof. intros Hnd Hx. by rewrite (del_Permutation x l Hnd Hx) at 2. Qed.

Lemma del_NoDup x l : NoDup l → NoDup (del x l).
Proof. apply NoDup_filter. Qed.

Lemma del_sorted x l : StronglySorted Z.le l → StronglySorted Z.le (del x l).
Proof.
  induction 1 as [|y l Hs IH Hall]; [constructor|].
  destruct (decide (y = x)) as [->|Hne].
  - by rewrite del_cons_eq.
  - rewrite del_cons_ne by done. constructor; [done|].
    apply Forall_forall. intros z [Hz _]%elem_of_del.
    by eapply Forall_forall in Hall.
Qed.

(** The positions of the vertices of a simplex add up to a number that
    depends on its size only. *)
Lemma sum_list_cons (n : nat) (k : list nat) : sum_list (n :: k) = (n + sum_list k)%nat.
Proof. reflexivity. Qed.

Lemma sign_exp_cons y l k :
  y ∉ k → sign_exp (y :: l) k = (length k + sign_exp l k)%nat.
Proof.
  unfold sign_exp. induction k as [|v k IHk]; intros Hy; [done|].
  rewrite !fmap_cons, !sum_list_cons, IHk by set_solver.
  cbn [position length]. rewrite decide_False by set_solver. lia.
Qed.

Lemma sign_exp_self l : NoDup l → sign_exp l l = triangular (length l).
Proof.
  induction l as [|y l IH]; [done|].
  rewrite NoDup_cons. intros [Hy Hnd].
  unfold sign_exp. rewrite fmap_cons, sum_list_cons.
  change (sum_list ((λ v, position v (y :: l)) <$> l)) with (sign_exp (y :: l) l).
  rewrite sign_exp_cons, IH by done. cbn [position length triangular].
  rewrite decide_True by done. lia.
Qed.

Lemma sign_exp_del sigma tau x :
  NoDup sigma → x ∈ sigma → tau ≡ₚ del x sigma →
  (sign_exp sigma tau + position x sigma = triangular (length sigma))%nat.
Proof.
  intros Hnd Hx Hp. rewrite (sign_exp_Permutation _ _ _ Hp).
  rewrite <-(sign_exp_self sigma Hnd).
  rewrite (sign_exp_Permutation sigma sigma (x :: del x sigma)) by by apply del_Permutation.
  unfold sign_exp. rewrite fmap_cons, sum_list_cons. lia.
Qed.

Lemma pos_del a b l :
  NoDup l → a ∈ l → b ∈ l → a ≠ b →
  (position b (del a l) + (if decide (position a l < position b l)%nat then 1 else 0) = position b l)%nat.
Proof.
  induction l as [|y l IH]; [by rewrite elem_of_nil|].
  rewrite NoDup_cons, !elem_of_cons. intros [Hy Hnd] Ha Hb Hne. simpl.
  destruct (decide (y = a)) as [->|Hya].
  - rewrite del_cons_eq, del_notin by done.
    destruct (decide (a = b)) as [|_]; [done|].
    destruct (decide (0 < S (position b l))%nat); lia.
  - rewrite del_cons_ne by done. cbn [position].
    destruct (decide (y = b)) as [->|Hyb].
    + destruct (decide (S (position a l) < 0)%nat); lia.
    + destruct Ha as [->|Ha]; [done|]. destruct Hb as [->|Hb]; [done|].
      specialize (IH Hnd Ha Hb Hne).
      destruct (decide (position a l < position b l)%nat),
        (decide (S (position a l) < S (position b l))%nat); lia.
Qed.

Lemma pos_inj a b l : a ∈ l → b ∈ l → position a l = position b l → a = b.
Proof.
  induction l as [|y l IH]; [by rewrite elem_of_nil|].
  rewrite !elem_of_cons. cbn [position]. intros Ha Hb.
  destruct (decide (y = a)) as [Hya|Hya], (decide (y = b)) as [Hyb|Hyb];
    [congruence | discriminate | discriminate |].
  intros [= Heq]. destruct Ha as [->|Ha]; [done|]. destruct Hb as [->|Hb]; [done|]. auto.
Qed.

(** Deleting [a] then [b], or [b] then [a]: the two position sums differ by one. *)
Lemma pos_del_swap a b l :
  NoDup l → a ∈ l → b ∈ l → a ≠ b →
  (position a l + position b (del a l) = S (position b l + position a (del b l))
   ∨ position b l + position a (del b l) = S (position a l + position b (del a l)))%nat.
Proof.
  intros Hnd Ha Hb Hne.
  pose proof (pos_del a b l Hnd Ha Hb Hne) as H1.
  pose proof (pos_del b a l Hnd Hb Ha (not_eq_sym Hne)) as H2.
  assert (position a l ≠ position b l) as Hpos by (intros H; by apply Hne, (pos_inj a b l)).
  destruct (decide (position a l < position b l)%nat), (decide (position b l < position a l)%nat); lia.
Qed.

Lemma pow_opposite (m n : nat) :
  (m = S n ∨ n = S m) → (-1) ^ Z.of_nat m + (-1) ^ Z.of_nat n = 0.
Proof.
  intros [-> | ->]; rewrite Nat2Z.inj_succ, Z.pow_succ_r by lia; lia.
Qed.

End Positions.

Section Core.
Import Sheaf.
Implicit Types (l sigma tau rho : list Z) (x a b : Z).

Lemma sumZ_zero {A} (f : A → Z) (l : list A) :
  (∀ z, z ∈ l → f z = 0) → sumZ (f <$> l) = 0.
Proof.
  induction l as [|y l IH]; intros Hz; [done|].
  rewrite fmap_cons. unfold sumZ in *. cbn [foldr].
  rewrite IH by (intros z Hin; apply Hz; by right). rewrite Hz by (by left). done.
Qed.

Lemma sumZ_one {A} (f : A → Z) (l : list A) (x : A) :
  NoDup l → x ∈ l → (∀ z, z ∈ l → z ≠ x → f z = 0) → sumZ (f <$> l) = f x.
Proof.
  induction l as [|y l IH]; [by rewrite elem_of_nil|].
  rewrite NoDup_cons, elem_of_cons. intros [Hy Hnd] Hx Hz.
  rewrite fmap_cons. unfold sumZ in *. cbn [foldr].
  destruct Hx as [->|Hx].
  - change (foldr Z.add 0 (f <$> l)) with (sumZ (f <$> l)). rewrite sumZ_zero; [lia|].
    intros z Hin. apply Hz; [by right|]. by intros ->.
  - rewrite IH; [|done..|intros z Hin; apply Hz; by right].
    rewrite Hz; [lia | by left | by intros ->].
Qed.

Lemma sumZ_two {A} (f : A → Z) (l : list A) (x y : A) :
  NoDup l → x ∈ l → y ∈ l → x ≠ y →
  (∀ z, z ∈ l → z ≠ x → z ≠ y → f z = 0) → sumZ (f <$> l) = f x + f y.
Proof.
  induction l as [|w l IH]; [by rewrite elem_of_nil|].
  rewrite NoDup_cons, !elem_of_cons. intros [Hw Hnd] Hx Hy Hne Hz.
  rewrite fmap_cons. unfold sumZ in *. cbn [foldr].
  change (foldr Z.add 0 (f <$> l)) with (sumZ (f <$> l)).
  destruct Hx as [->|Hx]; [|destruct Hy as [->|Hy]].
  - destruct Hy as [->|Hy]; [done|]. rewrite (sumZ_one f l y); [done..|].
    intros z Hin Hzy. apply Hz; [by right | by intros -> | done].
  - rewrite (sumZ_one f l x); [lia | done..|].
    intros z Hin Hzx. apply Hz; [by right | done | by intros ->].
  - unfold sumZ. rewrite IH; [|done..|intros z Hin; apply Hz; by right].
    rewrite Hz; [lia | by left | by intros -> | by intros ->].
Qed.

Lemma issubset_spec tau sigma : issubset tau sigma = true ↔ tau ⊆ sigma.
Proof.
  unfold issubset. rewrite forallb_forall. split.
  - intros Hall x Hx. apply list_elem_of_In, Hall in Hx. by apply bool_decide_eq_true in Hx.
  - intros Hsub x Hx. apply bool_decide_eq_true, Hsub. by apply list_elem_of_In.
Qed.

Lemma cob_entry_subset sigma tau : tau ⊆ sigma → cob_entry sigma tau = sign sigma tau.
Proof. intros Hsub%issubset_spec. unfold cob_entry. by rewrite Hsub. Qed.

Lemma cob_entry_not_subset sigma tau : ¬ tau ⊆ sigma → cob_entry sigma tau = 0.
Proof.
  intros Hsub. unfold cob_entry. destruct (issubset tau sigma) eqn:Hs; [|done].
  by apply issubset_spec in Hs.
Qed.

(** A sorted face with one vertex less is the simplex with one vertex deleted. *)
Lemma face_is_del sigma tau :
  NoDup sigma → StronglySorted Z.le sigma → NoDup tau → StronglySorted Z.le tau →
  tau ⊆ sigma → length sigma = S (length tau) →
  ∃ x, x ∈ sigma ∧ (x ∉ tau) ∧ tau = del x sigma.
Proof.
  intros Hnd Hs Hndt Hst Hsub Hlen.
  destruct (decide (Forall (λ x, x ∈ tau) sigma)) as [Hall|Hex].
  - rewrite Forall_forall in Hall.
    pose proof (submseteq_length _ _ (NoDup_submseteq _ _ Hnd Hall)). lia.
  - apply not_Forall_Exists in Hex; [|apply _]. apply Exists_exists in Hex as (x & Hx & Hxt).
    exists x. split; [done|]. split; [done|].
    apply (StronglySorted_unique Z.le); [done | by apply del_sorted |].
    apply submseteq_length_Permutation.
    + apply NoDup_submseteq; [done|]. intros y Hy. apply elem_of_del. split; [by apply Hsub|].
      by intros ->.
    + pose proof (del_length x sigma Hnd Hx). lia.
Qed.

Lemma signs_cancel sigma rho a b :
  NoDup sigma → NoDup rho → length sigma = S (S (length rho)) →
  a ∈ sigma → b ∈ sigma → a ≠ b → rho ⊆ sigma → a ∉ rho → b ∉ rho →
  sign sigma (del a sigma) * sign (del a sigma) rho
  + sign sigma (del b sigma) * sign (del b sigma) rho = 0.
Proof.
  intros Hnd Hndr Hlen Ha Hb Hne Hsub Har Hbr.
  assert (∀ x y, x ∈ sigma → y ∈ sigma → x ≠ y → x ∉ rho → y ∉ rho →
            rho ≡ₚ del y (del x sigma)) as Hperm.
  { intros x y Hx Hy Hxy Hxr Hyr. apply submseteq_length_Permutation.
    - apply NoDup_submseteq; [done|]. intros z Hz. rewrite !elem_of_del.
      repeat split; [by apply Hsub | by intros -> | by intros ->].
    - assert (y ∈ del x sigma) as Hy' by (by apply elem_of_del).
      pose proof (del_length x sigma Hnd Hx).
      pose proof (del_length y (del x sigma) (del_NoDup _ _ Hnd) Hy'). lia. }
  assert (b ∈ del a sigma) as Hb' by (by apply elem_of_del).
  assert (a ∈ del b sigma) as Ha' by (by apply elem_of_del).
  pose proof (sign_exp_del sigma (del a sigma) a Hnd Ha (reflexivity _)) as E1a.
  pose proof (sign_exp_del sigma (del b sigma) b Hnd Hb (reflexivity _)) as E1b.
  pose proof (sign_exp_del (del a sigma) rho b (del_NoDup _ _ Hnd) Hb'
                (Hperm a b Ha Hb Hne Har Hbr)) as E2a.
  pose proof (sign_exp_del (del b sigma) rho a (del_NoDup _ _ Hnd) Ha'
                (Hperm b a Hb Ha (not_eq_sym Hne) Hbr Har)) as E2b.
  pose proof (del_length a sigma Hnd Ha) as La.
  pose proof (del_length b sigma Hnd Hb) as Lb.
  assert (length (del a sigma) = length (del b sigma)) as Hl by lia.
  rewrite Hl in E2a.
  unfold sign. rewrite <-!Z.pow_add_r, <-!Nat2Z.inj_add by lia.
  apply pow_opposite.
  destruct (pos_del_swap a b sigma Hnd Ha Hb Hne); lia.
Qed.

(** One entry of the product of two consecutive coboundary matrices. *)
Lemma composition_entry_zero (P1 : list (list Z)) sigma rho :
  NoDup sigma → StronglySorted Z.le sigma →
  NoDup rho → length sigma = S (S (length rho)) →
  NoDup P1 →
  (∀ tau, tau ∈ P1 → NoDup tau ∧ StronglySorted Z.le tau ∧ length sigma = S (length tau)) →
  (∀ x, x ∈ sigma → del x sigma ∈ P1) →
  sumZ ((λ tau, cob_entry sigma tau * cob_entry tau rho) <$> P1) = 0.
Proof.
  intros Hnd Hs Hndr Hlen HndP HP Hface.
  destruct (decide (rho ⊆ sigma)) as [Hsub|Hnsub].
  - (* the two vertices of sigma that rho lacks *)
    assert (length (filter (λ x, x ∉ rho) sigma) = 2%nat) as HD.
    { pose proof (filter_app_complement (λ x, x ∈ rho) sigma) as Hc.
      apply Permutation_length in Hc. rewrite length_app in Hc.
      assert (filter (λ x, x ∈ rho) sigma ≡ₚ rho) as Hr.
      { apply NoDup_Permutation; [by apply NoDup_filter | done |].
        intros x. rewrite list_elem_of_filter. split; [tauto|]. intros Hx. split; [done|].
        by apply Hsub. }
      rewrite Hr in Hc. lia. }
    destruct (filter (λ x, x ∉ rho) sigma) as [|a [|b [|? ?]]] eqn:HDeq; try done.
    assert (∀ x, x ∈ sigma → x ∉ rho → x = a ∨ x = b) as Hab.
    { intros x Hx Hxr. assert (x ∈ [a; b]) as Hin.
      { rewrite <-HDeq. by apply list_elem_of_filter. }
      set_solver. }
    assert (a ∈ sigma ∧ a ∉ rho) as [Ha Har].
    { assert (a ∈ filter (λ x, x ∉ rho) sigma) as Hin by (rewrite HDeq; by left).
      apply list_elem_of_filter in Hin. tauto. }
    assert (b ∈ sigma ∧ b ∉ rho) as [Hb Hbr].
    { assert (b ∈ filter (λ x, x ∉ rho) sigma) as Hin by (rewrite HDeq; set_solver).
      apply list_elem_of_filter in Hin. tauto. }
    assert (a ≠ b) as Hne.
    { assert (NoDup [a; b]) as Hnab by (rewrite <-HDeq; by apply NoDup_filter).
      apply NoDup_cons in Hnab as [Hnab _]. set_solver. }
    rewrite (sumZ_two _ P1 (del a sigma) (del b sigma)); [|done|by apply Hface..| |].
    + rewrite !cob_entry_subset.
      * by apply signs_cancel.
      * intros x Hx. apply elem_of_del. split; [by apply Hsub | by intros ->].
      * intros x [Hx _]%elem_of_del. done.
      * intros x Hx. apply elem_of_del. split; [by apply Hsub | by intros ->].
      * intros x [Hx _]%elem_of_del. done.
    + intros Heq. assert (b ∈ del a sigma) as Hin by (by apply elem_of_del).
      rewrite Heq in Hin. apply elem_of_del in Hin as [_ Hin]. done.
    + intros tau Htau Hna Hnb.
      destruct (decide (tau ⊆ sigma)) as [Hts|Hts];
        [|by rewrite (cob_entry_not_subset sigma tau)].
      destruct (decide (rho ⊆ tau)) as [Hrt|Hrt];
        [|rewrite (cob_entry_not_subset tau rho) by done; lia].
      exfalso. destruct (HP tau Htau) as (Hndt & Hst & Hlt).
      destruct (face_is_del sigma tau Hnd Hs Hndt Hst Hts Hlt) as (x & Hx & Hxt & ->).
      destruct (Hab x Hx) as [-> | ->]; [|done..].
      intros Hxr. by apply Hxt, Hrt.
  - apply sumZ_zero. intros tau _.
    destruct (decide (tau ⊆ sigma)) as [Hts|Hts];
      [|by rewrite (cob_entry_not_subset sigma tau)].
    rewrite (cob_entry_not_subset tau rho); [lia|].
    intros Hrt. apply Hnsub. intros x Hx. by apply Hts, Hrt.
Qed.

End Core.

Section Entries.
Import Sheaf.
Implicit Types (rhos taus sigmas : list simplex) (sigma tau rho : simplex).

Lemma mapM_result_Ok {A B} (f : A → result B) (h : A → B) (l : list A) :
  (∀ x, x ∈ l → f x = Ok (h x)) → mapM f l = Ok (h <$> l).
Proof.
  induction l as [|x l IH]; intros Hf; simpl; [done|].
  rewrite Hf by (by left). rewrite IH by (intros y Hy; apply Hf; by right). done.
Qed.

Lemma orientation_sign_Ok sigma tau :
  tau ⊆ sigma → _orientation_sign sigma tau = Ok (sign sigma tau).
Proof.
  intros Hsub. unfold _orientation_sign.
  rewrite (mapM_result_Ok _ (λ v, position v sigma)); [done|].
  intros v Hv. by apply index_pos, Hsub.
Qed.

Lemma coboundary_triples_Ok rhos taus :
  coboundary_triples rhos taus
  = Ok (mjoin ((λ js, mjoin (cell js <$> enumerate rhos)) <$> enumerate taus)).
Proof.
  unfold coboundary_triples.
  rewrite (mapM_result_Ok _ (λ js, cell js <$> enumerate rhos)).
  - simpl. by rewrite <-list_fmap_compose.
  - intros js _. apply mapM_result_Ok. intros it _. unfold cell.
    destruct (issubset it.2 js.2) eqn:Hs; [|done].
    apply issubset_spec in Hs. by rewrite orientation_sign_Ok.
Qed.

Lemma sumZ_app (l1 l2 : list Z) : sumZ (l1 ++ l2) = sumZ l1 + sumZ l2.
Proof. unfold sumZ. induction l1 as [|x l1 IH]; simpl; [done|]. rewrite IH. lia. Qed.

Lemma at_position_app r c ts1 ts2 :
  at_position r c (ts1 ++ ts2) = at_position r c ts1 + at_position r c ts2.
Proof. unfold at_position. by rewrite filter_app, fmap_app, sumZ_app. Qed.

Lemma at_position_join r c (tss : list (list (nat * nat * Z))) :
  at_position r c (mjoin tss) = sumZ (at_position r c <$> tss).
Proof.
  induction tss as [|ts tss IH]; [done|].
  change (mjoin (ts :: tss)) with (ts ++ mjoin tss).
  by rewrite at_position_app, IH.
Qed.

Lemma at_position_cell r c js it :
  at_position r c (cell js it)
  = if decide (js.1 = r) then (if decide (it.1 = c) then cob_entry js.2 it.2 else 0) else 0.
Proof.
  unfold cell, cob_entry, at_position. destruct (issubset it.2 js.2).
  - destruct (decide (js.1 = r)) as [Hr|Hr], (decide (it.1 = c)) as [Hc|Hc].
    + rewrite filter_cons_True by done. simpl. lia.
    + rewrite filter_cons_False by (simpl; tauto). done.
    + rewrite filter_cons_False by (simpl; tauto). done.
    + rewrite filter_cons_False by (simpl; tauto). done.
  - by destruct (decide (js.1 = r)), (decide (it.1 = c)).
Qed.

Lemma sum_at_index {A} (F : A → Z) (l : list A) (n c : nat) :
  sumZ ((λ p : nat * A, if decide (p.1 = c) then F p.2 else 0) <$> zip (seq n (length l)) l)
  = if decide (n ≤ c)%nat then from_option F 0 (l !! (c - n)%nat) else 0.
Proof.
  revert n. induction l as [|x l IH]; intros n.
  - simpl. by destruct (decide (n ≤ c)%nat).
  - cbn [length seq zip zip_with]. rewrite fmap_cons. unfold sumZ in *. cbn [foldr].
    rewrite IH. cbn [fst snd].
    destruct (decide (n = c)) as [->|Hne].
    + rewrite decide_False by lia. rewrite decide_True by lia.
      replace (c - c)%nat with O by lia. simpl. lia.
    + destruct (decide (S n ≤ c)%nat) as [Hle|Hgt].
      * rewrite decide_True by lia. replace (c - n)%nat with (S (c - S n)) by lia. done.
      * rewrite decide_False by lia. done.
Qed.

Lemma at_position_row r c rhos js :
  at_position r c (mjoin (cell js <$> enumerate rhos))
  = if decide (js.1 = r) then from_option (cob_entry js.2) 0 (rhos !! c) else 0.
Proof.
  rewrite at_position_join, <-list_fmap_compose.
  destruct (decide (js.1 = r)) as [Hr|Hr].
  - erewrite list_fmap_ext.
    2:{ intros i it _. simpl. rewrite at_position_cell, decide_True by done. reflexivity. }
    unfold enumerate. etrans; [apply (sum_at_index (cob_entry js.2) rhos 0 c)|].
    rewrite decide_True by lia. by rewrite Nat.sub_0_r.
  - apply sumZ_zero. intros it _. simpl.
    by rewrite at_position_cell, decide_False.
Qed.

(** The entries of a coboundary matrix. *)
Lemma coboundary_entry rhos taus (data : list (nat * nat * Z)) (r c : nat) :
  coboundary_triples rhos taus = Ok data →
  at_position r c data
  = from_option (λ sigma, from_option (cob_entry sigma) 0 (rhos !! c)) 0 (taus !! r).
Proof.
  rewrite coboundary_triples_Ok. intros [= <-].
  rewrite at_position_join, <-list_fmap_compose.
  erewrite list_fmap_ext.
  2:{ intros i js _. simpl. rewrite at_position_row. reflexivity. }
  unfold enumerate.
  etrans; [apply (sum_at_index (λ sigma, from_option (cob_entry sigma) 0 (rhos !! c)) taus 0 r)|].
  rewrite decide_True by lia. by rewrite Nat.sub_0_r.
Qed.

Lemma sum_over_indices {A} (F : A → Z) (l : list A) :
  sumZ ((λ k, from_option F 0 (l !! k)) <$> seq 0 (length l)) = sumZ (F <$> l).
Proof.
  induction l as [|x l IH]; [done|].
  cbn [length seq]. rewrite <-fmap_S_seq, !fmap_cons, <-list_fmap_compose.
  unfold sumZ in *. cbn [foldr]. simpl. f_equal. exact IH.
Qed.

End Entries.

Section Composition.
Import Sheaf.
Implicit Types (g : NX.Graph) (rhos taus sigmas : list simplex) (sigma tau rho : simplex).

Lemma entry_at_position (m : csr_matrix) (r c : nat) :
  entry m r c = at_position r c (triples m).
Proof. reflexivity. Qed.

(** In a complex whose simplices of three consecutive dimensions are free
    of repeated vertices, stored once each, sorted in the upper two
    dimensions, and whose top simplices have all their faces in the middle
    dimension, the product of the two coboundary matrices is zero. *)
Lemma coboundary_composition_zero (s : FinancialSheaf) (p : Z) rhos taus sigmas (n : nat) :
  complex s !! p = Some rhos →
  complex s !! (p + 1) = Some taus →
  complex s !! (p + 1 + 1) = Some sigmas →
  (∀ rho, rho ∈ rhos → NoDup rho ∧ length rho = n) →
  NoDup taus →
  (∀ tau, tau ∈ taus → NoDup tau ∧ StronglySorted Z.le tau ∧ length tau = S n) →
  (∀ sigma, sigma ∈ sigmas →
     NoDup sigma ∧ StronglySorted Z.le sigma ∧ length sigma = S (S n)
     ∧ ∀ x, x ∈ sigma → del x sigma ∈ taus) →
  (d0 ← compute_coboundary_matrix s p;
   d1 ← compute_coboundary_matrix s (p + 1);
   Ok (is_zero_matrix (matmul d1 d0))) = Ok true.
Proof.
  intros Hr Ht Hs Hrhos Hnd Htaus Hsigmas.
  unfold compute_coboundary_matrix. rewrite Hr, Ht, Hs.
  destruct (coboundary_triples rhos taus) as [data0|] eqn:H0;
    [|by rewrite coboundary_triples_Ok in H0].
  destruct (coboundary_triples taus sigmas) as [data1|] eqn:H1;
    [|by rewrite coboundary_triples_Ok in H1].
  cbn. f_equal. unfold is_zero_matrix, matmul. cbn [shape fst snd].
  apply forallb_forall. intros row (r & -> & Hrow%elem_of_seq)%list_elem_of_In%list_elem_of_fmap.
  apply forallb_forall. intros x (c & -> & Hcol%elem_of_seq)%list_elem_of_In%list_elem_of_fmap.
  apply bool_decide_eq_true.
  destruct (lookup_lt_is_Some_2 sigmas r) as [sigma Hsigma]; [lia|].
  destruct (lookup_lt_is_Some_2 rhos c) as [rho Hrho]; [lia|].
  rewrite (list_fmap_ext _
             (λ k, from_option (λ tau, cob_entry sigma tau * cob_entry tau rho) 0 (taus !! k))).
  2:{ intros i k _.
      change (at_position r k data1 * at_position k c data0
              = from_option (λ tau, cob_entry sigma tau * cob_entry tau rho) 0 (taus !! k)).
      rewrite (coboundary_entry taus sigmas data1 r k H1).
      rewrite (coboundary_entry rhos taus data0 k c H0).
      unfold simplex in *. rewrite Hsigma, Hrho. cbn [from_option].
      destruct (taus !! k); simpl; lia. }
  rewrite sum_over_indices.
  apply list_elem_of_lookup_2 in Hsigma, Hrho.
  destruct (Hsigmas sigma Hsigma) as (Hnds & Hss & Hls & Hface).
  destruct (Hrhos rho Hrho) as (Hndr & Hlr).
  apply composition_entry_zero; try done; [lia|].
  intros tau Htau. destruct (Htaus tau Htau) as (? & ? & ?). repeat split; [done..|lia].
Qed.

End Composition.

Section BuiltComposition.
Import Sheaf.
Implicit Types (g : NX.Graph) (sigma tau rho : simplex).

Lemma stored_simplex_length (md : Z) g (thr : Q) (k : Z) (l : list simplex) sigma :
  complex (build_complex_from_graph (init md) g thr) !! k = Some l → sigma ∈ l →
  Z.of_nat (length sigma) = k + 1.
Proof.
  intros Hl Hin. simpl in Hl. rewrite build_complex_lookup in Hl.
  destruct (decide (2 ≤ k ≤ md)) as [_|_]; [|destruct (decide (k = 1)) as [->|_];
    [|destruct (decide (k = 0)) as [->|_]; [|done]]]; injection Hl as <-.
  - apply elem_of_clique_simplices in Hin as (c & -> & _ & Hlen & _).
    by rewrite (Permutation_length (sorted_Permutation c)).
  - by apply list_elem_of_fmap in Hin as (e & -> & _).
  - by apply list_elem_of_fmap in Hin as (v & -> & _).
Qed.

Lemma stored_simplex_NoDup (md : Z) g (thr : Q) (k : Z) (l : list simplex) sigma :
  NX.wf_graph g = true → (∀ u, NX.has_edge g u u = false) →
  complex (build_complex_from_graph (init md) g thr) !! k = Some l → sigma ∈ l →
  NoDup sigma.
Proof.
  intros Hwf Hloop Hl Hin. simpl in Hl. rewrite build_complex_lookup in Hl.
  destruct (decide (2 ≤ k ≤ md)) as [_|_]; [|destruct (decide (k = 1)) as [->|_];
    [|destruct (decide (k = 0)) as [->|_]; [|done]]]; injection Hl as <-.
  - apply elem_of_clique_simplices in Hin as (c & -> & Hsub & _).
    rewrite sorted_Permutation. eapply sublist_NoDup; [|exact Hsub]. by apply wf_graph_nodes.
  - apply list_elem_of_fmap in Hin as ([u v] & -> & Hin). simpl.
    apply elem_of_filtered_edges in Hin as (d & Hin & _).
    apply edges_sound in Hin; [|done].
    assert (u ≠ v) as Hne.
    { intros ->. specialize (Hloop v). unfold NX.has_edge in Hloop. by rewrite Hin in Hloop. }
    apply NoDup_cons. split; [set_solver | apply NoDup_singleton].
  - apply list_elem_of_fmap in Hin as (v & -> & _). apply NoDup_singleton.
Qed.

Lemma stored_simplex_sorted (md : Z) g (thr : Q) (k : Z) (l : list simplex) sigma :
  (k = 1 → ∀ u v d, (u, v, d) ∈ NX.edges g → u < v) →
  complex (build_complex_from_graph (init md) g thr) !! k = Some l → sigma ∈ l →
  StronglySorted Z.le sigma.
Proof.
  intros Hasc Hl Hin. simpl in Hl. rewrite build_complex_lookup in Hl.
  destruct (decide (2 ≤ k ≤ md)) as [_|_]; [|destruct (decide (k = 1)) as [->|_];
    [|destruct (decide (k = 0)) as [->|_]; [|done]]]; injection Hl as <-.
  - apply list_elem_of_fmap in Hin as (c & -> & _). apply sorted_StronglySorted.
  - apply list_elem_of_fmap in Hin as ([u v] & -> & Hin). simpl.
    apply elem_of_filtered_edges in Hin as (d & Hin & _).
    pose proof (Hasc eq_refl u v d Hin).
    repeat constructor. lia.
  - apply list_elem_of_fmap in Hin as (v & -> & _). repeat constructor.
Qed.

Lemma stored_dimension_nonneg (md : Z) g (thr : Q) (k : Z) (l : list simplex) :
  complex (build_complex_from_graph (init md) g thr) !! k = Some l → 0 ≤ k.
Proof.
  intros Hl. simpl in Hl. rewrite build_complex_lookup in Hl.
  destruct (decide (2 ≤ k ≤ md)); [lia|]. destruct (decide (k = 1)); [lia|].
  destruct (decide (k = 0)); [lia | done].
Qed.

Lemma stored_list_NoDup (md : Z) g (thr : Q) (k : Z) (l : list simplex) :
  NX.wf_graph g = true →
  complex (build_complex_from_graph (init md) g thr) !! k = Some l → NoDup l.
Proof.
  intros Hwf Hl. simpl in Hl. rewrite build_complex_lookup in Hl.
  destruct (decide (2 ≤ k ≤ md)) as [_|_]; [|destruct (decide (k = 1)) as [->|_];
    [|destruct (decide (k = 0)) as [->|_]; [|done]]]; injection Hl as <-.
  - eapply NoDup_fmap_1. apply clique_simplices_NoDup. by apply wf_graph_nodes.
  - eapply NoDup_fmap_1. by apply edge_simplices_distinct.
  - apply NoDup_fmap_2; [by intros ?? [= ->] | by apply wf_graph_nodes].
Qed.

(** When the simplices of dimension [k] are stored sorted, the faces of a
    sorted simplex of dimension [k + 1] are among them as lists. *)
Lemma stored_face_del (md : Z) g (thr : Q) (k : Z) (taus sigmas : list simplex) sigma x :
  NX.wf_graph g = true → 1 ≤ k →
  complex (build_complex_from_graph (init md) g thr) !! k = Some taus →
  complex (build_complex_from_graph (init md) g thr) !! (k + 1) = Some sigmas →
  (∀ tau, tau ∈ taus → StronglySorted Z.le tau) →
  sigma ∈ sigmas → NoDup sigma → StronglySorted Z.le sigma →
  Z.of_nat (length sigma) = k + 1 + 1 → x ∈ sigma →
  del x sigma ∈ taus.
Proof.
  intros Hwf Hk Ht Hs Hsorted Hsigma Hnd Hss Hlen Hx.
  simpl in Ht, Hs. rewrite build_complex_lookup in Ht, Hs.
  assert (del x sigma ⊆ sigma) as Hincl by (by intros y [Hy _]%elem_of_del).
  pose proof (del_length x sigma Hnd Hx) as Hdl.
  assert (∃ tau', tau' ∈ taus ∧ tau' ≡ₚ del x sigma) as (tau' & Hin & Hperm).
  { destruct (decide (2 ≤ k + 1 ≤ md)) as [Hhigh|Hlow].
    - injection Hs as <-. destruct (Z.eq_dec k 1) as [->|Hk2].
      + rewrite decide_False in Ht by lia. rewrite decide_True in Ht by done.
        injection Ht as <-.
        apply (triangle_faces_stored g thr sigma); [done.. | by apply del_NoDup | done | lia].
      + rewrite decide_True in Ht by lia. injection Ht as <-.
        replace k with (k + 1 - 1) by lia.
        apply (clique_faces_stored g thr (k + 1) sigma);
          [done | lia | done | by apply del_NoDup | done | lia].
    - rewrite !decide_False in Hs by lia. done. }
  replace (del x sigma) with tau'; [done|].
  apply (StronglySorted_unique Z.le); [by apply Hsorted | by apply del_sorted | done].
Qed.

Lemma no_self_loops_spec g u : no_self_loops g = true → NX.has_edge g u u = false.
Proof.
  unfold no_self_loops. rewrite forallb_forall. intros Hall.
  destruct (NX.has_edge g u u) eqn:He; [|done].
  apply has_edge_true in He as [d (nb & Hu & Hd)%edge_data_Some].
  apply dict_get_Some_elem_of in Hu. apply list_elem_of_In, Hall in Hu. simpl in Hu.
  apply negb_true_iff, bool_decide_eq_false in Hu. exfalso. apply Hu.
  apply dict_get_is_Some. by exists d.
Qed.

Lemma edges_ascending_spec g u v d :
  edges_ascending g = true → (u, v, d) ∈ NX.edges g → u < v.
Proof.
  unfold edges_ascending. rewrite forallb_forall. intros Hall Hin.
  apply list_elem_of_In, Hall in Hin. by apply bool_decide_eq_true in Hin.
Qed.

(** For a graph without self-loops the product of two consecutive
    coboundary matrices of the built complex is zero in every dimension
    [p >= 1]; in dimension 0 it is zero when networkx reports every edge
    with its smaller endpoint first, so that the 1-simplices are stored
    sorted. *)
Theorem built_coboundary_composition_zero (max_dim : Z) g (threshold : Q) (p : Z) :
  NX.wf_graph g = true →
  no_self_loops g = true →
  (p = 0 → edges_ascending g = true) →
  (d0 ← compute_coboundary_matrix (build_complex_from_graph (init max_dim) g threshold) p;
   d1 ← compute_coboundary_matrix (build_complex_from_graph (init max_dim) g threshold) (p + 1);
   Ok (is_zero_matrix (matmul d1 d0))) = Ok true.
Proof.
  intros Hwf Hloop' Hasc'.
  assert (∀ u, NX.has_edge g u u = false) as Hloop
    by (intros u; by apply no_self_loops_spec).
  assert (p = 0 → ∀ u v d, (u, v, d) ∈ NX.edges g → u < v) as Hasc
    by (intros Hp u v d; by apply edges_ascending_spec, Hasc').
  clear Hloop' Hasc'.
  set (s := build_complex_from_graph (init max_dim) g threshold).
  destruct (complex s !! p) as [rhos|] eqn:Hr;
    [destruct (complex s !! (p + 1)) as [taus|] eqn:Ht;
      [destruct (complex s !! (p + 1 + 1)) as [sigmas|] eqn:Hs|]|].
  - pose proof (stored_dimension_nonneg _ _ _ _ _ Hr) as Hp.
    assert (∀ tau, tau ∈ taus → StronglySorted Z.le tau) as Hsorted.
    { intros tau Htau. eapply stored_simplex_sorted; [|exact Ht|done].
      intros Hp1. apply Hasc. lia. }
    apply (coboundary_composition_zero s p rhos taus sigmas (Z.to_nat (p + 1))); try done.
    + intros rho Hrho.
      split; [exact (stored_simplex_NoDup max_dim g threshold p rhos rho Hwf Hloop Hr Hrho)|].
      pose proof (stored_simplex_length _ _ _ _ _ _ Hr Hrho). lia.
    + exact (stored_list_NoDup max_dim g threshold (p + 1) taus Hwf Ht).
    + intros tau Htau.
      split; [exact (stored_simplex_NoDup max_dim g threshold _ taus tau Hwf Hloop Ht Htau)|].
      split; [by apply Hsorted|].
      pose proof (stored_simplex_length _ _ _ _ _ _ Ht Htau). lia.
    + intros sigma Hsigma.
      assert (NoDup sigma) as Hnds
        by exact (stored_simplex_NoDup max_dim g threshold _ sigmas sigma Hwf Hloop Hs Hsigma).
      assert (StronglySorted Z.le sigma) as Hss
        by (eapply stored_simplex_sorted; [|exact Hs|done]; lia).
      pose proof (stored_simplex_length _ _ _ _ _ _ Hs Hsigma) as Hls.
      split; [done|]. split; [done|]. split; [lia|].
      intros x Hx.
      apply (stored_face_del max_dim g threshold (p + 1) taus sigmas sigma x);
        try done; lia.
  - unfold compute_coboundary_matrix. rewrite Hr, Ht, Hs.
    rewrite coboundary_triples_Ok. reflexivity.
  - unfold compute_coboundary_matrix. rewrite Hr, Ht. reflexivity.
  - unfold compute_coboundary_matrix. rewrite Hr.
    destruct (complex s !! (p + 1)) as [taus|]; [|reflexivity].
    destruct (complex s !! (p + 1 + 1)) as [sigmas|]; [|reflexivity].
    rewrite coboundary_triples_Ok. cbn. f_equal.
    apply forallb_forall. by intros row (r & -> & _)%list_elem_of_In%list_elem_of_fmap.
Qed.

Lemma built_coboundary_composition_zero_witness :
  (d0 ← compute_coboundary_matrix (build_complex_from_graph (init 2) triangle_graph 0) 0;
   d1 ← compute_coboundary_matrix (build_complex_from_graph (init 2) triangle_graph 0) (0 + 1);
   Ok (is_zero_matrix (matmul d1 d0))) = Ok true.
Proof.
  apply (built_coboundary_composition_zero 2 triangle_graph 0 0).
  - vm_compute. reflexivity.
  - vm_compute. reflexivity.
  - intros _. vm_compute. reflexivity.
Defined.

End BuiltComposition.

(** ** Instances of the general statements *)

Lemma clique_simplex_sorted_witness :
  StronglySorted Z.le [0; 1; 2] ∧ sorted [0; 1; 2] = [0; 1; 2].
Proof.
  apply (clique_simplex_sorted 2 triangle_from_2 0 2 [[0; 1; 2]] [0; 1; 2]).
  - lia.
  - vm_compute. reflexivity.
  - set_solver.
Defined.

Lemma built_simplex_edges_present_witness :
  (∀ u v, (u, v) ∈ pairs [0; 1; 2] → NX.has_edge weighted_triangle u v = true)
  ∧ length (Sheaf.edge_filtrations weighted_triangle "weight" [0; 1; 2])
    = length (pairs [0; 1; 2]).
Proof.
  apply (built_simplex_edges_present 2 weighted_triangle 0 "weight" 2 [[0; 1; 2]] [0; 1; 2]).
  - vm_compute. reflexivity.
  - lia.
  - vm_compute. reflexivity.
  - set_solver.
Defined.

Lemma compute_cohomology_zero_rows_fails_witness :
  is_ok (Sheaf.compute_cohomology
           (λ _ _, (Sheaf.eye 0, [], Sheaf.eye 0)) (λ a, Ok (a, a)) (λ a, (a, a))
           (Sheaf.build_complex_from_graph (Sheaf.init 2) isolated_vertex 0) 0) = false.
Proof.
  apply (compute_cohomology_zero_rows_fails
           (λ _ _, (Sheaf.eye 0, [], Sheaf.eye 0)) (λ a, Ok (a, a)) (λ a, (a, a))
           (Sheaf.build_complex_from_graph (Sheaf.init 2) isolated_vertex 0) 0
           {| Sheaf.shape := (0%nat, 1%nat); Sheaf.triples := [] |}).
  - vm_compute. reflexivity.
  - reflexivity.
  - simpl. lia.
Defined.

(** The scores are the same whatever restriction function is attached. *)
Theorem scores_ignore_restriction (np_linalg_norm : list Q → Q)
    (sc1 sc2 : Scorer.PCRScorer) (persistence_weight norm_weight : Q) :
  Scorer.graph sc1 = Scorer.graph sc2 →
  Sheaf.same_data (Scorer.sheaf sc1) (Scorer.sheaf sc2) →
  Scorer.compute_all_scores np_linalg_norm sc1 persistence_weight norm_weight
  = Scorer.compute_all_scores np_linalg_norm sc2 persistence_weight norm_weight.
Proof. intros Hg Hsame. by apply compute_all_scores_ext. Qed.

Lemma scores_ignore_restriction_witness :
  Scorer.compute_all_scores norm_l1
    (square_scorer norm_l1 scalar_features (one_edge_feature 3) None) 1 (1 # 2)
  = Scorer.compute_all_scores norm_l1
      (square_scorer norm_l1 scalar_features (one_edge_feature 3) (Some zero_restriction))
      1 (1 # 2).
Proof.
  apply (scores_ignore_restriction norm_l1
           (square_scorer norm_l1 scalar_features (one_edge_feature 3) None)
           (square_scorer norm_l1 scalar_features (one_edge_feature 3) (Some zero_restriction))).
  - reflexivity.
  - repeat split.
Defined.

(** ** Entries and signs of the coboundary matrices *)

Section CoboundaryEntries.
Import Sheaf.
Implicit Types (s : FinancialSheaf) (g : NX.Graph) (sigma tau : simplex).

Lemma sign_unit sigma tau : sign sigma tau = 1 ∨ sign sigma tau = -1.
Proof.
  unfold sign. generalize (sign_exp sigma tau). intros n.
  induction n as [|n IH]; [by left|].
  rewrite Nat2Z.inj_succ, Z.pow_succ_r by lia. lia.
Qed.

Lemma cob_entry_values sigma tau :
  cob_entry sigma tau ∈ [-1; 0; 1] ∧ (cob_entry sigma tau ≠ 0 ↔ tau ⊆ sigma).
Proof.
  unfold cob_entry. destruct (issubset tau sigma) eqn:Hs.
  - apply issubset_spec in Hs. destruct (sign_unit sigma tau) as [-> | ->].
    + split; [set_solver | done].
    + split; [set_solver | done].
  - assert (¬ tau ⊆ sigma) as Hn.
    { intros H%issubset_spec. congruence. }
    split; [set_solver | tauto].
Qed.

(** [compute_coboundary_matrix] never raises: [_orientation_sign] is only
    reached for a [tau] all of whose vertices are in [sigma]. When both
    dimensions are stored the matrix has one row per (p+1)-simplex and one
    column per p-simplex, the entry of a pair is -1, 0 or 1, and it is not 0
    exactly when every vertex of the p-simplex is a vertex of the
    (p+1)-simplex; otherwise the matrix is the empty 0 x 0 matrix. *)
Theorem coboundary_matrix_entries s (dim : Z) :
  ∃ m, compute_coboundary_matrix s dim = Ok m
    ∧ match complex s !! dim, complex s !! (dim + 1) with
      | Some p_simplices, Some p1_simplices =>
          shape m = (length p1_simplices, length p_simplices)
          ∧ (∀ j i sigma tau,
               p1_simplices !! j = Some sigma → p_simplices !! i = Some tau →
               entry m j i ∈ [-1; 0; 1] ∧ (entry m j i ≠ 0 ↔ tau ⊆ sigma))
          ∧ (∀ j i, (length p1_simplices ≤ j)%nat ∨ (length p_simplices ≤ i)%nat →
               entry m j i = 0)
      | _, _ => shape m = (0%nat, 0%nat) ∧ triples m = []
      end.
Proof.
  unfold compute_coboundary_matrix.
  destruct (complex s !! dim) as [rhos|]; [|by eexists].
  destruct (complex s !! (dim + 1)) as [taus|]; [|by eexists].
  rewrite coboundary_triples_Ok. cbn. eexists. split; [reflexivity|].
  split; [done|].
  pose proof (λ r c, coboundary_entry rhos taus _ r c (coboundary_triples_Ok rhos taus))
    as Hentry.
  split.
  - intros j i sigma tau Hj Hi. rewrite entry_at_position. cbn [triples].
    rewrite Hentry. unfold simplex in *. rewrite Hj, Hi. cbn [from_option].
    apply cob_entry_values.
  - intros j i Hout. rewrite entry_at_position. cbn [triples]. rewrite Hentry.
    unfold simplex in *.
    destruct Hout as [Hj|Hi].
    + by rewrite (lookup_ge_None_2 taus j).
    + destruct (taus !! j); [|done]. cbn [from_option].
      by rewrite (lookup_ge_None_2 rhos i).
Qed.

Lemma index_Err x l e : index x l = Err e → e = ValueError "x not in list" ∧ x ∉ l.
Proof.
  induction l as [|y l IH]; simpl.
  - intros [= <-]. split; [done | set_solver].
  - destruct (decide (y = x)) as [->|Hne]; [done|].
    destruct (index x l) as [i|e'] eqn:Hi; [done|]. cbn. intros [= <-].
    destruct (IH eq_refl) as [-> Hnot]. split; [done|]. set_solver.
Qed.

Lemma index_Ok_elem_of x l i : index x l = Ok i → x ∈ l.
Proof.
  revert i. induction l as [|y l IH]; intros i; simpl; [done|].
  destruct (decide (y = x)) as [->|Hne]; [intros _; by left|].
  destruct (index x l) as [j|e]; [|done]. intros _. right. by eapply IH.
Qed.

Lemma mapM_index_Err sigma tau :
  ¬ tau ⊆ sigma → mapM (λ v, index v sigma) tau = Err (ValueError "x not in list").
Proof.
  induction tau as [|v tau IH]; intros Hn.
  - exfalso. apply Hn. intros x Hx. by apply elem_of_nil in Hx.
  - cbn. destruct (index v sigma) as [i|e] eqn:Hi.
    + cbn. rewrite IH; [done|]. intros Hsub. apply Hn.
      intros x [->|Hx]%elem_of_cons; [by eapply index_Ok_elem_of | by apply Hsub].
    + cbn. by destruct (index_Err _ _ _ Hi) as [-> _].
Qed.

Lemma pow_m1_square (n : nat) : (-1) ^ Z.of_nat n * (-1) ^ Z.of_nat n = 1.
Proof.
  induction n as [|n IH]; [done|].
  rewrite Nat2Z.inj_succ, Z.pow_succ_r by lia. lia.
Qed.

(** [_orientation_sign sigma tau] returns 1 or -1 when every vertex of [tau]
    is in [sigma] and raises the [ValueError] of [list.index] otherwise. For
    the face that leaves out the vertex at position i of a simplex with n
    distinct vertices it is (-1)^(0 + 1 + ... + (n-1)) times the usual sign
    (-1)^i: the usual sign up to a factor that depends on the dimension
    only. *)
Theorem orientation_sign_of_face sigma tau :
  (tau ⊆ sigma →
     _orientation_sign sigma tau = Ok 1 ∨ _orientation_sign sigma tau = Ok (-1))
  ∧ (¬ tau ⊆ sigma → _orientation_sign sigma tau = Err (ValueError "x not in list"))
  ∧ (∀ x, NoDup sigma → x ∈ sigma →
       index x sigma = Ok (position x sigma)
       ∧ _orientation_sign sigma (del x sigma)
         = Ok ((-1) ^ Z.of_nat (triangular (length sigma))
               * (-1) ^ Z.of_nat (position x sigma))).
Proof.
  split; [|split].
  - intros Hsub. rewrite orientation_sign_Ok by done.
    destruct (sign_unit sigma tau) as [-> | ->]; auto.
  - intros Hn. unfold _orientation_sign. by rewrite mapM_index_Err.
  - intros x Hnd Hx. split; [by apply index_pos|].
    rewrite orientation_sign_Ok by (intros y Hy%elem_of_del; tauto).
    f_equal. unfold sign.
    rewrite <-(sign_exp_del sigma (del x sigma) x Hnd Hx) by done.
    rewrite Nat2Z.inj_add, Z.pow_add_r by lia.
    rewrite <-Z.mul_assoc, pow_m1_square. lia.
Qed.

End CoboundaryEntries.

Section Incidence.
Import Sheaf.
Implicit Types (s : FinancialSheaf) (g : NX.Graph) (sigma tau : simplex).

Lemma cob_entry_edge_vertex (u v w : Z) :
  cob_entry [u; v] [w] = if decide (w = u) then 1 else if decide (w = v) then -1 else 0.
Proof.
  unfold cob_entry, issubset, sign, sign_exp. simpl.
  destruct (decide (w = u)) as [->|Hu].
  - rewrite bool_decide_eq_true_2 by set_solver. simpl.
    by rewrite decide_True.
  - destruct (decide (w = v)) as [->|Hv].
    + rewrite bool_decide_eq_true_2 by set_solver. simpl.
      rewrite decide_False by done. by rewrite decide_True.
    + rewrite bool_decide_eq_false_2 by set_solver. done.
Qed.

(** The coboundary matrix of dimension 0 of a built complex is the signed
    incidence matrix of the edges that met the threshold: in the row of an
    edge reported as (u, v) the column of u holds 1 and the column of v
    holds -1, whatever the order of u and v, and every other column 0.
    Without self-loops every row sums to zero, so a constant 0-cochain is
    a cocycle. *)
Theorem coboundary_0_is_incidence (max_dim : Z) g (threshold : Q) :
  NX.wf_graph g = true → no_self_loops g = true →
  ∃ d0,
    compute_coboundary_matrix (build_complex_from_graph (init max_dim) g threshold) 0 = Ok d0
    ∧ shape d0 = (length (filtered_edges g threshold), length (NX.nodes g))
    ∧ (∀ j i u v w,
         filtered_edges g threshold !! j = Some (u, v) → NX.nodes g !! i = Some w →
         entry d0 j i = if decide (w = u) then 1 else if decide (w = v) then -1 else 0)
    ∧ Forall (λ row, sumZ row = 0) (todense d0).
Proof.
  intros Hwf Hloops.
  unfold compute_coboundary_matrix. cbn [complex build_complex_from_graph init].
  rewrite !build_complex_lookup.
  rewrite (decide_False (P := 2 ≤ 0 ≤ max_dim)) by lia.
  rewrite (decide_False (P := 0 = 1)) by lia.
  rewrite (decide_True (P := 0 = 0)) by lia.
  rewrite (decide_False (P := 2 ≤ 0 + 1 ≤ max_dim)) by lia.
  rewrite (decide_True (P := 0 + 1 = 1)) by lia.
  set (rhos := (λ v, [v]) <$> NX.nodes g).
  set (taus := (λ e : Z * Z, [e.1; e.2]) <$> filtered_edges g threshold).
  rewrite coboundary_triples_Ok. cbn. eexists. split; [reflexivity|].
  pose proof (λ r c, coboundary_entry rhos taus _ r c (coboundary_triples_Ok rhos taus))
    as Hentry.
  assert (∀ j i u v w,
            filtered_edges g threshold !! j = Some (u, v) → NX.nodes g !! i = Some w →
            entry {| shape := (length taus, length rhos);
                     triples := mjoin ((λ js, mjoin (cell js <$> enumerate rhos))
                                         <$> enumerate taus) |} j i
            = if decide (w = u) then 1 else if decide (w = v) then -1 else 0) as Hinc.
  { intros j i u v w Hj Hi. rewrite entry_at_position. cbn [triples]. rewrite Hentry.
    unfold taus, rhos. rewrite !list_lookup_fmap. unfold simplex in *.
    rewrite Hj, Hi. cbn. apply cob_entry_edge_vertex. }
  split; [by unfold taus, rhos; rewrite !length_fmap|]. split; [exact Hinc|].
  unfold todense. cbn [shape fst snd].
  apply Forall_forall. intros row (j & -> & Hj%elem_of_seq)%list_elem_of_fmap.
  unfold taus in Hj. rewrite length_fmap in Hj.
  destruct (lookup_lt_is_Some_2 (filtered_edges g threshold) j) as [[u v] Huv]; [lia|].
  rewrite (list_fmap_ext _
     (λ i, from_option (λ w, if decide (w = u) then 1 else if decide (w = v) then -1 else 0)
             0 (NX.nodes g !! i))).
  2:{ intros k i Hi%list_elem_of_lookup_2%elem_of_seq. unfold rhos in Hi.
      rewrite length_fmap in Hi.
      destruct (lookup_lt_is_Some_2 (NX.nodes g) i) as [w Hw]; [lia|].
      rewrite Hw. cbn [from_option]. by apply Hinc. }
  unfold rhos. rewrite length_fmap, sum_over_indices.
  apply list_elem_of_lookup_2, elem_of_filtered_edges in Huv as (d & Hin & _).
  apply edges_sound in Hin; [|done].
  assert (u ≠ v) as Hne.
  { intros ->. pose proof (no_self_loops_spec g v Hloops) as Hl.
    unfold NX.has_edge in Hl. by rewrite Hin in Hl. }
  rewrite (sumZ_two _ _ u v);
    [| by apply wf_graph_nodes | by eapply edge_data_node_l
     | by eapply edge_data_node_r | done |].
  - rewrite decide_True by done. rewrite decide_False by done.
    by rewrite decide_True.
  - intros z _ Hzu Hzv. by rewrite !decide_False.
Qed.

Lemma coboundary_0_is_incidence_witness :
  ∃ d0,
    compute_coboundary_matrix (build_complex_from_graph (init 2) triangle_from_2 0) 0 = Ok d0
    ∧ shape d0 = (length (filtered_edges triangle_from_2 0), length (NX.nodes triangle_from_2))
    ∧ (∀ j i u v w,
         filtered_edges triangle_from_2 0 !! j = Some (u, v) →
         NX.nodes triangle_from_2 !! i = Some w →
         entry d0 j i = if decide (w = u) then 1 else if decide (w = v) then -1 else 0)
    ∧ Forall (λ row, sumZ row = 0) (todense d0).
Proof.
  apply (coboundary_0_is_incidence 2 triangle_from_2 0); vm_compute; reflexivity.
Defined.

End Incidence.

(** ** Thresholds and building again *)

Section Threshold.
Import Sheaf.
Implicit Types (s : FinancialSheaf) (g : NX.Graph) (sigma tau : simplex).

Lemma filter_sublist_impl {A} (P1 P2 : A → Prop)
    `{!∀ x, Decision (P1 x)} `{!∀ x, Decision (P2 x)} (l : list A) :
  (∀ x, P2 x → P1 x) → filter P2 l `sublist_of` filter P1 l.
Proof.
  intros Himpl. induction l as [|x l IH]; [done|].
  destruct (decide (P2 x)) as [Hp2|Hp2].
  - rewrite (filter_cons_True P2) by done. rewrite (filter_cons_True P1) by auto.
    by constructor.
  - rewrite (filter_cons_False P2) by done.
    destruct (decide (P1 x)).
    + rewrite (filter_cons_True P1) by done. by constructor.
    + by rewrite (filter_cons_False P1) by done.
Qed.

Lemma weight_ok_mono (thr1 thr2 : Q) d :
  (thr1 <= thr2)%Q → weight_ok thr2 d = true → weight_ok thr1 d = true.
Proof.
  unfold weight_ok. rewrite !Qle_bool_iff. intros H1 H2. by eapply Qle_trans.
Qed.

Lemma edges_ok_mono g (thr1 thr2 : Q) c :
  (thr1 <= thr2)%Q → edges_ok g thr2 c = true → edges_ok g thr1 c = true.
Proof.
  intros Hle. unfold edges_ok. rewrite !forallb_forall.
  intros Hall e He. specialize (Hall e He).
  apply andb_true_iff in Hall as [-> Hd]. simpl.
  destruct (NX.edge_data g e.1 e.2); [|done]. by eapply weight_ok_mono.
Qed.

(** Raising the threshold only removes simplices: in every dimension the
    list stored for the larger threshold is a subsequence of the list stored
    for the smaller one. *)
Theorem build_complex_threshold_monotone (max_dim : Z) g (thr1 thr2 : Q) (k : Z)
    (l2 : list simplex) :
  (thr1 <= thr2)%Q →
  complex (build_complex_from_graph (init max_dim) g thr2) !! k = Some l2 →
  ∃ l1, complex (build_complex_from_graph (init max_dim) g thr1) !! k = Some l1
        ∧ l2 `sublist_of` l1.
Proof.
  intros Hle Hl. simpl in Hl. simpl.
  rewrite build_complex_lookup in Hl. rewrite build_complex_lookup.
  destruct (decide (2 ≤ k ≤ max_dim)) as [_|_]; [|destruct (decide (k = 1)) as [->|_];
    [|destruct (decide (k = 0)) as [->|_]; [|done]]]; injection Hl as <-;
    eexists; (split; [reflexivity|]).
  - unfold clique_simplices. apply fmap_sublist.
    apply filter_sublist_impl. intros c Hc.
    apply Is_true_true. apply Is_true_true in Hc. by eapply edges_ok_mono.
  - unfold filtered_edges. rewrite <-!list_fmap_compose. apply fmap_sublist.
    apply filter_sublist_impl. intros e He.
    apply Is_true_true. apply Is_true_true in He. by eapply weight_ok_mono.
  - done.
Qed.

Lemma build_complex_threshold_monotone_witness :
  ∃ l1, complex (build_complex_from_graph (init 2) weighted_triangle 1) !! 1 = Some l1
        ∧ [[0; 2]; [1; 2]] `sublist_of` l1.
Proof.
  apply (build_complex_threshold_monotone 2 weighted_triangle 1 2 1).
  - vm_compute. discriminate.
  - vm_compute. reflexivity.
Defined.

End Threshold.

Section Rebuild.
Import Sheaf.
Context (np_linalg_norm : list Q → Q)
        (gd_persistence : SimplexTree → list (Z * (Q * ext))).



End Rebuild.

(** ** The clique expansion *)

Section Cliques.
Import Sheaf.
Implicit Types (s : FinancialSheaf) (g : NX.Graph) (sigma tau : simplex).

Lemma StronglySorted_le_lt (l : list Z) :
  StronglySorted Z.le l → NoDup l → StronglySorted Z.lt l.
Proof.
  induction 1 as [|x l Hs IH Hall]; intros Hnd; [constructor|].
  apply NoDup_cons in Hnd as [Hx Hnd]. constructor; [by apply IH|].
  rewrite Forall_forall in *. intros y Hy. specialize (Hall y Hy).
  assert (x ≠ y) by (by intros ->). lia.
Qed.

Lemma StronglySorted_lt_le (l : list Z) :
  StronglySorted Z.lt l → StronglySorted Z.le l ∧ NoDup l.
Proof.
  induction 1 as [|x l Hs [IH1 IH2] Hall]; [split; constructor|].
  rewrite Forall_forall in Hall. split.
  - constructor; [done|]. apply Forall_forall. intros y Hy. specialize (Hall y Hy). lia.
  - apply NoDup_cons. split; [|done]. intros Hx. specialize (Hall x Hx). lia.
Qed.

Lemma other_vertex sigma u :
  NoDup sigma → (2 ≤ length sigma)%nat → ∃ v, v ∈ sigma ∧ v ≠ u.
Proof.
  intros Hnd Hlen. destruct sigma as [|a [|b rest]]; simpl in Hlen; [lia..|].
  apply NoDup_cons in Hnd as [Hab _].
  destruct (decide (a = u)) as [->|Hne].
  - exists b. split; [set_solver|]. intros ->. apply Hab. by left.
  - exists a. split; [by left | done].
Qed.

(** The simplices of a dimension k from 2 to [max_dim] are exactly the
    (k+1)-cliques of the graph restricted to the edges that meet the
    threshold, each as the strictly increasing list of its vertices. *)
Theorem higher_simplices_are_cliques (max_dim : Z) g (threshold : Q) (k : Z)
    (l : list simplex) sigma :
  NX.wf_graph g = true →
  2 ≤ k →
  complex (build_complex_from_graph (init max_dim) g threshold) !! k = Some l →
  sigma ∈ l ↔
    StronglySorted Z.lt sigma
    ∧ Z.of_nat (length sigma) = k + 1
    ∧ ∀ u v, u ∈ sigma → v ∈ sigma → u ≠ v → edge_meets g threshold u v.
Proof.
  intros Hwf Hk Hl. simpl in Hl. rewrite build_complex_lookup in Hl.
  destruct (decide (2 ≤ k ≤ max_dim)) as [_|_];
    [|rewrite !decide_False in Hl by lia; done].
  injection Hl as <-. rewrite elem_of_clique_simplices. split.
  - intros (c & -> & Hsub & Hlen & _ & _ & Hok).
    assert (NoDup c) as Hnd by (eapply sublist_NoDup; [by apply wf_graph_nodes | done]).
    split; [|split].
    + apply StronglySorted_le_lt; [apply sorted_StronglySorted|].
      by rewrite sorted_Permutation.
    + by rewrite (Permutation_length (sorted_Permutation c)).
    + intros u v Hu Hv Hne. rewrite sorted_Permutation in Hu, Hv.
      rewrite edges_ok_spec in Hok.
      destruct (pairs_total c u v Hu Hv Hne) as [H|H]; [by apply Hok|].
      apply edge_meets_sym; [done|]. by apply Hok.
  - intros (Hsorted & Hlen & Hedges).
    apply StronglySorted_lt_le in Hsorted as [Hle Hnd].
    assert (∀ u, u ∈ sigma → u ∈ NX.nodes g) as Hnodes.
    { intros u Hu. destruct (other_vertex sigma u Hnd) as (v & Hv & Hne); [lia|].
      destruct (Hedges u v Hu Hv (not_eq_sym Hne)) as (d & Hd & _).
      by eapply edge_data_node_l. }
    set (c := filter (λ v, v ∈ sigma) (NX.nodes g)).
    assert (NoDup c) as Hndc by (by apply NoDup_filter, wf_graph_nodes).
    assert (c ≡ₚ sigma) as Hperm.
    { apply NoDup_Permutation; [done..|]. intros x. unfold c.
      rewrite list_elem_of_filter. naive_solver. }
    assert (∀ u v, (u, v) ∈ pairs c → edge_meets g threshold u v) as Hall.
    { intros u v Huv. pose proof (pairs_distinct _ _ _ Hndc Huv) as Hne.
      apply pairs_elem_of in Huv as [Hu Hv]. rewrite Hperm in Hu, Hv. by apply Hedges. }
    exists c. split; [|split; [|split; [|split; [|split]]]].
    + apply (StronglySorted_unique Z.le); [done | apply sorted_StronglySorted |].
      by rewrite sorted_Permutation.
    + apply sublist_filter.
    + by rewrite (Permutation_length Hperm).
    + intros Hc. rewrite Hc in Hperm. apply Permutation_nil_l in Hperm.
      subst sigma. simpl in Hlen. lia.
    + apply is_clique_spec. intros u v Huv.
      destruct (Hall u v Huv) as (d & Hd & _). apply has_edge_true. by rewrite Hd.
    + by apply edges_ok_spec.
Qed.

Lemma higher_simplices_are_cliques_witness :
  [0; 1; 2] ∈ [[0; 1; 2]] ↔
    StronglySorted Z.lt [0; 1; 2]
    ∧ Z.of_nat (length [0; 1; 2]) = 2 + 1
    ∧ ∀ u v, u ∈ [0; 1; 2] → v ∈ [0; 1; 2] → u ≠ v → edge_meets weighted_triangle 1 u v.
Proof.
  apply (higher_simplices_are_cliques 2 weighted_triangle 1 2 [[0; 1; 2]] [0; 1; 2]).
  - vm_compute. reflexivity.
  - lia.
  - vm_compute. reflexivity.
Defined.

End Cliques.

(** ** The order of the filtration values *)

Section FiltrationOrder.
Import Sheaf.
Implicit Types (s : FinancialSheaf) (g : NX.Graph) (sigma tau : simplex).

Lemma elem_of_build_simplex_tree s g (param : string) sigma (f : Q) :
  (sigma, f) ∈ build_simplex_tree s g param ↔
  (∃ v, v ∈ NX.nodes g ∧ sigma = [v] ∧ f = 0%Q)
  ∨ (∃ u v d, (u, v, d) ∈ NX.edges g ∧ sigma = [u; v] ∧ f = attr_or_one param d)
  ∨ (sigma, f) ∈ higher_inserts s g param.
Proof.
  unfold build_simplex_tree. rewrite !elem_of_app, !list_elem_of_fmap.
  split.
  - intros [(v & [= -> ->] & Hv) | [([[u v] d] & [= -> ->] & He) | Hh]].
    + left. by exists v.
    + right. left. by exists u, v, d.
    + by right; right.
  - intros [(v & Hv & -> & ->) | [(u & v & d & He & -> & ->) | Hh]].
    + left. by exists v.
    + right. left. by exists (u, v, d).
    + by right; right.
Qed.

Lemma edge_filtration_below_max g (param : string) sigma (u v : Z) d (f0 : Q) (fs : list Q) :
  NX.wf_graph g = true →
  u ∈ sigma → v ∈ sigma → u ≠ v → NX.edge_data g u v = Some d →
  edge_filtrations g param sigma = f0 :: fs →
  (attr_or_one param d <= maxQ f0 fs)%Q.
Proof.
  intros Hwf Hu Hv Hne Hd Hf. apply maxQ_upper_bound. rewrite <-Hf.
  apply elem_of_edge_filtrations.
  destruct (pairs_total sigma u v Hu Hv Hne) as [H|H].
  - by exists u, v, d.
  - exists v, u, d. split; [done|]. split; [|done]. by apply edge_data_sym.
Qed.

(** The values handed to the persistence engine form a filtration: when no
    edge value is negative, a simplex is never inserted with a smaller value
    than one of its faces (vertices enter at 0, edges at their attribute,
    higher simplices at the largest value among their edges). *)
Theorem inserted_filtration_monotone (max_dim : Z) g (threshold : Q) (param : string)
    tau sigma (f h : Q) :
  NX.wf_graph g = true → no_self_loops g = true →
  Forall (λ e : Z * Z * NX.Attrs, (0 <= attr_or_one param e.2)%Q) (NX.edges g) →
  (tau, f) ∈ build_simplex_tree (build_complex_from_graph (init max_dim) g threshold) g param →
  (sigma, h) ∈ build_simplex_tree (build_complex_from_graph (init max_dim) g threshold) g param →
  tau ⊆ sigma → (length tau < length sigma)%nat →
  (f <= h)%Q.
Proof.
  intros Hwf Hloops Hedges Htau Hsigma Hsub Hlen.
  assert (∀ u v d, NX.edge_data g u v = Some d → (0 <= attr_or_one param d)%Q) as Hpos.
  { intros u v d Hd. rewrite Forall_forall in Hedges.
    destruct (edges_complete g u v d Hwf Hd) as [H|H]; apply (Hedges _ H). }
  set (s := build_complex_from_graph (init max_dim) g threshold) in *.
  assert (∀ rho r, (rho, r) ∈ higher_inserts s g param →
            (3 ≤ length rho)%nat
            ∧ ∃ f0 fs, edge_filtrations g param rho = f0 :: fs ∧ r = maxQ f0 fs) as Hhigh.
  { intros rho r (dim & l & f0 & fs & Hdim & Hl & Hin & Hf & ->)%elem_of_higher_inserts.
    pose proof (stored_simplex_length _ _ _ _ _ _ Hl Hin). split; [lia|]. by exists f0, fs. }
  assert (∀ rho f0 fs, edge_filtrations g param rho = f0 :: fs → (0 <= maxQ f0 fs)%Q) as Hmax0.
  { intros rho f0 fs Hf. pose proof (maxQ_elem_of f0 fs) as Hin. rewrite <-Hf in Hin.
    apply elem_of_edge_filtrations in Hin as (u & v & d & _ & Hd & ->). by eapply Hpos. }
  apply elem_of_build_simplex_tree in Htau as
    [(w & Hw & -> & ->) | [(u & v & d & He & -> & ->) | Htau]];
  apply elem_of_build_simplex_tree in Hsigma as
    [(w' & Hw' & -> & ->) | [(u' & v' & d' & He' & -> & ->) | Hsigma]];
  simpl in Hlen; try lia.
  - apply edges_sound in He'; [|done]. by eapply Hpos.
  - destruct (Hhigh _ _ Hsigma) as (_ & f0 & fs & Hf & ->). by eapply Hmax0.
  - destruct (Hhigh _ _ Hsigma) as (_ & f0 & fs & Hf & ->).
    apply edges_sound in He; [|done].
    assert (u ≠ v) as Hne.
    { intros ->. pose proof (no_self_loops_spec g v Hloops) as Hl.
      unfold NX.has_edge in Hl. by rewrite He in Hl. }
    apply (edge_filtration_below_max g param sigma u v); try done; apply Hsub; set_solver.
  - destruct (Hhigh _ _ Htau) as (Hlt & _). simpl in Hlt. lia.
  - destruct (Hhigh _ _ Htau) as (Hlt & _). simpl in Hlt. lia.
  - destruct (Hhigh _ _ Htau) as (_ & f0 & fs & Hf & ->).
    destruct (Hhigh _ _ Hsigma) as (_ & h0 & hs & Hh & ->).
    pose proof (maxQ_elem_of f0 fs) as Hin. rewrite <-Hf in Hin.
    apply elem_of_edge_filtrations in Hin as (u & v & d & Huv & Hd & ->).
    assert (u ≠ v) as Hne.
    { intros ->. pose proof (no_self_loops_spec g v Hloops) as Hl.
      unfold NX.has_edge in Hl. by rewrite Hd in Hl. }
    apply pairs_elem_of in Huv as [Hu Hv].
    apply (edge_filtration_below_max g param sigma u v); try done; by apply Hsub.
Qed.

Lemma inserted_filtration_monotone_witness :
  ([1; 2], 2%Q) ∈ build_simplex_tree (build_complex_from_graph (init 2) weighted_triangle 0)
                    weighted_triangle "weight"
  ∧ ([0; 1; 2], 3%Q) ∈ build_simplex_tree (build_complex_from_graph (init 2) weighted_triangle 0)
                         weighted_triangle "weight"
  ∧ (2 <= 3)%Q.
Proof.
  assert (([1; 2], 2%Q) ∈ build_simplex_tree
            (build_complex_from_graph (init 2) weighted_triangle 0) weighted_triangle "weight")
    as Hedge by (apply (bool_decide_unpack _); vm_compute; exact I).
  assert (([0; 1; 2], 3%Q) ∈ build_simplex_tree
            (build_complex_from_graph (init 2) weighted_triangle 0) weighted_triangle "weight")
    as Htriangle by (apply (bool_decide_unpack _); vm_compute; exact I).
  split; [exact Hedge|]. split; [exact Htriangle|].
  apply (inserted_filtration_monotone 2 weighted_triangle 0 "weight" [1; 2] [0; 1; 2] 2 3).
  - vm_compute. reflexivity.
  - vm_compute. reflexivity.
  - let l := eval vm_compute in (NX.edges weighted_triangle) in
    change (NX.edges weighted_triangle) with l.
    repeat (constructor; [vm_compute; discriminate|]). constructor.
  - exact Hedge.
  - exact Htriangle.
  - clear. set_solver.
  - simpl. lia.
Defined.

(** [compute_persistent_cohomology] takes the edges from the graph, not from
    the complex: an edge below the threshold the complex was built with is
    no 1-simplex of the complex and no higher simplex contains it, but it is
    inserted into the simplex tree all the same. *)
Theorem persistence_ignores_threshold (max_dim : Z) g (threshold : Q) (param : string)
    (u v : Z) (d : NX.Attrs) :
  NX.wf_graph g = true →
  (u, v, d) ∈ NX.edges g → u ≠ v → weight_ok threshold d = false →
  (∀ l, complex (build_complex_from_graph (init max_dim) g threshold) !! 1 = Some l →
        [u; v] ∉ l)
  ∧ (∀ sigma f,
       (sigma, f) ∈ higher_inserts (build_complex_from_graph (init max_dim) g threshold) g param →
       ¬ (u ∈ sigma ∧ v ∈ sigma))
  ∧ ([u; v], attr_or_one param d)
      ∈ build_simplex_tree (build_complex_from_graph (init max_dim) g threshold) g param.
Proof.
  intros Hwf He Hne Hlow. pose proof (edges_sound g u v d Hwf He) as Hd.
  split; [|split].
  - intros l Hl Hin. simpl in Hl. rewrite build_complex_lookup in Hl.
    rewrite decide_False in Hl by lia. rewrite decide_True in Hl by done.
    injection Hl as <-.
    apply list_elem_of_fmap in Hin as ([u' v'] & [= <- <-] & Hin).
    apply elem_of_filtered_edges in Hin as (d' & Hin & Hok).
    apply edges_sound in Hin; [|done]. congruence.
  - intros sigma f (dim & l & f0 & fs & Hdim & Hl & Hin & _)%elem_of_higher_inserts [Hu Hv].
    simpl in Hl, Hdim. rewrite build_complex_lookup in Hl.
    rewrite decide_True in Hl by lia. injection Hl as <-.
    apply elem_of_clique_simplices in Hin as (c & -> & Hsub & _ & _ & _ & Hok).
    rewrite sorted_Permutation in Hu, Hv. rewrite edges_ok_spec in Hok.
    assert (edge_meets g threshold u v) as (d' & Hd' & Hok').
    { destruct (pairs_total c u v Hu Hv Hne) as [H|H]; [by apply Hok|].
      apply edge_meets_sym; [done|]. by apply Hok. }
    congruence.
  - apply elem_of_build_simplex_tree. right. left. by exists u, v, d.
Qed.

Lemma persistence_ignores_threshold_witness :
  (∀ l, complex (build_complex_from_graph (init 2) weighted_triangle 2) !! 1 = Some l →
        [0; 1] ∉ l)
  ∧ (∀ sigma f,
       (sigma, f) ∈ higher_inserts (build_complex_from_graph (init 2) weighted_triangle 2)
                      weighted_triangle "weight" →
       ¬ (0 ∈ sigma ∧ 1 ∈ sigma))
  ∧ ([0; 1], attr_or_one "weight" (weight_attr 1))
      ∈ build_simplex_tree (build_complex_from_graph (init 2) weighted_triangle 2)
          weighted_triangle "weight".
Proof.
  apply (persistence_ignores_threshold 2 weighted_triangle 2 "weight" 0 1 (weight_attr 1)).
  - vm_compute. reflexivity.
  - apply (bool_decide_unpack _). vm_compute. exact I.
  - lia.
  - vm_compute. reflexivity.
Defined.

End FiltrationOrder.

(** ** Values of the raw scores *)

Section ScoreValues.
Import Sheaf.
Context (np_linalg_norm : list Q → Q).
Implicit Types (s : FinancialSheaf) (g : NX.Graph).

Lemma for_each_Ok_foldl {A S} (f : S → A → result S) (h : S → A → S) (l : list A) (acc : S) :
  (∀ a x, x ∈ l → f a x = Ok (h a x)) → for_each f l acc = Ok (foldl h acc l).
Proof.
  revert acc. induction l as [|x l IH]; intros acc Hf; simpl; [done|].
  rewrite Hf by (by left). simpl. apply IH. intros a y Hy. apply Hf. by right.
Qed.

Lemma foldl_invariant {A S} (P : S → Prop) (h : S → A → S) (l : list A) (acc : S) :
  P acc → (∀ a x, x ∈ l → P a → P (h a x)) → P (foldl h acc l).
Proof.
  revert acc. induction l as [|x l IH]; intros acc Hacc Hstep; simpl; [done|].
  apply IH; [apply Hstep; [by left | done]|]. intros a y Hy. apply Hstep. by right.
Qed.

Lemma sumQ_nonneg (l : list Q) : Forall (λ x, (0 <= x)%Q) l → (0 <= sumQ l)%Q.
Proof.
  induction 1 as [|x l Hx _ IH]; simpl; [apply Qle_refl|].
  unfold sumQ in *. simpl. lra.
Qed.

Lemma mean_nonneg (l : list Q) : l ≠ [] → Forall (λ x, (0 <= x)%Q) l → (0 <= mean l)%Q.
Proof.
  intros Hne Hall. unfold mean. apply Qle_shift_div_l.
  - destruct l as [|x l]; [done|]. simpl length.
    unfold Qlt, inject_Z. simpl. lia.
  - rewrite Qmult_0_l. by apply sumQ_nonneg.
Qed.

Lemma inconsistency_nonneg (v_feat : vfeat) (e_feat : Q) :
  (∀ xs, v_feat ≠ VArray xs) → (0 <= inconsistency_of np_linalg_norm v_feat e_feat)%Q.
Proof.
  intros Hna. destruct v_feat as [x|xs|]; unfold inconsistency_of.
  - apply Qabs_nonneg.
  - by destruct (Hna xs).
  - done.
Qed.

(** For a vertex of the graph, once the features are attached, the estimate
    is a value; it is not negative when the vertex's stalk is no array. *)
Lemma estimate_Ok s g (vf : gmap Z vfeat) (ef : gmap (Z * Z) Q) (vertex : Z)
    (birth : Q) (death : ext) :
  graph s = Some g → vertex_features s = Some vf → edge_features s = Some ef →
  vertex ∈ NX.nodes g →
  ∃ q, _estimate_cocycle_norm np_linalg_norm s vertex birth death = Ok q
       ∧ ((∀ xs, vf !! vertex ≠ Some (VArray xs)) → (0 <= q)%Q).
Proof.
  intros Hg Hvf Hef Hnode. unfold _estimate_cocycle_norm. rewrite Hg, Hvf, Hef. cbn.
  destruct (neighbors_of_node g vertex Hnode) as (nb & _ & -> & Hdata). cbn.
  set (h := λ (acc : list Q) (neighbor : Z),
         match NX.edge_data g vertex neighbor, vf !! vertex, ef !! (vertex, neighbor) with
         | Some edge_data, Some v_feat, Some e_feat =>
             acc ++ [if in_interval birth death (attr_or_one "weight" edge_data)
                     then (inconsistency_of np_linalg_norm v_feat e_feat * 2)%Q
                     else inconsistency_of np_linalg_norm v_feat e_feat]
         | _, _, _ => acc
         end).
  rewrite (for_each_Ok_foldl _ h).
  2:{ intros acc n Hn. destruct (Hdata n Hn) as [d Hd]. unfold h. rewrite Hd.
      destruct (vf !! vertex); [|done]. by destruct (ef !! (vertex, n)). }
  cbn. eexists. split; [reflexivity|]. intros Hna.
  assert (Forall (λ x, (0 <= x)%Q) (foldl h [] nb.*1)) as Hall.
  { apply (foldl_invariant (Forall (λ x, (0 <= x)%Q))); [constructor|].
    intros acc n _ Hacc. unfold h.
    destruct (NX.edge_data g vertex n); [|done].
    destruct (vf !! vertex) as [v_feat|] eqn:Hv; [|done].
    destruct (ef !! (vertex, n)) as [e_feat|]; [|done].
    apply Forall_app. split; [done|]. constructor; [|constructor].
    assert (0 <= inconsistency_of np_linalg_norm v_feat e_feat)%Q as Hinc.
    { apply inconsistency_nonneg. intros xs ->. by apply (Hna xs). }
    destruct (in_interval birth death _); lra. }
  destruct (foldl h [] nb.*1) as [|x l] eqn:Hl; [done|].
  by apply mean_nonneg.
Qed.

(** Without a usable feature the estimate is 0. *)
Lemma estimate_zero_without_features s g (vf : gmap Z vfeat) (ef : gmap (Z * Z) Q)
    (vertex : Z) (birth : Q) (death : ext) :
  graph s = Some g → vertex_features s = Some vf → edge_features s = Some ef →
  vertex ∈ NX.nodes g →
  (∀ neighbor, vf !! vertex = None ∨ ef !! (vertex, neighbor) = None) →
  _estimate_cocycle_norm np_linalg_norm s vertex birth death = Ok 0%Q.
Proof.
  intros Hg Hvf Hef Hnode Hmiss. unfold _estimate_cocycle_norm. rewrite Hg. simpl.
  destruct (neighbors_of_node g vertex Hnode) as (nb & _ & -> & Hdata). simpl.
  rewrite for_each_skip; [done|].
  intros n Hn. destruct (Hdata n Hn) as [d ->]. rewrite Hvf. simpl.
  destruct (Hmiss n) as [-> | Hnone]; [done|].
  destruct (vf !! vertex); [|done]. rewrite Hef. simpl. by rewrite Hnone.
Qed.

(** The value of [compute_pcr_score] when every estimate is a value. *)
Lemma pcr_score_foldl s (iv : Intervals) (vertex : Z) (pw nw : Q) (E : Q * ext → Q) :
  persistence_intervals s = Some iv →
  (∀ bd, bd ∈ H1 iv → _estimate_cocycle_norm np_linalg_norm s vertex bd.1 bd.2 = Ok (E bd)) →
  compute_pcr_score np_linalg_norm s vertex pw nw
  = Ok (foldl (λ acc bd, acc + (pw * persistence_length bd.1 bd.2 + nw * E bd))%Q 0%Q (H1 iv)).
Proof.
  intros Hiv HE. unfold compute_pcr_score. rewrite Hiv.
  apply for_each_Ok_foldl. intros acc bd Hbd. by rewrite HE.
Qed.

Lemma pcr_score_Ok s g (vf : gmap Z vfeat) (ef : gmap (Z * Z) Q) (iv : Intervals)
    (vertex : Z) (pw nw : Q) :
  graph s = Some g → vertex_features s = Some vf → edge_features s = Some ef →
  persistence_intervals s = Some iv → vertex ∈ NX.nodes g →
  ∃ q, compute_pcr_score np_linalg_norm s vertex pw nw = Ok q
       ∧ ((∀ xs, vf !! vertex ≠ Some (VArray xs)) → (0 <= pw)%Q → (0 <= nw)%Q →
          Forall (λ bd : Q * ext, (0 <= persistence_length bd.1 bd.2)%Q) (H1 iv) →
          (0 <= q)%Q).
Proof.
  intros Hg Hvf Hef Hiv Hnode.
  set (E := λ bd : Q * ext,
         match _estimate_cocycle_norm np_linalg_norm s vertex bd.1 bd.2 with
         | Ok q => q | Err _ => 0%Q end).
  assert (∀ bd, _estimate_cocycle_norm np_linalg_norm s vertex bd.1 bd.2 = Ok (E bd)
                ∧ ((∀ xs, vf !! vertex ≠ Some (VArray xs)) → (0 <= E bd)%Q)) as HE.
  { intros bd. unfold E.
    destruct (estimate_Ok s g vf ef vertex bd.1 bd.2 Hg Hvf Hef Hnode) as (q & -> & Hq).
    done. }
  rewrite (pcr_score_foldl s iv vertex pw nw E Hiv) by (intros bd _; apply HE).
  eexists. split; [reflexivity|]. intros Hna Hpw Hnw Hpers.
  apply (foldl_invariant (λ q, (0 <= q)%Q)); [done|].
  intros acc bd Hbd Hacc. rewrite Forall_forall in Hpers.
  pose proof (Hpers bd Hbd) as Hp. destruct (HE bd) as [_ He]. specialize (He Hna).
  pose proof (Qmult_le_0_compat _ _ Hpw Hp). pose proof (Qmult_le_0_compat _ _ Hnw He).
  lra.
Qed.

(** [compute_pcr_score] looks the vertex up in the graph only inside the
    loop over the one-dimensional intervals: for a vertex that is not in the
    graph it returns 0.0 when there is no such interval and raises
    networkx's error when there is one. *)
Theorem pcr_score_unknown_vertex s g (iv : Intervals) (vertex : Z)
    (persistence_weight norm_weight : Q) :
  graph s = Some g → persistence_intervals s = Some iv → vertex ∉ NX.nodes g →
  compute_pcr_score np_linalg_norm s vertex persistence_weight norm_weight
  = match H1 iv with [] => Ok 0%Q | _ :: _ => Err NetworkXError end.
Proof.
  intros Hg Hiv Hnot. unfold compute_pcr_score. rewrite Hiv.
  destruct (H1 iv) as [|bd l]; [done|]. simpl.
  unfold _estimate_cocycle_norm. rewrite Hg. cbn. unfold NX.neighbors.
  destruct (NX.dict_get vertex g) as [nb|] eqn:Hnb; [|done].
  exfalso. apply Hnot. apply dict_get_is_Some. by rewrite Hnb.
Qed.

(** A vertex of the graph for which no neighbour has a usable feature (the
    vertex has no stalk, or no edge feature is keyed by the pair that starts
    with it) gets the same raw score whatever the norm weight: the
    persistence weight times the sum of the lengths of the one-dimensional
    intervals. *)
Theorem featureless_vertex_score s g (vf : gmap Z vfeat) (ef : gmap (Z * Z) Q)
    (iv : Intervals) (vertex : Z) (persistence_weight norm_weight : Q) :
  graph s = Some g → vertex_features s = Some vf → edge_features s = Some ef →
  persistence_intervals s = Some iv → vertex ∈ NX.nodes g →
  (∀ neighbor, vf !! vertex = None ∨ ef !! (vertex, neighbor) = None) →
  ∃ q, compute_pcr_score np_linalg_norm s vertex persistence_weight norm_weight = Ok q
       ∧ (q == persistence_weight
               * sumQ ((λ bd : Q * ext, persistence_length bd.1 bd.2) <$> H1 iv))%Q.
Proof.
  intros Hg Hvf Hef Hiv Hnode Hmiss.
  rewrite (pcr_score_foldl s iv vertex _ _ (λ _, 0%Q) Hiv).
  2:{ intros bd _. by eapply estimate_zero_without_features. }
  eexists. split; [reflexivity|].
  assert (∀ (l : list (Q * ext)) (acc : Q),
            foldl (λ acc bd, acc + (persistence_weight * persistence_length bd.1 bd.2
                                    + norm_weight * 0))%Q acc l
            == acc + persistence_weight
                     * sumQ ((λ bd : Q * ext, persistence_length bd.1 bd.2) <$> l))%Q as Hfold.
  { induction l as [|bd l IH]; intros acc.
    - unfold sumQ. simpl. lra.
    - cbn [foldl]. rewrite IH, fmap_cons. unfold sumQ. cbn [foldr]. lra. }
  rewrite Hfold. ring.
Qed.

End ScoreValues.

Lemma featureless_vertex_score_witness :
  ∃ q, Sheaf.compute_pcr_score norm_l1
         (square_sheaf norm_l1 scalar_features (one_edge_feature 3) None) 1 1 (1 # 2) = Ok q
       ∧ (q == 1 * sumQ ((λ bd : Q * ext, Sheaf.persistence_length bd.1 bd.2)
                           <$> Sheaf.H1 square_intervals))%Q.
Proof.
  apply (featureless_vertex_score norm_l1
           (square_sheaf norm_l1 scalar_features (one_edge_feature 3) None)
           square_graph scalar_features (one_edge_feature 3) square_intervals 1 1 (1 # 2));
    try reflexivity.
  - apply (bool_decide_unpack _). vm_compute. exact I.
  - intros n. right. unfold one_edge_feature. apply lookup_singleton_ne. congruence.
Defined.

Lemma pcr_score_unknown_vertex_witness :
  Sheaf.compute_pcr_score norm_l1
    (square_sheaf norm_l1 scalar_features (one_edge_feature 3) None) 7 1 (1 # 2)
  = match Sheaf.H1 square_intervals with [] => Ok 0%Q | _ :: _ => Err NetworkXError end.
Proof.
  apply (pcr_score_unknown_vertex norm_l1
           (square_sheaf norm_l1 scalar_features (one_edge_feature 3) None)
           square_graph square_intervals 7 1 (1 # 2)); try reflexivity.
  apply (bool_decide_unpack _). vm_compute. exact I.
Defined.

(** ** Scores of a fitted scorer *)

Section FittedScores.
Import Sheaf.
Context (np_linalg_norm : list Q → Q)
        (gd_persistence : SimplexTree → list (Z * (Q * ext))).
Implicit Types (s : FinancialSheaf) (g : NX.Graph) (sc : Scorer.PCRScorer).

(** What [fit] leaves in the scorer and in its sheaf. *)
Lemma fit_state sc0 sc g (vf : gmap Z vfeat) (ef : gmap (Z * Z) Q)
    (rf : option (vfeat → Q → result Q)) :
  Scorer.fit np_linalg_norm gd_persistence sc0 g vf ef rf = Ok sc →
  ∃ iv, Scorer.graph sc = Some g
        ∧ graph (Scorer.sheaf sc) = Some g
        ∧ vertex_features (Scorer.sheaf sc) = Some vf
        ∧ edge_features (Scorer.sheaf sc) = Some ef
        ∧ persistence_intervals (Scorer.sheaf sc) = Some iv
        ∧ Scorer.persistence sc = Some iv.
Proof.
  unfold Scorer.fit, compute_persistent_cohomology. cbn. intros [= <-].
  eexists. by repeat split.
Qed.

Lemma raw_scores_Ok sc g (vf : gmap Z vfeat) (ef : gmap (Z * Z) Q) (iv : Intervals)
    (pw nw : Q) :
  Scorer.graph sc = Some g → graph (Scorer.sheaf sc) = Some g →
  vertex_features (Scorer.sheaf sc) = Some vf → edge_features (Scorer.sheaf sc) = Some ef →
  persistence_intervals (Scorer.sheaf sc) = Some iv →
  ∃ raw, Scorer.raw_scores np_linalg_norm sc pw nw = Ok raw
         ∧ raw.*1 = NX.nodes g
         ∧ ((∀ v xs, vf !! v ≠ Some (VArray xs)) → (0 <= pw)%Q → (0 <= nw)%Q →
            Forall (λ bd : Q * ext, (0 <= persistence_length bd.1 bd.2)%Q) (H1 iv) →
            ∀ v q, (v, q) ∈ raw → (0 <= q)%Q).
Proof.
  intros Hsg Hg Hvf Hef Hiv. unfold Scorer.raw_scores. rewrite Hsg. cbn.
  set (S := λ v, match compute_pcr_score np_linalg_norm (Scorer.sheaf sc) v pw nw with
                 | Ok q => q | Err _ => 0%Q end).
  assert (∀ v, v ∈ NX.nodes g →
            compute_pcr_score np_linalg_norm (Scorer.sheaf sc) v pw nw = Ok (S v)
            ∧ ((∀ xs, vf !! v ≠ Some (VArray xs)) → (0 <= pw)%Q → (0 <= nw)%Q →
               Forall (λ bd : Q * ext, (0 <= persistence_length bd.1 bd.2)%Q) (H1 iv) →
               (0 <= S v)%Q)) as HS.
  { intros v Hv. unfold S.
    destruct (pcr_score_Ok np_linalg_norm _ g vf ef iv v pw nw Hg Hvf Hef Hiv Hv)
      as (q & -> & Hq). done. }
  rewrite (mapM_result_Ok _ (λ v, (v, S v))).
  2:{ intros v Hv. by destruct (HS v Hv) as [-> _]. }
  eexists. split; [reflexivity|]. split.
  - rewrite <-list_fmap_compose. apply list_fmap_id.
  - intros Hna Hpw Hnw Hpers v q (v' & [= -> ->] & Hv)%list_elem_of_fmap.
    destruct (HS v' Hv) as [_ Hq]. apply Hq; [apply Hna | done..].
Qed.

Lemma normalize_keys (raw : list (Z * Q)) : (Scorer.normalize raw).*1 = raw.*1.
Proof.
  unfold Scorer.normalize.
  destruct (Qlt_le_dec 0 _); [|done]. by rewrite <-list_fmap_compose.
Qed.

(** After [fit], [compute_all_scores] never raises, whatever the graph, the
    features and the weights: it returns one score per node of the graph, in
    the order of the nodes (none for the empty graph). *)
Theorem scores_after_fit sc0 sc g (vf : gmap Z vfeat) (ef : gmap (Z * Z) Q)
    (rf : option (vfeat → Q → result Q)) (persistence_weight norm_weight : Q) :
  Scorer.fit np_linalg_norm gd_persistence sc0 g vf ef rf = Ok sc →
  ∃ scores,
    Scorer.compute_all_scores np_linalg_norm sc persistence_weight norm_weight = Ok scores
    ∧ scores.*1 = NX.nodes g.
Proof.
  intros (iv & Hsg & Hg & Hvf & Hef & Hiv & _)%fit_state.
  destruct (raw_scores_Ok sc g vf ef iv persistence_weight norm_weight Hsg Hg Hvf Hef Hiv)
    as (raw & Hraw & Hkeys & _).
  unfold Scorer.compute_all_scores. rewrite Hraw. cbn. eexists. split; [reflexivity|].
  by rewrite normalize_keys.
Qed.


Lemma maxQ_all_zero (l : list Q) : Forall (λ x, x = 0%Q) l → maxQ 0 l = 0%Q.
Proof.
  unfold maxQ. induction 1 as [|x l -> _ IH]; simpl; [done|].
  by destruct (Qlt_le_dec 0 0).
Qed.

Lemma normalize_zero (vs : list Z) :
  Scorer.normalize ((λ v, (v, 0%Q)) <$> vs) = (λ v, (v, 0%Q)) <$> vs.
Proof.
  unfold Scorer.normalize. destruct vs as [|v vs]; simpl.
  - by destruct (Qlt_le_dec 0 1).
  - rewrite maxQ_all_zero.
    + by destruct (Qlt_le_dec 0 0).
    + apply Forall_forall.
      by intros x (y & -> & (? & -> & _)%list_elem_of_fmap)%list_elem_of_fmap.
Qed.

(** When persistence found no one-dimensional interval, every node gets the
    score 0.0 and there is no risk class, whatever the features, the weights
    and the threshold. *)
Theorem no_cycle_scores_zero sc0 sc g (vf : gmap Z vfeat) (ef : gmap (Z * Z) Q)
    (rf : option (vfeat → Q → result Q)) (persistence_weight norm_weight threshold : Q) :
  Scorer.fit np_linalg_norm gd_persistence sc0 g vf ef rf = Ok sc →
  (∀ iv, Scorer.persistence sc = Some iv → H1 iv = []) →
  Scorer.compute_all_scores np_linalg_norm sc persistence_weight norm_weight
    = Ok ((λ v, (v, 0%Q)) <$> NX.nodes g)
  ∧ Scorer.get_risk_classes np_linalg_norm sc threshold = Ok [].
Proof.
  intros (iv & Hsg & Hg & Hvf & Hef & Hiv & Hp)%fit_state Hnone.
  specialize (Hnone iv Hp). split.
  - unfold Scorer.compute_all_scores, Scorer.raw_scores. rewrite Hsg. cbn.
    rewrite (mapM_result_Ok _ (λ v, (v, 0%Q))).
    + cbn. by rewrite normalize_zero.
    + intros v _. unfold compute_pcr_score. by rewrite Hiv, Hnone.
  - unfold Scorer.get_risk_classes, get_risk_classes. rewrite Hiv. cbn. by rewrite Hnone.
Qed.


End FittedScores.

Lemma scores_after_fit_witness :
  ∃ scores,
    Scorer.compute_all_scores norm_l1
      (square_scorer norm_l1 scalar_features (one_edge_feature 3) None) 1 (1 # 2) = Ok scores
    ∧ scores.*1 = NX.nodes square_graph.
Proof.
  apply (scores_after_fit norm_l1 square_persistence (Scorer.init 2 "weight") _ square_graph
           scalar_features (one_edge_feature 3) None 1 (1 # 2)).
  vm_compute. reflexivity.
Defined.


Lemma no_cycle_scores_zero_witness :
  Scorer.compute_all_scores norm_l1 edge_scorer 1 (1 # 2)
    = Ok ((λ v, (v, 0%Q)) <$> NX.nodes edge_2_0)
  ∧ Scorer.get_risk_classes norm_l1 edge_scorer (1 # 10) = Ok [].
Proof.
  apply (no_cycle_scores_zero norm_l1 one_component (Scorer.init 2 "weight") edge_scorer
           edge_2_0 scalar_features (one_edge_feature 3) None 1 (1 # 2) (1 # 10)).
  - reflexivity.
  - by intros iv [= <-].
Defined.


(** ** Risk classes *)

Section RiskClasses.
Import Sheaf.
Context (np_linalg_norm : list Q → Q).
Implicit Types (s : FinancialSheaf) (g : NX.Graph).

Lemma insert_desc_Permutation (x : Z * Q) (l : list (Z * Q)) : insert_desc x l ≡ₚ x :: l.
Proof.
  induction l as [|y l IH]; simpl; [done|].
  destruct (Qlt_le_dec x.2 y.2); [|done]. rewrite IH. apply Permutation_swap.
Qed.

Lemma sort_desc_Permutation (l : list (Z * Q)) : sort_desc l ≡ₚ l.
Proof.
  induction l as [|x l IH]; [done|].
  unfold sort_desc in *. simpl. by rewrite insert_desc_Permutation, IH.
Qed.

Lemma insert_desc_sorted (x : Z * Q) (l : list (Z * Q)) :
  StronglySorted (λ a b : Z * Q, (b.2 <= a.2)%Q) l →
  StronglySorted (λ a b : Z * Q, (b.2 <= a.2)%Q) (insert_desc x l).
Proof.
  induction 1 as [|y l Hs IH Hall]; simpl; [repeat constructor|].
  destruct (Qlt_le_dec x.2 y.2) as [Hlt|Hle].
  - constructor; [done|]. rewrite insert_desc_Permutation.
    constructor; [by apply Qlt_le_weak | done].
  - constructor; [by constructor|]. constructor; [done|].
    eapply Forall_impl; [exact Hall|]. intros z Hz. simpl in *. by eapply Qle_trans.
Qed.

Lemma sort_desc_sorted (l : list (Z * Q)) :
  StronglySorted (λ a b : Z * Q, (b.2 <= a.2)%Q) (sort_desc l).
Proof.
  induction l as [|x l IH]; [constructor|].
  unfold sort_desc in *. simpl. by apply insert_desc_sorted.
Qed.

Lemma elem_of_enumerate_from {A} (l : list A) (n i : nat) (x : A) :
  (i, x) ∈ zip (seq n (length l)) l ↔ (n ≤ i)%nat ∧ l !! (i - n)%nat = Some x.
Proof.
  revert n. induction l as [|y l IH]; intros n; simpl.
  - rewrite elem_of_nil. naive_solver.
  - rewrite elem_of_cons, IH. split.
    + intros [[= -> ->] | [Hle Hl]].
      * split; [lia|]. by rewrite Nat.sub_diag.
      * split; [lia|]. by replace (i - n)%nat with (S (i - S n)) by lia.
    + intros [Hle Hl]. destruct (decide (i = n)) as [->|Hne].
      * left. rewrite Nat.sub_diag in Hl. simpl in Hl. congruence.
      * right. split; [lia|].
        by replace (i - n)%nat with (S (i - S n)) in Hl by lia.
Qed.

Lemma elem_of_enumerate {A} (l : list A) (i : nat) (x : A) :
  (i, x) ∈ enumerate l ↔ l !! i = Some x.
Proof.
  unfold enumerate. rewrite elem_of_enumerate_from, Nat.sub_0_r.
  split; [tauto | split; [lia | done]].
Qed.

(** A loop that appends to a list when a test succeeds. *)
Lemma elem_of_foldl_snoc {A B} (test : A → bool) (f : A → B) (l : list A) (acc : list B)
    (y : B) :
  y ∈ foldl (λ acc x, if test x then acc ++ [f x] else acc) acc l
  ↔ y ∈ acc ∨ ∃ x, x ∈ l ∧ test x = true ∧ y = f x.
Proof.
  revert acc. induction l as [|x l IH]; intros acc; simpl.
  - split; [by left|]. intros [?|(x & Hx & _)]; [done|]. by apply elem_of_nil in Hx.
  - rewrite IH. destruct (test x) eqn:Ht.
    + rewrite elem_of_app, list_elem_of_singleton. split.
      * intros [[?| ->]|(x' & Hx' & ? & ?)]; [by left | |].
        -- right. exists x. split; [by left | done].
        -- right. exists x'. split; [by right | done].
      * intros [?|(x' & [->|Hx']%elem_of_cons & Ht' & ->)]; [by left; left | |].
        -- by left; right.
        -- right. by exists x'.
    + split.
      * intros [?|(x' & Hx' & ? & ?)]; [by left|]. right. exists x'. split; [by right | done].
      * intros [?|(x' & [->|Hx']%elem_of_cons & Ht' & ->)]; [by left | congruence |].
        right. by exists x'.
Qed.

(** The value of [_find_vertices_in_cycle] on a fitted sheaf: the first ten
    of the scored nodes, sorted by score, whatever the index. *)
Lemma find_vertices_value s g (vf : gmap Z vfeat) (ef : gmap (Z * Z) Q) (iv : Intervals) :
  graph s = Some g → vertex_features s = Some vf → edge_features s = Some ef →
  persistence_intervals s = Some iv →
  ∃ L : list (Z * Q),
    (∀ idx, _find_vertices_in_cycle np_linalg_norm s idx = Ok (fst <$> take 10 (sort_desc L)))
    ∧ ∀ v q, (v, q) ∈ L ↔
        v ∈ NX.nodes g
        ∧ compute_pcr_score np_linalg_norm s v
            DEFAULT_PERSISTENCE_WEIGHT DEFAULT_NORM_WEIGHT = Ok q
        ∧ (1 # 2 < q)%Q.
Proof.
  intros Hg Hvf Hef Hiv.
  set (S := λ v, match compute_pcr_score np_linalg_norm s v
                         DEFAULT_PERSISTENCE_WEIGHT DEFAULT_NORM_WEIGHT with
                 | Ok q => q | Err _ => 0%Q end).
  assert (∀ v, v ∈ NX.nodes g →
            compute_pcr_score np_linalg_norm s v
              DEFAULT_PERSISTENCE_WEIGHT DEFAULT_NORM_WEIGHT = Ok (S v)) as HS.
  { intros v Hv. unfold S.
    by destruct (pcr_score_Ok np_linalg_norm s g vf ef iv v
                   DEFAULT_PERSISTENCE_WEIGHT DEFAULT_NORM_WEIGHT Hg Hvf Hef Hiv Hv)
      as (q & -> & _). }
  set (test := λ v, if Qlt_le_dec (1 # 2) (S v) then true else false).
  exists (foldl (λ acc v, if test v then acc ++ [(v, S v)] else acc) [] (NX.nodes g)).
  split.
  - intros idx. unfold _find_vertices_in_cycle. rewrite Hg. cbn.
    rewrite (for_each_Ok_foldl _ (λ acc v, if test v then acc ++ [(v, S v)] else acc)).
    + done.
    + intros acc v Hv. rewrite (HS v Hv). cbn. unfold test.
      by destruct (Qlt_le_dec (1 # 2) (S v)).
  - intros v q. rewrite elem_of_foldl_snoc, elem_of_nil. unfold test. split.
    + intros [[]|(x & Hx & Ht & [= -> ->])]. split; [done|]. split; [by apply HS|].
      destruct (Qlt_le_dec (1 # 2) (S x)); [done | discriminate].
    + intros (Hv & Hq & Hhalf). rewrite (HS v Hv) in Hq. injection Hq as <-.
      right. exists v. split; [done|].
      destruct (Qlt_le_dec (1 # 2) (S v)) as [|Hle]; [done|].
      exfalso. by eapply Qlt_not_le.
Qed.

(** The list [_find_vertices_in_cycle] returns does not depend on the cycle
    it is asked about. On a fitted sheaf it never raises, and the list holds
    at most ten nodes of the graph, each with a raw score above 0.5 under
    the default weights 1.0 and 0.5 (whatever weights the caller scores
    with); a node with such a score that is left out scores no higher than
    any node listed. *)
Theorem vertices_in_cycle_are_top_scores s g (vf : gmap Z vfeat) (ef : gmap (Z * Z) Q)
    (iv : Intervals) :
  graph s = Some g → vertex_features s = Some vf → edge_features s = Some ef →
  persistence_intervals s = Some iv →
  ∃ vertices,
    (∀ cycle_idx, _find_vertices_in_cycle np_linalg_norm s cycle_idx = Ok vertices)
    ∧ (length vertices ≤ 10)%nat
    ∧ (∀ v, v ∈ vertices →
         v ∈ NX.nodes g
         ∧ ∃ q, compute_pcr_score np_linalg_norm s v
                  DEFAULT_PERSISTENCE_WEIGHT DEFAULT_NORM_WEIGHT = Ok q
                ∧ (1 # 2 < q)%Q)
    ∧ (∀ w r, w ∈ NX.nodes g → w ∉ vertices →
         compute_pcr_score np_linalg_norm s w
           DEFAULT_PERSISTENCE_WEIGHT DEFAULT_NORM_WEIGHT = Ok r →
         (1 # 2 < r)%Q →
         ∀ v, v ∈ vertices →
           ∃ q, compute_pcr_score np_linalg_norm s v
                  DEFAULT_PERSISTENCE_WEIGHT DEFAULT_NORM_WEIGHT = Ok q
                ∧ (r <= q)%Q).
Proof.
  intros Hg Hvf Hef Hiv.
  destruct (find_vertices_value s g vf ef iv Hg Hvf Hef Hiv) as (L & Hfind & HL).
  exists (fst <$> take 10 (sort_desc L)). split; [exact Hfind|].
  assert (∀ v, v ∈ fst <$> take 10 (sort_desc L) →
            ∃ q, (v, q) ∈ take 10 (sort_desc L) ∧ (v, q) ∈ L) as Hlisted.
  { intros v ([v' q] & -> & Hin)%list_elem_of_fmap. exists q. split; [done|].
    rewrite <-sort_desc_Permutation.
    rewrite <-(take_drop 10 (sort_desc L)). apply elem_of_app. by left. }
  split; [|split].
  - rewrite length_fmap, length_take. lia.
  - intros v (q & _ & (Hv & Hq & Hhalf)%HL)%Hlisted. split; [done|]. by exists q.
  - intros w r Hw Hnot Hr Hhalf v (q & Hin & (_ & Hq & _)%HL)%Hlisted.
    exists q. split; [done|].
    assert ((w, r) ∈ drop 10 (sort_desc L)) as Hdrop.
    { assert ((w, r) ∈ sort_desc L) as Hsorted.
      { rewrite sort_desc_Permutation. by apply HL. }
      rewrite <-(take_drop 10 (sort_desc L)) in Hsorted.
      apply elem_of_app in Hsorted as [Htake|]; [|done].
      exfalso. apply Hnot. apply list_elem_of_fmap. by exists (w, r). }
    pose proof (sort_desc_sorted L) as Hs. rewrite <-(take_drop 10 (sort_desc L)) in Hs.
    apply (StronglySorted_app_1_elem_of _ _ _ _ _ Hs Hin Hdrop).
Qed.

(** On a fitted sheaf [get_risk_classes] never raises. It returns one class
    for each one-dimensional interval whose length reaches the threshold and
    none for the others; a class repeats the birth and death of its
    interval, its risk level is at most 1 and not negative when the
    threshold is not negative, and all classes carry one and the same vertex
    list. *)
Theorem risk_classes_of_intervals s g (vf : gmap Z vfeat) (ef : gmap (Z * Z) Q)
    (iv : Intervals) (threshold : Q) :
  graph s = Some g → vertex_features s = Some vf → edge_features s = Some ef →
  persistence_intervals s = Some iv →
  ∃ crcs,
    get_risk_classes np_linalg_norm s threshold = Ok crcs
    ∧ (∀ c, c ∈ crcs →
         H1 iv !! crc_id c = Some (crc_birth c, crc_death c)
         ∧ crc_persistence c = persistence_length (crc_birth c) (crc_death c)
         ∧ (threshold <= crc_persistence c)%Q
         ∧ (crc_risk_level c <= 1)%Q
         ∧ ((0 <= threshold)%Q → (0 <= crc_risk_level c)%Q)
         ∧ ((1 # 10 < crc_persistence c)%Q → crc_risk_level c = 1%Q)
         ∧ _find_vertices_in_cycle np_linalg_norm s 0 = Ok (crc_vertices c))
    ∧ (∀ i birth death,
         H1 iv !! i = Some (birth, death) →
         (threshold <= persistence_length birth death)%Q →
         ∃ c, c ∈ crcs ∧ crc_id c = i).
Proof.
  intros Hg Hvf Hef Hiv.
  destruct (find_vertices_value s g vf ef iv Hg Hvf Hef Hiv) as (L & HV & _).
  set (V := fst <$> take 10 (sort_desc L)) in *.
  set (mk := λ ibd : nat * (Q * ext),
         {| crc_id := ibd.1; crc_birth := ibd.2.1; crc_death := ibd.2.2;
            crc_persistence := persistence_length ibd.2.1 ibd.2.2;
            crc_vertices := V;
            crc_risk_level :=
              if Qlt_le_dec 1 (persistence_length ibd.2.1 ibd.2.2 * 10)
              then 1%Q else (persistence_length ibd.2.1 ibd.2.2 * 10)%Q |}).
  set (test := λ ibd : nat * (Q * ext),
         Qle_bool threshold (persistence_length ibd.2.1 ibd.2.2)).
  unfold get_risk_classes. rewrite Hiv. cbn.
  rewrite (for_each_Ok_foldl _ (λ crcs ibd, if test ibd then crcs ++ [mk ibd] else crcs)).
  2:{ intros acc ibd _. unfold test. destruct (Qle_bool threshold _); [|done].
      by rewrite HV. }
  eexists. split; [reflexivity|]. split.
  - intros c [[]%elem_of_nil | ([i [b d]] & Hin & Ht & ->)]%elem_of_foldl_snoc.
    apply elem_of_enumerate in Hin. unfold test in Ht. apply Qle_bool_iff in Ht.
    cbn in *. split; [done|]. split; [done|]. split; [done|].
    destruct (Qlt_le_dec 1 (persistence_length b d * 10)) as [Hbig|Hsmall].
    + split; [done|]. split; [done|]. split; [done|]. apply HV.
    + split; [done|]. split; [intros Hthr; lra|]. split; [intros Hbig; lra|]. apply HV.
  - intros i b d Hl Hthr. exists (mk (i, (b, d))). split; [|done].
    apply elem_of_foldl_snoc. right. exists (i, (b, d)).
    split; [by apply elem_of_enumerate|]. split; [|done].
    unfold test. by apply Qle_bool_iff.
Qed.

End RiskClasses.

Lemma vertices_in_cycle_are_top_scores_witness :
  ∃ vertices,
    (∀ cycle_idx,
       Sheaf._find_vertices_in_cycle norm_l1
         (square_sheaf norm_l1 scalar_features (one_edge_feature 3) None) cycle_idx
       = Ok vertices)
    ∧ (length vertices ≤ 10)%nat
    ∧ (∀ v, v ∈ vertices →
         v ∈ NX.nodes square_graph
         ∧ ∃ q, Sheaf.compute_pcr_score norm_l1
                  (square_sheaf norm_l1 scalar_features (one_edge_feature 3) None) v
                  Sheaf.DEFAULT_PERSISTENCE_WEIGHT Sheaf.DEFAULT_NORM_WEIGHT = Ok q
                ∧ (1 # 2 < q)%Q)
    ∧ (∀ w r, w ∈ NX.nodes square_graph → w ∉ vertices →
         Sheaf.compute_pcr_score norm_l1
           (square_sheaf norm_l1 scalar_features (one_edge_feature 3) None) w
           Sheaf.DEFAULT_PERSISTENCE_WEIGHT Sheaf.DEFAULT_NORM_WEIGHT = Ok r →
         (1 # 2 < r)%Q →
         ∀ v, v ∈ vertices →
           ∃ q, Sheaf.compute_pcr_score norm_l1
                  (square_sheaf norm_l1 scalar_features (one_edge_feature 3) None) v
                  Sheaf.DEFAULT_PERSISTENCE_WEIGHT Sheaf.DEFAULT_NORM_WEIGHT = Ok q
                ∧ (r <= q)%Q).
Proof.
  apply (vertices_in_cycle_are_top_scores norm_l1
           (square_sheaf norm_l1 scalar_features (one_edge_feature 3) None)
           square_graph scalar_features (one_edge_feature 3) square_intervals);
    reflexivity.
Defined.

Lemma risk_classes_of_intervals_witness :
  ∃ crcs,
    Sheaf.get_risk_classes norm_l1
      (square_sheaf norm_l1 scalar_features (one_edge_feature 3) None) (1 # 10) = Ok crcs
    ∧ (∀ c, c ∈ crcs →
         Sheaf.H1 square_intervals !! Sheaf.crc_id c
           = Some (Sheaf.crc_birth c, Sheaf.crc_death c)
         ∧ Sheaf.crc_persistence c
           = Sheaf.persistence_length (Sheaf.crc_birth c) (Sheaf.crc_death c)
         ∧ (1 # 10 <= Sheaf.crc_persistence c)%Q
         ∧ (Sheaf.crc_risk_level c <= 1)%Q
         ∧ ((0 <= 1 # 10)%Q → (0 <= Sheaf.crc_risk_level c)%Q)
         ∧ ((1 # 10 < Sheaf.crc_persistence c)%Q → Sheaf.crc_risk_level c = 1%Q)
         ∧ Sheaf._find_vertices_in_cycle norm_l1
             (square_sheaf norm_l1 scalar_features (one_edge_feature 3) None) 0
           = Ok (Sheaf.crc_vertices c))
    ∧ (∀ i birth death,
         Sheaf.H1 square_intervals !! i = Some (birth, death) →
         (1 # 10 <= Sheaf.persistence_length birth death)%Q →
         ∃ c, c ∈ crcs ∧ Sheaf.crc_id c = i).
Proof.
  apply (risk_classes_of_intervals norm_l1
           (square_sheaf norm_l1 scalar_features (one_edge_feature 3) None)
           square_graph scalar_features (one_edge_feature 3) square_intervals (1 # 10));
    reflexivity.
Defined.

(** ** When [compute_cohomology(0)] returns *)

Section CohomologyZero.
Import Sheaf.
Context (svds_factors : csr_matrix → Z → ndarray * list Q * ndarray)
        (linalg_qr : ndarray → result (ndarray * ndarray))
        (np_linalg_qr : ndarray → ndarray * ndarray).
Implicit Types (s : FinancialSheaf) (g : NX.Graph).



End CohomologyZero.


(** ** The last stored dimension in [compute_cohomology] *)

Section TopDimension.
Import Sheaf.
Context (svds_factors : csr_matrix → Z → ndarray * list Q * ndarray)
        (linalg_qr : ndarray → result (ndarray * ndarray))
        (np_linalg_qr : ndarray → ndarray * ndarray).
Implicit Types (s : FinancialSheaf) (g : NX.Graph).




End TopDimension.


(** ** Graphs whose nodes were added in increasing order *)

Section AscendingNodes.
Import Sheaf.
Implicit Types (s : FinancialSheaf) (g : NX.Graph) (sigma : simplex).

(** When the nodes of a graph without self-loops are listed in increasing
    order (as for a graph whose nodes 0 .. n-1 were added before its edges)
    networkx reports every edge with its smaller endpoint first, and every
    simplex of the built complex, the 1-simplices included, is stored as a
    strictly increasing list. *)
Theorem increasing_nodes_give_sorted_simplices (max_dim : Z) g (threshold : Q) :
  NX.wf_graph g = true → no_self_loops g = true →
  StronglySorted Z.lt (NX.nodes g) →
  edges_ascending g = true
  ∧ ∀ k l sigma,
      complex (build_complex_from_graph (init max_dim) g threshold) !! k = Some l →
      sigma ∈ l → StronglySorted Z.lt sigma.
Proof.
  intros Hwf Hloops Hsorted.
  assert (∀ u v d, (u, v, d) ∈ NX.edges g → u < v) as Hasc.
  { intros u v d Hin. pose proof (edges_sound g u v d Hwf Hin) as Hd.
    assert (u ≠ v) as Hne.
    { intros ->. pose proof (no_self_loops_spec g v Hloops) as Hl.
      unfold NX.has_edge in Hl. by rewrite Hd in Hl. }
    pose proof (edge_data_node_r g u v d Hwf Hd) as Hv.
    apply elem_of_edges in Hin as (g1 & nb & g2 & -> & _ & Hnot).
    unfold NX.nodes in Hsorted, Hv. rewrite fmap_app, fmap_cons in Hsorted, Hv.
    cbn [fst] in Hsorted, Hv.
    apply StronglySorted_app_1_r in Hsorted.
    apply StronglySorted_cons in Hsorted as [Hall _].
    rewrite elem_of_app, elem_of_cons in Hv.
    destruct Hv as [?|[?|Hv]]; [done | congruence |].
    rewrite Forall_forall in Hall. by apply Hall. }
  split.
  - unfold edges_ascending. apply forallb_forall. intros [[u v] d] Hin%list_elem_of_In.
    apply bool_decide_eq_true. by eapply Hasc.
  - intros k l sigma Hl Hin. apply StronglySorted_le_lt.
    + eapply stored_simplex_sorted; [|exact Hl|exact Hin]. intros _. exact Hasc.
    + eapply stored_simplex_NoDup; [exact Hwf| |exact Hl|exact Hin].
      intros u. by apply no_self_loops_spec.
Qed.

End AscendingNodes.

Lemma increasing_nodes_give_sorted_simplices_witness :
  edges_ascending triangle_graph = true
  ∧ ∀ k l sigma,
      Sheaf.complex (Sheaf.build_complex_from_graph (Sheaf.init 2) triangle_graph 0) !! k
        = Some l →
      sigma ∈ l → StronglySorted Z.lt sigma.
Proof.
  apply (increasing_nodes_give_sorted_simplices 2 triangle_graph 0).
  - vm_compute. reflexivity.
  - vm_compute. reflexivity.
  - let l := eval vm_compute in (NX.nodes triangle_graph) in
    change (NX.nodes triangle_graph) with l.
    repeat (constructor; [|repeat (constructor; [lia|]); constructor]). constructor.
Defined.
